(** * avtorend front end: mobile drawer, fleet client and language switcher

  A shallow embedding of the client-side scripts of the car-rental site:
  the mobile navigation drawer ([MobileMenu] and its handlers), the fleet
  manager ([FleetManager]) and the i18n switcher ([applyTranslations]).
  Definitions follow the JavaScript sources function by function; the
  browser is represented by explicit state (DOM flags, inline styles,
  scroll offset, a timer queue with a millisecond clock). *)

From Stdlib Require Import ZArith NArith List String Ascii Bool Lia.
From Stdlib Require Import DecimalString DecimalN DecimalPos DecimalFacts.
Import ListNotations.

Local Open Scope string_scope.
Local Open Scope Z_scope.

(* ================================================================== *)
(** * JavaScript primitives used by the scripts *)

Module JS.

(** Decimal rendering of a non-negative integer, as a template literal
    prints an integral Number. *)
Definition show_N (n : N) : string :=
  NilEmpty.string_of_uint (N.to_uint n).

(** [`${z}`] for an integral Number. *)
Definition show_Z (z : Z) : string :=
  match z with
  | Z0 => "0"
  | Zpos p => show_N (Npos p)
  | Zneg p => "-" ++ show_N (Npos p)
  end.

Definition digit_of (c : ascii) : option N :=
  let n := N_of_ascii c in
  if ((48 <=? n) && (n <=? 57))%N then Some (n - 48)%N else None.

Definition hex_digit_of (c : ascii) : option N :=
  let n := N_of_ascii c in
  if ((48 <=? n) && (n <=? 57))%N then Some (n - 48)%N
  else if ((97 <=? n) && (n <=? 102))%N then Some (n - 87)%N
  else if ((65 <=? n) && (n <=? 70))%N then Some (n - 55)%N
  else None.

(** Longest prefix of digits in the given radix, folded left to right. *)
Fixpoint parse_digits (digit : ascii -> option N) (radix : N)
         (s : string) (acc : N) : N :=
  match s with
  | EmptyString => acc
  | String c s' =>
      match digit c with
      | Some d => parse_digits digit radix s' (radix * acc + d)%N
      | None => acc
      end
  end.

Definition is_space (c : ascii) : bool :=
  let n := N_of_ascii c in
  ((n =? 32) || ((9 <=? n) && (n <=? 13)))%N.

Fixpoint skip_spaces (s : string) : string :=
  match s with
  | String c s' => if is_space c then skip_spaces s' else s
  | EmptyString => s
  end.

Definition starts_with_digit (digit : ascii -> option N) (s : string) : bool :=
  match s with
  | String c _ => match digit c with Some _ => true | None => false end
  | EmptyString => false
  end.

(** Magnitude parsed by [parseInt] after the sign: a [0x]/[0X] prefix
    selects radix 16, otherwise radix 10; no digit at all is [NaN]. *)
Definition parse_magnitude (s : string) : option N :=
  match s with
  | String "0" (String x s') =>
      if (Ascii.eqb x "x" || Ascii.eqb x "X")%bool then
        if starts_with_digit hex_digit_of s'
        then Some (parse_digits hex_digit_of 16 s' 0)
        else None
      else Some (parse_digits digit_of 10 s 0)
  | _ =>
      if starts_with_digit digit_of s
      then Some (parse_digits digit_of 10 s 0)
      else None
  end.

(** [parseInt(s)] with no radix argument; [None] stands for [NaN]. *)
Definition parseInt (s : string) : option Z :=
  match skip_spaces s with
  | String "-" s' => option_map (fun n => - Z.of_N n) (parse_magnitude s')
  | String "+" s' => option_map Z.of_N (parse_magnitude s')
  | s' => option_map Z.of_N (parse_magnitude s')
  end.

(** [window.scrollTo(0, y)] coerces a [NaN] ordinate to 0. *)
Definition scroll_target (y : option Z) : Z :=
  match y with Some v => v | None => 0 end.

End JS.

(* ================================================================== *)
(** * The mobile navigation drawer *)

Module Drawer.

(** The handlers of the mobile menu script over an explicit browser
    state.  Pixel coordinates and times are integers.  Left out:
    [console.log] output, the staggered link animation, the language
    switch mirroring, the [will-change] hints of [optimizeAnimations],
    the [beforeunload] clean-up, the helper [debugMobileMenu] that is
    called by hand, and the attributes that [enhanceAccessibility]
    alone writes ([aria-haspopup], [aria-controls], the panel's
    [aria-label] and [role]).  The [MutationObserver] it installs runs
    after a change of the panel's class, which only [openMobileMenu] and
    [closeMobileMenu] make, and writes again what they wrote
    ([ariaObserver] below); it is not threaded through the handlers.  A
    smooth scroll is taken at its end position.  The close button and the
    links are taken to sit inside the panel, the overlay outside it. *)

(** ** State *)

(** The module-level [MobileMenu] object.  [touchStartTime] is absent
    from the literal and only appears after a touchstart on the panel. *)
Record MobileMenuState := mkMobileMenu {
  isOpen : bool;
  isAnimating : bool;
  touchStartX : Z;
  touchStartY : Z;
  touchStartTime : option Z;
  swipeThreshold : Z;
  menuWidth : Z;
  lastScrollPosition : Z
}.

Definition MobileMenu : MobileMenuState :=
  {| isOpen := false; isAnimating := false;
     touchStartX := 0; touchStartY := 0; touchStartTime := None;
     swipeThreshold := 50; menuWidth := 0; lastScrollPosition := 0 |}.

(** Inline style of [document.body], the six properties the scroll lock
    writes. *)
Record BodyStyle := mkBodyStyle {
  position : string;
  top : string;
  width : string;
  overflow : string;
  touchAction : string;
  webkitOverflowScrolling : string
}.

Definition no_style : BodyStyle :=
  {| position := ""; top := ""; width := ""; overflow := "";
     touchAction := ""; webkitOverflowScrolling := "" |}.

(** [Math.min(deltaX / menuWidth, 1)], kept as an exact fraction. *)
Inductive Progress :=
| Full
| Fraction (num den : Z).

Inductive Focus :=
| FBody
| FToggle
| FCloseBtn
| FLink (i : nat)
| FOther.

Definition focus_eqb (a b : Focus) : bool :=
  match a, b with
  | FBody, FBody | FToggle, FToggle | FCloseBtn, FCloseBtn
  | FOther, FOther => true
  | FLink i, FLink j => Nat.eqb i j
  | _, _ => false
  end.

(** What [document.querySelector(href)] gives for the [href] of an
    in-page link of the drawer. *)
Inductive AnchorTarget :=
| BadSelector                 (* not a selector: a SyntaxError is thrown *)
| NoTarget                    (* null *)
| TargetAt (top : Z).         (* getBoundingClientRect().top + pageYOffset *)

(** Which of the elements the drawer looks up exist in the markup. *)
Record Elements := mkElements {
  has_toggle : bool;          (* #mobileMenuToggle *)
  has_nav : bool;             (* #mobileNav *)
  has_overlay : bool;         (* #mobileMenuOverlay or #mobileOverlay *)
  has_closeBtn : bool;        (* #mobileCloseBtn *)
  links : nat;                (* .mobile-nav-link *)
  header_offsetHeight : option Z;           (* .header, when there is one *)
  querySelector : string -> AnchorTarget    (* for the links' hrefs *)
}.

(** The [active] class on toggle, overlay and panel; [menu-open] on body. *)
Record Classes := mkClasses {
  toggle_active : bool;
  overlay_active : bool;
  nav_active : bool;
  body_menu_open : bool
}.

Record Aria := mkAria {
  toggle_aria_expanded : option string;
  toggle_aria_label : option string;
  nav_aria_hidden : option string;
  overlay_aria_hidden : option string
}.

(** The part of the document the drawer reads and writes. *)
Record Page := mkPage {
  els : Elements;
  classes : Classes;
  aria : Aria;
  nav_transform : option Progress;
  overlay_opacity : option Progress;
  body_style : BodyStyle;
  scrollY : Z;                (* window.scrollY = window.pageYOffset *)
  innerWidth : Z;
  nav_offsetWidth : Z;
  activeElement : Focus;
  dispatched : list string;   (* custom events, newest first *)
  warnings : list string;     (* console.warn, newest first *)
  history : list string;      (* history.pushState, newest first *)
  uncaught : list string      (* exceptions raised by timeout callbacks,
                                 newest first *)
}.

(** Callbacks handed to [setTimeout]. *)
Inductive Timer :=
| OpenDone                       (* openMobileMenu, 350 ms *)
| CloseDone (toggle : bool)      (* closeMobileMenu, 350 ms *)
| ToggleFocus                    (* focus management, 100 ms *)
| ScrollSample                   (* throttled scroll listener, 100 ms *)
| EnhanceAccessibility           (* enhanceAccessibility, 500 ms from load *)
| AnchorScroll (href : string).  (* handleAnchorLinkClick, 400 ms *)

Record World := mkWorld {
  mm : MobileMenuState;
  page : Page;
  now : Z;                        (* Date.now(), ms *)
  timers : list (Z * Timer);      (* pending, by deadline *)
  scroll_pending : bool;          (* scrollTimeout is set *)
  core_listeners : nat;           (* completed wirings of initMobileMenu *)
  outside_listeners : nat         (* document click -> handleOutsideClick,
                                     0 or 1 *)
}.

Definition set_mm (f : MobileMenuState -> MobileMenuState) (w : World) : World :=
  {| mm := f (mm w); page := page w; now := now w; timers := timers w;
     scroll_pending := scroll_pending w;
     core_listeners := core_listeners w;
     outside_listeners := outside_listeners w |}.

Definition set_page (f : Page -> Page) (w : World) : World :=
  {| mm := mm w; page := f (page w); now := now w; timers := timers w;
     scroll_pending := scroll_pending w;
     core_listeners := core_listeners w;
     outside_listeners := outside_listeners w |}.

Definition set_timers (q : list (Z * Timer)) (w : World) : World :=
  {| mm := mm w; page := page w; now := now w; timers := q;
     scroll_pending := scroll_pending w;
     core_listeners := core_listeners w;
     outside_listeners := outside_listeners w |}.

(** Insert after every timer that is due no later (earlier timeouts with
    the same deadline run first). *)
Fixpoint enqueue (d : Z) (k : Timer) (q : list (Z * Timer)) : list (Z * Timer) :=
  match q with
  | [] => [(d, k)]
  | (d', k') :: q' =>
      if d' <=? d then (d', k') :: enqueue d k q' else (d, k) :: q
  end.

(** [setTimeout(k, ms)] *)
Definition setTimeout (k : Timer) (ms : Z) (w : World) : World :=
  set_timers (enqueue (now w + ms) k (timers w)) w.


(** ** Field updates on the page *)

Definition set_els (v : Elements) (p : Page) : Page :=
  {| els := v; classes := classes p; aria := aria p;
     nav_transform := nav_transform p;
     overlay_opacity := overlay_opacity p; body_style := body_style p;
     scrollY := scrollY p; innerWidth := innerWidth p;
     nav_offsetWidth := nav_offsetWidth p;
     activeElement := activeElement p; dispatched := dispatched p;
     warnings := warnings p;
     history := history p; uncaught := uncaught p |}.

Definition set_classes (v : Classes) (p : Page) : Page :=
  {| els := els p; classes := v; aria := aria p;
     nav_transform := nav_transform p;
     overlay_opacity := overlay_opacity p; body_style := body_style p;
     scrollY := scrollY p; innerWidth := innerWidth p;
     nav_offsetWidth := nav_offsetWidth p;
     activeElement := activeElement p; dispatched := dispatched p;
     warnings := warnings p;
     history := history p; uncaught := uncaught p |}.

Definition set_aria (v : Aria) (p : Page) : Page :=
  {| els := els p; classes := classes p; aria := v;
     nav_transform := nav_transform p;
     overlay_opacity := overlay_opacity p; body_style := body_style p;
     scrollY := scrollY p; innerWidth := innerWidth p;
     nav_offsetWidth := nav_offsetWidth p;
     activeElement := activeElement p; dispatched := dispatched p;
     warnings := warnings p;
     history := history p; uncaught := uncaught p |}.

Definition set_nav_transform (v : option Progress) (p : Page) : Page :=
  {| els := els p; classes := classes p; aria := aria p;
     nav_transform := v; overlay_opacity := overlay_opacity p;
     body_style := body_style p; scrollY := scrollY p;
     innerWidth := innerWidth p; nav_offsetWidth := nav_offsetWidth p;
     activeElement := activeElement p; dispatched := dispatched p;
     warnings := warnings p;
     history := history p; uncaught := uncaught p |}.

Definition set_overlay_opacity (v : option Progress) (p : Page) : Page :=
  {| els := els p; classes := classes p; aria := aria p;
     nav_transform := nav_transform p; overlay_opacity := v;
     body_style := body_style p; scrollY := scrollY p;
     innerWidth := innerWidth p; nav_offsetWidth := nav_offsetWidth p;
     activeElement := activeElement p; dispatched := dispatched p;
     warnings := warnings p;
     history := history p; uncaught := uncaught p |}.

Definition set_body_style (v : BodyStyle) (p : Page) : Page :=
  {| els := els p; classes := classes p; aria := aria p;
     nav_transform := nav_transform p;
     overlay_opacity := overlay_opacity p; body_style := v;
     scrollY := scrollY p; innerWidth := innerWidth p;
     nav_offsetWidth := nav_offsetWidth p;
     activeElement := activeElement p; dispatched := dispatched p;
     warnings := warnings p;
     history := history p; uncaught := uncaught p |}.

Definition set_scrollY (v : Z) (p : Page) : Page :=
  {| els := els p; classes := classes p; aria := aria p;
     nav_transform := nav_transform p;
     overlay_opacity := overlay_opacity p; body_style := body_style p;
     scrollY := v; innerWidth := innerWidth p;
     nav_offsetWidth := nav_offsetWidth p;
     activeElement := activeElement p; dispatched := dispatched p;
     warnings := warnings p;
     history := history p; uncaught := uncaught p |}.

Definition set_innerWidth (v : Z) (p : Page) : Page :=
  {| els := els p; classes := classes p; aria := aria p;
     nav_transform := nav_transform p;
     overlay_opacity := overlay_opacity p; body_style := body_style p;
     scrollY := scrollY p; innerWidth := v;
     nav_offsetWidth := nav_offsetWidth p;
     activeElement := activeElement p; dispatched := dispatched p;
     warnings := warnings p;
     history := history p; uncaught := uncaught p |}.

Definition set_nav_offsetWidth (v : Z) (p : Page) : Page :=
  {| els := els p; classes := classes p; aria := aria p;
     nav_transform := nav_transform p;
     overlay_opacity := overlay_opacity p; body_style := body_style p;
     scrollY := scrollY p; innerWidth := innerWidth p;
     nav_offsetWidth := v; activeElement := activeElement p;
     dispatched := dispatched p; warnings := warnings p;
     history := history p; uncaught := uncaught p |}.

Definition focus (v : Focus) (p : Page) : Page :=
  {| els := els p; classes := classes p; aria := aria p;
     nav_transform := nav_transform p;
     overlay_opacity := overlay_opacity p; body_style := body_style p;
     scrollY := scrollY p; innerWidth := innerWidth p;
     nav_offsetWidth := nav_offsetWidth p; activeElement := v;
     dispatched := dispatched p; warnings := warnings p;
     history := history p; uncaught := uncaught p |}.

Definition dispatchEvent (v : string) (p : Page) : Page :=
  {| els := els p; classes := classes p; aria := aria p;
     nav_transform := nav_transform p;
     overlay_opacity := overlay_opacity p; body_style := body_style p;
     scrollY := scrollY p; innerWidth := innerWidth p;
     nav_offsetWidth := nav_offsetWidth p;
     activeElement := activeElement p; dispatched := v :: dispatched p;
     warnings := warnings p;
     history := history p; uncaught := uncaught p |}.

Definition console_warn (v : string) (p : Page) : Page :=
  {| els := els p; classes := classes p; aria := aria p;
     nav_transform := nav_transform p;
     overlay_opacity := overlay_opacity p; body_style := body_style p;
     scrollY := scrollY p; innerWidth := innerWidth p;
     nav_offsetWidth := nav_offsetWidth p;
     activeElement := activeElement p; dispatched := dispatched p;
     warnings := v :: warnings p;
     history := history p; uncaught := uncaught p |}.

Definition pushState (v : string) (p : Page) : Page :=
  {| els := els p; classes := classes p; aria := aria p;
     nav_transform := nav_transform p;
     overlay_opacity := overlay_opacity p; body_style := body_style p;
     scrollY := scrollY p; innerWidth := innerWidth p;
     nav_offsetWidth := nav_offsetWidth p;
     activeElement := activeElement p; dispatched := dispatched p;
     warnings := warnings p;
     history := v :: history p; uncaught := uncaught p |}.

Definition throw (v : string) (p : Page) : Page :=
  {| els := els p; classes := classes p; aria := aria p;
     nav_transform := nav_transform p;
     overlay_opacity := overlay_opacity p; body_style := body_style p;
     scrollY := scrollY p; innerWidth := innerWidth p;
     nav_offsetWidth := nav_offsetWidth p;
     activeElement := activeElement p; dispatched := dispatched p;
     warnings := warnings p;
     history := history p; uncaught := v :: uncaught p |}.

(** ** Scroll lock *)

(** [window.scrollTo(0, y)]: a [NaN] ordinate counts as 0 and the browser
    clamps the offset at the top of the document. *)
Definition scrollTo (y : option Z) (p : Page) : Page :=
  set_scrollY (Z.max 0 (JS.scroll_target y)) p.

Definition disableBodyScroll (p : Page) : Page :=
  let y := scrollY p in
  set_body_style
    {| position := "fixed";
       top := "-" ++ JS.show_Z y ++ "px";
       width := "100%";
       overflow := "hidden";
       touchAction := "none";
       webkitOverflowScrolling := "none" |} p.

Definition enableBodyScroll (p : Page) : Page :=
  let t := top (body_style p) in
  let y := option_map (fun v => v * -1)
                      (JS.parseInt (if String.eqb t "" then "0" else t)) in
  scrollTo y (set_body_style no_style p).

(** ** Opening and closing *)

(** The overlay lookup shared by the handlers: a missing overlay is
    created with [aria-hidden="true"] and appended to the body. *)
Definition ensureOverlay (p : Page) : Page :=
  if has_overlay (els p) then p
  else
    set_aria {| toggle_aria_expanded := toggle_aria_expanded (aria p);
                toggle_aria_label := toggle_aria_label (aria p);
                nav_aria_hidden := nav_aria_hidden (aria p);
                overlay_aria_hidden := Some "true" |}
      (set_classes {| toggle_active := toggle_active (classes p);
                      overlay_active := false;
                      nav_active := nav_active (classes p);
                      body_menu_open := body_menu_open (classes p) |}
         (set_els {| has_toggle := has_toggle (els p);
                     has_nav := has_nav (els p);
                     has_overlay := true;
                     has_closeBtn := has_closeBtn (els p);
                     links := links (els p);
                     header_offsetHeight := header_offsetHeight (els p);
                     querySelector := querySelector (els p) |} p)).

(** [el.classList.add/remove('active')] on the three elements that exist
    and [menu-open] on the body. *)
Definition mark_active (b : bool) (p : Page) : Page :=
  let e := els p in
  let c := classes p in
  set_classes
    {| toggle_active := if has_toggle e then b else toggle_active c;
       overlay_active := if has_overlay e then b else overlay_active c;
       nav_active := if has_nav e then b else nav_active c;
       body_menu_open := b |} p.

Definition label_close : string := "Закрыть меню навигации".
Definition label_open : string := "Открыть меню навигации".

Definition mark_aria (opened : bool) (p : Page) : Page :=
  let e := els p in
  let a := aria p in
  set_aria
    {| toggle_aria_expanded :=
         if has_toggle e then Some (if opened then "true" else "false")
         else toggle_aria_expanded a;
       toggle_aria_label :=
         if has_toggle e then Some (if opened then label_close else label_open)
         else toggle_aria_label a;
       nav_aria_hidden :=
         if has_nav e then Some (if opened then "false" else "true")
         else nav_aria_hidden a;
       overlay_aria_hidden := overlay_aria_hidden a |} p.

(** The callback of the [MutationObserver] that [enhanceAccessibility]
    puts on the panel, for a change of the panel's class. *)
Definition ariaObserver (p : Page) : Page :=
  let e := els p in
  let a := aria p in
  let isOpen := nav_active (classes p) in
  set_aria
    {| toggle_aria_expanded :=
         if has_toggle e then Some (if isOpen then "true" else "false")
         else toggle_aria_expanded a;
       toggle_aria_label :=
         if has_toggle e then Some (if isOpen then label_close else label_open)
         else toggle_aria_label a;
       nav_aria_hidden := Some (if isOpen then "false" else "true");
       overlay_aria_hidden := overlay_aria_hidden a |} p.

Definition openMobileMenu (w : World) : World :=
  if (isOpen (mm w) || isAnimating (mm w))%bool then w
  else
    let w := set_mm (fun m =>
               {| isOpen := true; isAnimating := true;
                  touchStartX := touchStartX m; touchStartY := touchStartY m;
                  touchStartTime := touchStartTime m;
                  swipeThreshold := swipeThreshold m;
                  menuWidth := menuWidth m;
                  lastScrollPosition := lastScrollPosition m |}) w in
    let w := set_page ensureOverlay w in
    let w := set_mm (fun m =>
               {| isOpen := isOpen m; isAnimating := isAnimating m;
                  touchStartX := touchStartX m; touchStartY := touchStartY m;
                  touchStartTime := touchStartTime m;
                  swipeThreshold := swipeThreshold m;
                  menuWidth := menuWidth m;
                  lastScrollPosition := scrollY (page w) |}) w in
    let w := set_page (mark_active true) w in
    let w := set_page (mark_aria true) w in
    let w := set_page disableBodyScroll w in
    let w := set_page (dispatchEvent "mobilemenu:open") w in
    setTimeout OpenDone 350 w.

Definition closeMobileMenu (w : World) : World :=
  if (negb (isOpen (mm w)) || isAnimating (mm w))%bool then w
  else
    let w := set_mm (fun m =>
               {| isOpen := isOpen m; isAnimating := true;
                  touchStartX := touchStartX m; touchStartY := touchStartY m;
                  touchStartTime := touchStartTime m;
                  swipeThreshold := swipeThreshold m;
                  menuWidth := menuWidth m;
                  lastScrollPosition := lastScrollPosition m |}) w in
    let w := set_page ensureOverlay w in
    let w := set_page (mark_active false) w in
    let w := set_page (mark_aria false) w in
    let w := set_page enableBodyScroll w in
    let w := set_page (dispatchEvent "mobilemenu:close") w in
    setTimeout (CloseDone (has_toggle (els (page w)))) 350 w.


(** ** Timer callbacks *)

Definition set_flags (o a : bool) (m : MobileMenuState) : MobileMenuState :=
  {| isOpen := o; isAnimating := a;
     touchStartX := touchStartX m; touchStartY := touchStartY m;
     touchStartTime := touchStartTime m;
     swipeThreshold := swipeThreshold m;
     menuWidth := menuWidth m;
     lastScrollPosition := lastScrollPosition m |}.

Definition set_lastScrollPosition (y : Z) (m : MobileMenuState) : MobileMenuState :=
  {| isOpen := isOpen m; isAnimating := isAnimating m;
     touchStartX := touchStartX m; touchStartY := touchStartY m;
     touchStartTime := touchStartTime m;
     swipeThreshold := swipeThreshold m;
     menuWidth := menuWidth m;
     lastScrollPosition := y |}.

Definition set_scroll_pending (b : bool) (w : World) : World :=
  {| mm := mm w; page := page w; now := now w; timers := timers w;
     scroll_pending := b;
     core_listeners := core_listeners w;
     outside_listeners := outside_listeners w |}.

Definition set_now (t : Z) (w : World) : World :=
  {| mm := mm w; page := page w; now := t; timers := timers w;
     scroll_pending := scroll_pending w;
     core_listeners := core_listeners w;
     outside_listeners := outside_listeners w |}.

Definition fire (k : Timer) (w : World) : World :=
  match k with
  | OpenDone =>
      let w := if has_closeBtn (els (page w))
               then set_page (focus FCloseBtn) w else w in
      set_mm (fun m => set_flags (isOpen m) false m) w
  | CloseDone toggle =>
      let w := if toggle then set_page (focus FToggle) w else w in
      set_mm (set_flags false false) w
  | ToggleFocus =>
      if isOpen (mm w) then
        if has_closeBtn (els (page w))
        then set_page (focus FCloseBtn) w else w
      else set_page (focus FToggle) w
  | ScrollSample =>
      set_scroll_pending false
        (set_mm (set_lastScrollPosition (scrollY (page w))) w)
  | EnhanceAccessibility => set_page (mark_aria false) w
  | AnchorScroll href =>
      match querySelector (els (page w)) href with
      | BadSelector => set_page (throw "SyntaxError") w
      | NoTarget => w
      | TargetAt top =>
          let headerHeight :=
            match header_offsetHeight (els (page w)) with
            | Some h => h
            | None => 80
            end in
          let offset := if innerWidth (page w) <? 768
                        then headerHeight - 10 else headerHeight in
          let targetPosition := top - offset in
          set_page (fun p => pushState href (scrollTo (Some targetPosition) p)) w
      end
  end.

(** Run, in deadline order, every pending timeout due by [target]. *)
Fixpoint run_due (target : Z) (q : list (Z * Timer)) (w : World) : World :=
  match q with
  | [] => set_timers [] w
  | (d, k) :: q' =>
      if d <=? target
      then run_due target q' (fire k (set_now (Z.max (now w) d) (set_timers q' w)))
      else set_timers q w
  end.

(** [ms] milliseconds pass with no other event. *)
Definition elapse (ms : Z) (w : World) : World :=
  let target := now w + Z.max 0 ms in
  set_now target (run_due target (timers w) w).

(** ** Event handlers *)

Definition toggleClickHandler (w : World) : World :=
  if isAnimating (mm w) then w
  else if isOpen (mm w) then closeMobileMenu w
  else openMobileMenu w.

(** The second click listener on the toggle (focus management). *)
Definition toggleFocusHandler (w : World) : World :=
  setTimeout ToggleFocus 100 w.

Definition overlayClickHandler (w : World) : World :=
  if isOpen (mm w) then closeMobileMenu w else w.

Definition closeBtnClickHandler (w : World) : World := closeMobileMenu w.

(** [href.startsWith('#')] *)
Definition starts_with_hash (href : string) : bool :=
  match href with
  | String c _ => Ascii.eqb c "#"
  | EmptyString => false
  end.

Definition handleAnchorLinkClick (href : string) (w : World) : World :=
  setTimeout (AnchorScroll href) 400 (closeMobileMenu w).

(** The click listener of a drawer link; [href] is its attribute. *)
Definition linkClickHandler (href : option string) (w : World) : World :=
  match href with
  | Some h =>
      if starts_with_hash h then handleAnchorLinkClick h w
      else closeMobileMenu w
  | None => closeMobileMenu w
  end.

Definition escapeKeyHandler (key : string) (w : World) : World :=
  if (String.eqb key "Escape" && isOpen (mm w))%bool
  then closeMobileMenu w else w.

Definition navTouchStart (x y : Z) (w : World) : World :=
  set_mm (fun m =>
    {| isOpen := isOpen m; isAnimating := isAnimating m;
       touchStartX := x; touchStartY := y;
       touchStartTime := Some (now w);
       swipeThreshold := swipeThreshold m;
       menuWidth := menuWidth m;
       lastScrollPosition := lastScrollPosition m |}) w.

Definition swipeProgress (deltaX menuWidth : Z) : Progress :=
  if ((0 <=? menuWidth) && (menuWidth <=? deltaX))%bool
  then Full else Fraction deltaX menuWidth.

(** [1 - swipeProgress * 0.7], as an exact fraction. *)
Definition fade (pr : Progress) : Progress :=
  match pr with
  | Full => Fraction 3 10
  | Fraction num den => Fraction (10 * den - 7 * num) (10 * den)
  end.

Definition navTouchMove (x y : Z) (w : World) : World :=
  if (negb (isOpen (mm w)) || isAnimating (mm w))%bool then w
  else
    let deltaX := x - touchStartX (mm w) in
    let deltaY := Z.abs (y - touchStartY (mm w)) in
    if ((deltaY <? Z.abs deltaX) && (0 <? deltaX))%bool then
      let pr := swipeProgress deltaX (menuWidth (mm w)) in
      set_page (fun p => set_overlay_opacity (Some (fade pr))
                           (set_nav_transform (Some pr) p)) w
    else w.

(** [deltaX / deltaTime > 0.3] on exact quotients; a zero [deltaTime]
    gives an infinite quotient (or [NaN] when [deltaX] is 0 too), an
    undefined [touchStartTime] gives [NaN]. *)
Definition velocity_exceeds (deltaX : Z) (deltaTime : option Z) : bool :=
  match deltaTime with
  | None => false
  | Some dt =>
      if dt =? 0 then 0 <? deltaX
      else if 0 <? dt then 3 * dt <? 10 * deltaX
      else 10 * deltaX <? 3 * dt
  end.

Definition navTouchEnd (x : Z) (w : World) : World :=
  if (negb (isOpen (mm w)) || isAnimating (mm w))%bool then w
  else
    let deltaX := x - touchStartX (mm w) in
    let deltaTime := option_map (fun t0 => now w - t0) (touchStartTime (mm w)) in
    let fast := velocity_exceeds deltaX deltaTime in
    let w := set_page (set_nav_transform None) w in
    if ((swipeThreshold (mm w) <? deltaX) || fast)%bool
    then closeMobileMenu w else w.

Definition overlayTouchStart (x y : Z) (w : World) : World :=
  set_mm (fun m =>
    {| isOpen := isOpen m; isAnimating := isAnimating m;
       touchStartX := x; touchStartY := y;
       touchStartTime := touchStartTime m;
       swipeThreshold := swipeThreshold m;
       menuWidth := menuWidth m;
       lastScrollPosition := lastScrollPosition m |}) w.

Definition overlayTouchEnd (x : Z) (w : World) : World :=
  if swipeThreshold (mm w) <? x - touchStartX (mm w)
  then closeMobileMenu w else w.

Definition handleMenuResize (w : World) : World :=
  let w := if has_nav (els (page w))
           then set_mm (fun m =>
                  {| isOpen := isOpen m; isAnimating := isAnimating m;
                     touchStartX := touchStartX m; touchStartY := touchStartY m;
                     touchStartTime := touchStartTime m;
                     swipeThreshold := swipeThreshold m;
                     menuWidth := nav_offsetWidth (page w);
                     lastScrollPosition := lastScrollPosition m |}) w
           else w in
  if ((768 <? innerWidth (page w)) && isOpen (mm w))%bool
  then closeMobileMenu w else w.

(** A click that lands outside both the panel and the toggle. *)
Definition handleOutsideClick (w : World) : World :=
  if (isOpen (mm w) && has_nav (els (page w)) && has_toggle (els (page w)))%bool
  then closeMobileMenu w else w.


(** ** Handlers that dereference an element *)

(** Outcome of running a listener: the next state, or an uncaught
    [TypeError] from a property access on [null] or [undefined]. *)
Inductive Result :=
| Ok (w : World)
| TypeError (what : string).

Definition bind (r : Result) (k : World -> Result) : Result :=
  match r with
  | Ok w => k w
  | TypeError e => TypeError e
  end.

Definition lift (h : World -> World) : World -> Result :=
  fun w => Ok (h w).

(** The same listener registered [n] times. *)
Fixpoint each (n : nat) (h : World -> Result) (w : World) : Result :=
  match n with
  | O => Ok w
  | S n' => bind (h w) (each n' h)
  end.

(** The focus trap of [setupKeyboardNavigation]: [firstElement] is the
    first drawer link, [lastElement] the close button found at wiring
    time. *)
Definition focusTrapHandler (key : string) (shift : bool) (w : World) : Result :=
  if negb (isOpen (mm w)) then Ok w
  else if negb (String.eqb key "Tab") then Ok w
  else
    let e := els (page w) in
    let active := activeElement (page w) in
    if shift then
      if ((0 <? links e)%nat && focus_eqb active (FLink 0))%bool then
        if has_closeBtn e then Ok (set_page (focus FCloseBtn) w)
        else TypeError "lastElement is null"
      else Ok w
    else
      if (has_closeBtn e && focus_eqb active FCloseBtn)%bool then
        if (0 <? links e)%nat then Ok (set_page (focus (FLink 0)) w)
        else TypeError "firstElement is undefined"
      else Ok w.

(** ** Initialisation *)

(** One more wiring.  The listeners created inside the setup functions are
    fresh closures, so a second run of [initMobileMenu] doubles them;
    [handleOutsideClick] and [handleMenuResize] are named functions, which
    the browser registers once however often they are added. *)
Definition add_listeners (outside : bool) (w : World) : World :=
  {| mm := mm w; page := page w; now := now w; timers := timers w;
     scroll_pending := scroll_pending w;
     core_listeners := S (core_listeners w);
     outside_listeners :=
       if outside then 1%nat else outside_listeners w |}.

Definition initMobileMenu (w : World) : World :=
  let w := set_page ensureOverlay w in
  let e := els (page w) in
  if (negb (has_toggle e) || negb (has_nav e))%bool then
    set_page (console_warn "Mobile menu elements not found") w
  else
    let width := nav_offsetWidth (page w) in
    let w := set_mm (fun m =>
               {| isOpen := isOpen m; isAnimating := isAnimating m;
                  touchStartX := touchStartX m; touchStartY := touchStartY m;
                  touchStartTime := touchStartTime m;
                  swipeThreshold := swipeThreshold m;
                  menuWidth := if width =? 0 then 300 else width;
                  lastScrollPosition := lastScrollPosition m |}) w in
    add_listeners (768 <? innerWidth (page w)) w.

(** ** Events *)

Inductive Event :=
| Init                             (* a scheduled initMobileMenu call *)
| ToggleClick
| OverlayClick
| CloseBtnClick
| LinkClick (href : option string)   (* a drawer link, with its href *)
| KeyDown (key : string) (shift : bool)
| OutsideClick
| NavTouchStart (x y : Z)
| NavTouchMove (x y : Z)
| NavTouchEnd (x : Z)
| OverlayTouchStart (x y : Z)
| OverlayTouchEnd (x : Z)
| Resize (width navWidth : Z)
| ResizeSettled                    (* the debounced resize listener *)
| Scroll (y : Z)
| FocusMoved (f : Focus)
| Elapse (ms : Z)
| ApiOpen                          (* window.mobileMenu.open() *)
| ApiClose                         (* window.mobileMenu.close() *)
| ApiToggle.                       (* window.mobileMenu.toggle() *)

Definition apiToggle (w : World) : World :=
  if isOpen (mm w) then closeMobileMenu w else openMobileMenu w.

(** [window.mobileMenu.isOpen()] *)
Definition apiIsOpen (w : World) : bool := isOpen (mm w).

(** [window.mobileMenu.isAnimating()] *)
Definition apiIsAnimating (w : World) : bool := isAnimating (mm w).

Definition scrollListener (y : Z) (w : World) : World :=
  let w := set_page (set_scrollY y) w in
  if scroll_pending w then w
  else set_scroll_pending true (setTimeout ScrollSample 100 w).

(** Deliver one event to every listener registered for it.  Events on an
    element that is not in the document cannot occur and leave the state
    as it is. *)
Definition dispatch (ev : Event) (w : World) : Result :=
  let e := els (page w) in
  let n := core_listeners w in
  match ev with
  | Init => Ok (initMobileMenu w)
  | ToggleClick =>
      if has_toggle e
      then each n (fun w => Ok (toggleFocusHandler (toggleClickHandler w))) w
      else Ok w
  | OverlayClick =>
      if has_overlay e
      then bind (each n (lift overlayClickHandler) w)
                (each (outside_listeners w) (lift handleOutsideClick))
      else Ok w
  | CloseBtnClick =>
      if has_closeBtn e then each n (lift closeBtnClickHandler) w else Ok w
  | LinkClick href =>
      if (0 <? links e)%nat then each n (lift (linkClickHandler href)) w
      else Ok w
  | KeyDown key shift =>
      each n (fun w => focusTrapHandler key shift (escapeKeyHandler key w)) w
  | OutsideClick => each (outside_listeners w) (lift handleOutsideClick) w
  | NavTouchStart x y =>
      if has_nav e then each n (lift (navTouchStart x y)) w else Ok w
  | NavTouchMove x y =>
      if has_nav e then each n (lift (navTouchMove x y)) w else Ok w
  | NavTouchEnd x =>
      if has_nav e then each n (lift (navTouchEnd x)) w else Ok w
  | OverlayTouchStart x y =>
      if has_overlay e then each n (lift (overlayTouchStart x y)) w else Ok w
  | OverlayTouchEnd x =>
      if has_overlay e then each n (lift (overlayTouchEnd x)) w else Ok w
  | Resize width navWidth =>
      each (Nat.min 1 n) (lift handleMenuResize)
           (set_page (fun p => set_nav_offsetWidth navWidth
                                 (set_innerWidth width p)) w)
  | ResizeSettled => Ok (handleMenuResize w)
  | Scroll y => Ok (scrollListener y w)
  | FocusMoved f => Ok (set_page (focus f) w)
  | Elapse ms => Ok (elapse ms w)
  | ApiOpen => Ok (openMobileMenu w)
  | ApiClose => Ok (closeMobileMenu w)
  | ApiToggle => Ok (apiToggle w)
  end.

(** A whole trace, up to the first uncaught error. *)
Fixpoint run (evs : list Event) (w : World) : Result :=
  match evs with
  | [] => Ok w
  | ev :: rest => bind (dispatch ev w) (run rest)
  end.

(** The state once the script has been evaluated, for a given markup and
    viewport: [enhanceAccessibility] is due 500 ms later. *)
Definition initial_page (e : Elements) (w nw y : Z) : Page :=
  {| els := e;
     classes := {| toggle_active := false; overlay_active := false;
                   nav_active := false; body_menu_open := false |};
     aria := {| toggle_aria_expanded := None; toggle_aria_label := None;
                nav_aria_hidden := None; overlay_aria_hidden := None |};
     nav_transform := None; overlay_opacity := None;
     body_style := no_style;
     scrollY := y; innerWidth := w; nav_offsetWidth := nw;
     activeElement := FBody; dispatched := []; warnings := [];
     history := []; uncaught := [] |}.

Definition page_load (e : Elements) (w nw y : Z) : World :=
  {| mm := MobileMenu; page := initial_page e w nw y; now := 0;
     timers := [(500, EnhanceAccessibility)]; scroll_pending := false;
     core_listeners := 0; outside_listeners := 0 |}.

End Drawer.

(* ================================================================== *)
(** * Fetching: the [carAPI] client shared by the fleet manager *)

Module Api.

(** What [fetch] settles to: a network failure, or a response with its
    [ok] flag and its body parsed as JSON when it parses. *)
Inductive FetchOutcome (A : Type) :=
| NetworkError
| Http (ok : bool) (body : option A).
Arguments NetworkError {A}.
Arguments Http {A} ok body.

(** How an awaited promise settles. *)
Inductive Settled (A : Type) :=
| Resolved (a : A)
| Rejected.
Arguments Resolved {A} a.
Arguments Rejected {A}.

(** [getJson]: throws on a response that is not [ok]; [res.json()]
    rejects on a body that does not parse. *)
Definition getJson {A} (o : FetchOutcome A) : Settled A :=
  match o with
  | NetworkError => Rejected
  | Http ok body =>
      if ok then match body with Some a => Resolved a | None => Rejected end
      else Rejected
  end.

(** The request failed: no response, a status outside 2xx, or a body
    that is not JSON. *)
Definition failed {A} (o : FetchOutcome A) : bool :=
  match o with
  | NetworkError => true
  | Http ok body =>
      negb ok || match body with Some _ => false | None => true end
  end.

End Api.

(* ================================================================== *)
(** * The fleet manager *)

Module Fleet.
Import Api.

(** [FleetManager] with each [async] method cut at its [await]: the part
    before it starts a call, the part after it runs when the call
    settles.  The grid markup is kept literal for the messages and
    structured for the cards. *)

Inductive CategoryId :=
| All                   (* 'all' *)
| Cat (id : Z).

Record Category := mkCategory {
  cat_id : Z;
  name : string;
  slug : string;
  icon : string
}.

Record Car := mkCar {
  id : Z;
  brand : string;
  model : string;
  category_id : Z
}.

(** The JSON payload of [/api/cars]. *)
Inductive Payload :=
| PArray (cars : list Car)
| PNotArray.

Definition dq : string := String (ascii_of_nat 34) EmptyString.

(** [carsGrid.innerHTML]: literal markup, or the cards built from a car
    list by [createCarCard]. *)
Inductive Markup :=
| Html (s : string)
| Cards (cars : list Car) (cats : list Category).

Definition skeleton : Markup :=
  let one := "<div class=" ++ dq ++ "skeleton" ++ dq ++ ">Загрузка...</div>" in
  Html (one ++ one ++ one ++ one).

Definition createNoCarsMessage : string :=
  "<div class=" ++ dq ++ "no-cars" ++ dq ++ ">Автомобили не найдены</div>".

Definition errorMarkup (msg : string) : Markup :=
  Html ("<div class=" ++ dq ++ "error" ++ dq ++ ">" ++ msg ++ "</div>").

Definition getMockCategories : list Category :=
  [ {| cat_id := 1; name := "Эконом"; slug := "economy"; icon := "💰" |};
    {| cat_id := 2; name := "Комфорт"; slug := "comfort"; icon := "🚗" |};
    {| cat_id := 5; name := "SUV"; slug := "suv"; icon := "🚙" |} ].

Definition getCarsFromBotDatabase : list Car := [].

(** A [fetchCars] call suspended at its [await]. *)
Record Pending := mkPending {
  req : nat;              (* names the suspended call, by order of issue;
                           the script itself keeps no such number *)
  wanted : CategoryId;
  remote : bool           (* awaiting carAPI.getCars, else the 400 ms stub *)
}.

Record FleetManager := mkFleet {
  has_getCars : bool;           (* window.carAPI?.getCars *)
  has_getCategories : bool;     (* window.carAPI?.getCategories *)
  currentCategoryId : CategoryId;
  cars : list Car;
  categories : list Category;
  isLoading : bool;
  carsGrid : Markup;
  errors : list string;         (* console.error, newest first *)
  inflight : list Pending;
  issued : nat                  (* calls of fetchCars so far *)
}.

Definition constructor (getCars getCategories : bool) (grid : Markup) : FleetManager :=
  {| has_getCars := getCars; has_getCategories := getCategories;
     currentCategoryId := All; cars := []; categories := [];
     isLoading := false; carsGrid := grid; errors := [];
     inflight := []; issued := 0 |}.

Definition set_grid (g : Markup) (f : FleetManager) : FleetManager :=
  {| has_getCars := has_getCars f; has_getCategories := has_getCategories f;
     currentCategoryId := currentCategoryId f; cars := cars f;
     categories := categories f; isLoading := isLoading f;
     carsGrid := g; errors := errors f;
     inflight := inflight f; issued := issued f |}.

Definition set_cars (c : list Car) (f : FleetManager) : FleetManager :=
  {| has_getCars := has_getCars f; has_getCategories := has_getCategories f;
     currentCategoryId := currentCategoryId f; cars := c;
     categories := categories f; isLoading := isLoading f;
     carsGrid := carsGrid f; errors := errors f;
     inflight := inflight f; issued := issued f |}.

Definition set_categories (c : list Category) (f : FleetManager) : FleetManager :=
  {| has_getCars := has_getCars f; has_getCategories := has_getCategories f;
     currentCategoryId := currentCategoryId f; cars := cars f;
     categories := c; isLoading := isLoading f;
     carsGrid := carsGrid f; errors := errors f;
     inflight := inflight f; issued := issued f |}.

Definition set_isLoading (b : bool) (f : FleetManager) : FleetManager :=
  {| has_getCars := has_getCars f; has_getCategories := has_getCategories f;
     currentCategoryId := currentCategoryId f; cars := cars f;
     categories := categories f; isLoading := b;
     carsGrid := carsGrid f; errors := errors f;
     inflight := inflight f; issued := issued f |}.

Definition set_current (c : CategoryId) (f : FleetManager) : FleetManager :=
  {| has_getCars := has_getCars f; has_getCategories := has_getCategories f;
     currentCategoryId := c; cars := cars f;
     categories := categories f; isLoading := isLoading f;
     carsGrid := carsGrid f; errors := errors f;
     inflight := inflight f; issued := issued f |}.

Definition console_error (e : string) (f : FleetManager) : FleetManager :=
  {| has_getCars := has_getCars f; has_getCategories := has_getCategories f;
     currentCategoryId := currentCategoryId f; cars := cars f;
     categories := categories f; isLoading := isLoading f;
     carsGrid := carsGrid f; errors := e :: errors f;
     inflight := inflight f; issued := issued f |}.

Definition set_inflight (l : list Pending) (n : nat) (f : FleetManager) : FleetManager :=
  {| has_getCars := has_getCars f; has_getCategories := has_getCategories f;
     currentCategoryId := currentCategoryId f; cars := cars f;
     categories := categories f; isLoading := isLoading f;
     carsGrid := carsGrid f; errors := errors f;
     inflight := l; issued := n |}.


(** ** Rendering *)

Definition showSkeleton (f : FleetManager) : FleetManager :=
  set_grid skeleton f.

Definition showError (msg : string) (f : FleetManager) : FleetManager :=
  set_grid (errorMarkup msg) f.

Definition renderCars (f : FleetManager) : FleetManager :=
  match cars f with
  | [] => set_grid (Html createNoCarsMessage) f
  | _ :: _ => set_grid (Cards (cars f) (categories f)) f
  end.

(** ** Loading *)

Definition loadCategories (o : FetchOutcome (list Category))
           (f : FleetManager) : FleetManager :=
  if has_getCategories f then
    match getJson o with
    | Resolved c => set_categories c f
    | Rejected => set_categories getMockCategories f
    end
  else set_categories getMockCategories f.

(** [fetchCars] up to its [await]: the busy flag is raised and the
    request (or the 400 ms stub) is started. *)
Definition fetchCars_begin (categoryId : CategoryId) (f : FleetManager) : FleetManager :=
  let f := set_isLoading true f in
  set_inflight
    ({| req := issued f; wanted := categoryId; remote := has_getCars f |}
       :: inflight f)
    (S (issued f)) f.

Definition find_pending (r : nat) (l : list Pending) : option Pending :=
  find (fun p => Nat.eqb (req p) r) l.

Definition drop_pending (r : nat) (l : list Pending) : list Pending :=
  filter (fun p => negb (Nat.eqb (req p) r)) l.

Definition local_cars (categoryId : CategoryId) : list Car :=
  match categoryId with
  | All => getCarsFromBotDatabase
  | Cat n => filter (fun c => category_id c =? n) getCarsFromBotDatabase
  end.

Definition error_fetchCars : string := "Не удалось загрузить автомобили".

(** [fetchCars] from its [await] to the end, once call [r] settles. *)
Definition fetchCars_resume (r : nat) (s : Settled Payload)
           (f : FleetManager) : FleetManager :=
  match find_pending r (inflight f) with
  | None => f
  | Some p =>
      let f := set_inflight (drop_pending r (inflight f)) (issued f) f in
      let settled := if remote p then s
                     else Resolved (PArray (local_cars (wanted p))) in
      let f :=
        match settled with
        | Resolved payload =>
            let cs := match payload with PArray cs => cs | PNotArray => [] end in
            renderCars (set_cars cs f)
        | Rejected =>
            showError error_fetchCars (console_error "fetchCars error" f)
        end in
      set_isLoading false f
  end.

Definition loadAllCars (f : FleetManager) : FleetManager :=
  fetchCars_begin All (showSkeleton f).

Definition onFilterClick (id : CategoryId) (f : FleetManager) : FleetManager :=
  if isLoading f then f
  else fetchCars_begin id (showSkeleton (set_current id f)).

(** [init] once the categories request has settled (the grid exists). *)
Definition init (o : FetchOutcome (list Category)) (f : FleetManager) : FleetManager :=
  loadAllCars (loadCategories o f).

(** ** Events *)

Inductive Event :=
| Click (id : CategoryId)                        (* a filter button *)
| Respond (r : nat) (o : FetchOutcome Payload)   (* call r settles *)
| CallFetchCars (id : CategoryId).               (* fleetManager.fetchCars(id) *)

Definition step (ev : Event) (f : FleetManager) : FleetManager :=
  match ev with
  | Click id => onFilterClick id f
  | Respond r o => fetchCars_resume r (getJson o) f
  | CallFetchCars id => fetchCars_begin id f
  end.

Definition run (evs : list Event) (f : FleetManager) : FleetManager :=
  fold_left (fun f ev => step ev f) evs f.

(** Events the page itself can produce. *)
Definition from_ui (ev : Event) : bool :=
  match ev with
  | CallFetchCars _ => false
  | _ => true
  end.

End Fleet.

(* ================================================================== *)
(** * The language switcher *)

Module Lang.
Import Api.

(** [get] and [applyTranslations] over parsed JSON and the document as a
    tree.  Property access finds what a value holds itself (fields of an
    object, elements and [length] of an array, code units and [length] of
    a string) and otherwise what its prototype chain gives; the standard
    library is no part of the repository, so that second part is the
    parameter [inherited]; a getter on the chain may throw.  A character
    of a string stands for one code unit. *)

(** Values reachable from a parsed locale file, [undefined], and the
    functions and objects of the standard library that the prototype
    chain leads to. *)
#[local] Unset Elimination Schemes.
Inductive JValue :=
| JUndefined
| JNull
| JBool (b : bool)
| JNum (z : Z)
| JStr (s : string)
| JArr (items : list JValue)
| JObj (fields : list (string * JValue))
| JNative (name : string).
#[local] Set Elimination Schemes.

Definition truthy (v : JValue) : bool :=
  match v with
  | JUndefined | JNull => false
  | JBool b => b
  | JNum z => negb (z =? 0)
  | JStr s => negb (String.eqb s "")
  | JArr _ | JObj _ | JNative _ => true
  end.

Definition is_string (v : JValue) : bool :=
  match v with JStr _ => true | _ => false end.

Definition is_undefined (v : JValue) : bool :=
  match v with JUndefined => true | _ => false end.

Fixpoint assoc (key : string) (fields : list (string * JValue)) : option JValue :=
  match fields with
  | [] => None
  | (k, v) :: rest => if String.eqb k key then Some v else assoc key rest
  end.

(** A property name that is an array index: the canonical decimal form
    of a number. *)
Definition array_index (key : string) : option nat :=
  if JS.starts_with_digit JS.digit_of key then
    let n := JS.parse_digits JS.digit_of 10 key 0 in
    if String.eqb (JS.show_N n) key then Some (N.to_nat n) else None
  else None.

(** The own property [key] of [v], when it has one. *)
Definition own (v : JValue) (key : string) : option JValue :=
  match v with
  | JObj fields => assoc key fields
  | JArr items =>
      if String.eqb key "length" then Some (JNum (Z.of_nat (List.length items)))
      else match array_index key with
           | Some i => nth_error items i
           | None => None
           end
  | JStr s =>
      if String.eqb key "length" then Some (JNum (Z.of_nat (String.length s)))
      else match array_index key with
           | Some i => match String.get i s with
                       | Some c => Some (JStr (String c EmptyString))
                       | None => None
                       end
           | None => None
           end
  | _ => None
  end.

(** [path.split('.')] *)
Fixpoint split_dots (path : string) (cur : string) : list string :=
  match path with
  | EmptyString => [cur]
  | String c rest =>
      if Ascii.eqb c "." then cur :: split_dots rest ""
      else split_dots rest (cur ++ String c EmptyString)
  end.

(** ** The document *)

(** The attributes and classes the script reads or writes. *)
Record Attrs := mkAttrs {
  data_i18n : option string;
  data_i18n_placeholder : option string;
  placeholder : option string;
  lang_btn : bool;                          (* class lang-btn *)
  data_lang : option string;
  active : bool                             (* class active *)
}.

(** A node of the document: a text node, an element with its children,
    or a <title> element, whose content is text. *)
#[local] Unset Elimination Schemes.
Inductive Node :=
| Text (data : string)
| Elem (a : Attrs) (children : list Node)
| Title (a : Attrs) (text : string).
#[local] Set Elimination Schemes.

Record Document := mkDocument {
  root : Node;                              (* document.documentElement *)
  html_lang : option string
}.

Record State := mkState {
  dictionary : option JValue;               (* null until a locale loads *)
  currentLang : string;
  stored : option string;                   (* localStorage "lang" *)
  doc : Document;
  log_errors : list string
}.

Definition DEFAULT_LANG : string := "ru".

(** Every node of a subtree, in tree order. *)
Fixpoint nodes (n : Node) : list Node :=
  n :: match n with
       | Elem _ children => flat_map nodes children
       | _ => []
       end.

(** The getter of [textContent]. *)
Fixpoint textContent (n : Node) : string :=
  match n with
  | Text s => s
  | Elem _ children => String.concat "" (map textContent children)
  | Title _ s => s
  end.

(** What the setter of [textContent] leaves as children. *)
Definition text_children (val : string) : list Node :=
  if String.eqb val "" then [] else [Text val].

Definition attrs (n : Node) : option Attrs :=
  match n with
  | Text _ => None
  | Elem a _ | Title a _ => Some a
  end.

(** An attribute or class update on every element. *)
Fixpoint map_attrs (f : Attrs -> Attrs) (n : Node) : Node :=
  match n with
  | Text s => Text s
  | Elem a children => Elem (f a) (map (map_attrs f) children)
  | Title a s => Title (f a) s
  end.

Definition set_placeholder (s : string) (a : Attrs) : Attrs :=
  {| data_i18n := data_i18n a;
     data_i18n_placeholder := data_i18n_placeholder a;
     placeholder := Some s;
     lang_btn := lang_btn a; data_lang := data_lang a; active := active a |}.

Definition set_active (b : bool) (a : Attrs) : Attrs :=
  {| data_i18n := data_i18n a;
     data_i18n_placeholder := data_i18n_placeholder a;
     placeholder := placeholder a;
     lang_btn := lang_btn a; data_lang := data_lang a; active := b |}.

Section FirstInTreeOrder.
Context {A B : Type}.

(** The first result that [f] gives along a list. *)
Fixpoint find_first (f : A -> option B) (l : list A) : option B :=
  match l with
  | [] => None
  | c :: rest =>
      match f c with
      | Some b => Some b
      | None => find_first f rest
      end
  end.

(** The list with the first element that [g] rewrites rewritten. *)
Fixpoint replace_first (g : A -> option A) (l : list A) : option (list A) :=
  match l with
  | [] => None
  | c :: rest =>
      match g c with
      | Some c' => Some (c' :: rest)
      | None => option_map (cons c) (replace_first g rest)
      end
  end.

End FirstInTreeOrder.

(** [document.querySelector('title[data-i18n]')], as the key it carries:
    the first <title> in tree order that has the attribute. *)
Fixpoint title_key (n : Node) : option string :=
  match n with
  | Text _ => None
  | Title a _ => data_i18n a
  | Elem _ children => find_first title_key children
  end.

(** The subtree with the text of its first <title> replaced, when it has
    one. *)
Fixpoint set_title (val : string) (n : Node) : option Node :=
  match n with
  | Text _ => None
  | Title a _ => Some (Title a val)
  | Elem a children =>
      option_map (Elem a) (replace_first (set_title val) children)
  end.

(** [document.title = val]: the text of the first <title> of the
    document.  (Without one the browser would add a <title>; the script
    only assigns after it has found a <title> in the document.) *)
Definition set_document_title (val : string) (n : Node) : Node :=
  match set_title val n with
  | Some n' => n'
  | None => n
  end.

Definition opt_eqb (a : option string) (b : string) : bool :=
  match a with Some x => String.eqb x b | None => false end.

(** The body of [setActiveButton]'s loop, for an element that matches
    [.lang-btn]. *)
Definition mark_button (lang : string) (a : Attrs) : Attrs :=
  if lang_btn a then set_active (opt_eqb (data_lang a) lang) a else a.

Definition setActiveButton (lang : string) (d : Document) : Document :=
  {| root := map_attrs (mark_button lang) (root d);
     html_lang := html_lang d |}.

(** [loadDictionary]: throws unless the response is [ok]. *)
Definition loadDictionary (o : FetchOutcome JValue) : Settled JValue :=
  getJson o.

(** How the evaluation of an expression ends: with a value, or with an
    exception. *)
Inductive Completion (A : Type) :=
| Returns (a : A)
| Throws.
Arguments Returns {A} a.
Arguments Throws {A}.

(** The string that an evaluation gave, when it gave one:
    [typeof val === 'string']. *)
Definition string_of (c : Completion JValue) : option string :=
  match c with
  | Returns (JStr s) => Some s
  | _ => None
  end.

Section Walk.
Context {A : Type}.
Variable f : bool -> A -> A * bool.

(** [f] along a list, handing on whether an exception has been thrown. *)
Fixpoint thread (thrown : bool) (l : list A) : list A * bool :=
  match l with
  | [] => ([], thrown)
  | c :: rest =>
      let (c', t) := f thrown c in
      let (rest', t') := thread t rest in
      (c' :: rest', t')
  end.

End Walk.

Section PropertyAccess.

(** What the prototype chain of a value gives for a key that the value
    does not hold itself: [undefined] when there is nothing, and an
    exception when it is a getter that throws. *)
Variable inherited : JValue -> string -> Completion JValue.

(** [v[key]] *)
Definition prop (v : JValue) (key : string) : Completion JValue :=
  match own v key with
  | Some x => Returns x
  | None => inherited v key
  end.

(** The callback of the [reduce]:
    [acc && acc[key] !== undefined ? acc[key] : undefined]. *)
Definition get_step (acc : Completion JValue) (key : string)
  : Completion JValue :=
  match acc with
  | Throws => Throws
  | Returns acc =>
      if truthy acc then
        match prop acc key with
        | Throws => Throws
        | Returns x =>
            if negb (is_undefined x) then prop acc key
            else Returns JUndefined
        end
      else Returns JUndefined
  end.

Definition get (obj : JValue) (path : string) : Completion JValue :=
  fold_left get_step (split_dots path "") (Returns obj).

(** The first [forEach], over the elements matching [[data-i18n]] in
    tree order, as a walk of the tree that carries whether a lookup has
    thrown: from then on nothing more is done.  Assigning [textContent]
    replaces the children of an element; the matching elements that were
    inside it are still in the list and are still looked up, but what is
    written to them does not show in the document. *)
Fixpoint translate_text (dict : JValue) (thrown : bool) (n : Node)
  : Node * bool :=
  if thrown then (n, true)
  else
    match n with
    | Text s => (n, false)
    | Elem a children =>
        let inside := thread (translate_text dict) false children in
        match data_i18n a with
        | Some key =>
            match get dict key with
            | Throws => (n, true)
            | Returns (JStr val) => (Elem a (text_children val), snd inside)
            | Returns _ => (Elem a (fst inside), snd inside)
            end
        | None => (Elem a (fst inside), snd inside)
        end
    | Title a s =>
        match data_i18n a with
        | Some key =>
            match get dict key with
            | Throws => (n, true)
            | Returns (JStr val) => (Title a val, false)
            | Returns _ => (n, false)
            end
        | None => (n, false)
        end
    end.

(** The body of the second [forEach], on an element: its
    [data-i18n-placeholder] key is looked up and [placeholder] set. *)
Definition translate_placeholder (dict : JValue) (thrown : bool) (a : Attrs)
  : Attrs * bool :=
  if thrown then (a, true)
  else
    match data_i18n_placeholder a with
    | Some key =>
        match get dict key with
        | Throws => (a, true)
        | Returns (JStr val) => (set_placeholder val a, false)
        | Returns _ => (a, false)
        end
    | None => (a, false)
    end.

(** The second [forEach], in tree order. *)
Fixpoint translate_placeholders (dict : JValue) (thrown : bool) (n : Node)
  : Node * bool :=
  match n with
  | Text s => (n, thrown)
  | Elem a children =>
      let (a', t) := translate_placeholder dict thrown a in
      let (children', t') := thread (translate_placeholders dict) t children in
      (Elem a' children', t')
  | Title a s =>
      let (a', t) := translate_placeholder dict thrown a in
      (Title a' s, t)
  end.

(** The document title. *)
Definition translate_title (dict : JValue) (thrown : bool) (n : Node)
  : Node * bool :=
  if thrown then (n, true)
  else
    match title_key n with
    | Some key =>
        match get dict key with
        | Throws => (n, true)
        | Returns (JStr val) => (set_document_title val n, false)
        | Returns _ => (n, false)
        end
    | None => (n, false)
    end.

(** [applyTranslations], with whether it threw.  The [lang] attribute of
    the document is set last, so not when a lookup has thrown. *)
Definition applyTranslations (st : State) : State * bool :=
  match dictionary st with
  | None => (st, false)
  | Some dict =>
      if negb (truthy dict) then (st, false)
      else
        let d := doc st in
        let (n1, t1) := translate_text dict false (root d) in
        let (n2, t2) := translate_placeholders dict t1 n1 in
        let (n3, t3) := translate_title dict t2 n2 in
        ({| dictionary := dictionary st; currentLang := currentLang st;
            stored := stored st;
            doc := {| root := n3;
                      html_lang := if t3 then html_lang d
                                   else Some (currentLang st) |};
            log_errors := log_errors st |}, t3)
  end.

Definition console_error (msg : string) (st : State) : State :=
  {| dictionary := dictionary st; currentLang := currentLang st;
     stored := stored st; doc := doc st;
     log_errors := msg :: log_errors st |}.

(** [setLanguage(lang)], with the outcome of fetching the locale file.
    The [catch] takes a failed load and an exception of
    [applyTranslations] alike. *)
Definition setLanguage (lang : string) (o : FetchOutcome JValue)
           (st : State) : State :=
  let st := {| dictionary := dictionary st; currentLang := lang;
               stored := Some lang;
               doc := setActiveButton lang (doc st);
               log_errors := log_errors st |} in
  match loadDictionary o with
  | Resolved dict =>
      let (st', thrown) :=
        applyTranslations
          {| dictionary := Some dict; currentLang := currentLang st;
             stored := stored st; doc := doc st;
             log_errors := log_errors st |} in
      if thrown then console_error "i18n error" st' else st'
  | Rejected => console_error "i18n error" st
  end.

End PropertyAccess.

End Lang.

(* ================================================================== *)
(** * Vocabulary for the drawer properties *)

Module DrawerSpec.
Import Drawer.

(** Timeouts that end an open or close animation. *)
Definition is_animation (t : Z * Timer) : bool :=
  match snd t with
  | OpenDone | CloseDone _ => true
  | _ => false
  end.

Definition animations (q : list (Z * Timer)) : list (Z * Timer) :=
  filter is_animation q.

(** Transitions are serialised when the animating flag is set exactly
    while one animation timeout is pending, and never more than one is. *)
Definition serialised (w : World) : Prop :=
  List.length (animations (timers w))
  = if isAnimating (mm w) then 1%nat else 0%nat.

(** What a transition writes: the flags, the classes, the ARIA
    attributes, the scroll lock with the scroll offset, and the pending
    animation timeouts. *)
Definition drawer_view (w : World) :=
  (isOpen (mm w), isAnimating (mm w), classes (page w), aria (page w),
   body_style (page w), scrollY (page w), animations (timers w)).

(** The inputs that ask the drawer to open or close. *)
Definition is_trigger (ev : Event) : bool :=
  match ev with
  | ToggleClick | OverlayClick | CloseBtnClick | LinkClick _ | OutsideClick
  | NavTouchEnd _ | OverlayTouchEnd _ | ApiOpen | ApiClose | ApiToggle => true
  | KeyDown key _ => String.eqb key "Escape"
  | _ => false
  end.

(** A property of the pending timeouts and the two flags. *)
Definition inv (P : list (Z * Timer) -> bool -> bool -> Prop) (w : World) : Prop :=
  P (timers w) (isOpen (mm w)) (isAnimating (mm w)).

(** Pending timeouts are kept in deadline order. *)
Fixpoint sorted (q : list (Z * Timer)) : Prop :=
  match q with
  | [] => True
  | (d, _) :: q' => (forall x, In x q' -> d <= fst x) /\ sorted q'
  end.

Definition flags (w : World) : bool * bool :=
  (isOpen (mm w), isAnimating (mm w)).

(** The four phases.  Opening and closing carry the same flags (both
    set) and are told apart by the animation timeout that is pending. *)
Inductive Phase := Closed | Opening | Open | Closing.

Definition phase (w : World) : Phase :=
  if isAnimating (mm w) then
    match animations (timers w) with
    | (_, CloseDone _) :: _ => Closing
    | _ => Opening
    end
  else if isOpen (mm w) then Open else Closed.

(** The drawer is shown as closed: no [active] class on the elements
    that exist, no [menu-open] on the body, ARIA attributes back to the
    closed values, and the scroll lock released. *)
Definition shut (p : Page) : Prop :=
  body_menu_open (classes p) = false /\
  overlay_active (classes p) = false /\
  (has_toggle (els p) = true ->
   toggle_active (classes p) = false /\
   toggle_aria_expanded (aria p) = Some "false") /\
  (has_nav (els p) = true ->
   nav_active (classes p) = false /\
   nav_aria_hidden (aria p) = Some "true") /\
  body_style p = no_style.

(** What no timeout callback writes. *)
Definition layout (p : Page) :=
  (els p, classes p, body_style p, nav_transform p, overlay_opacity p).

(** A page with one section to scroll to; a bare [#] is no selector. *)
Definition anchors (href : string) : AnchorTarget :=
  if String.eqb href "#fleet" then TargetAt 1200
  else if String.eqb href "#" then BadSelector
  else NoTarget.

(** Markup with every element of the drawer, and a phone-sized page on
    which [initMobileMenu] has run twice (both DOMContentLoaded hooks). *)
Definition full_markup : Elements :=
  {| has_toggle := true; has_nav := true; has_overlay := true;
     has_closeBtn := true; links := 3;
     header_offsetHeight := Some 64;
     querySelector := anchors |}.

Definition after (evs : list Event) (w : World) : World :=
  match run evs w with
  | Ok w' => w'
  | TypeError _ => w
  end.

Definition phone (y : Z) : World :=
  after [Init; Init] (page_load full_markup 390 300 y).

(** [handleMenuResize] up to its test: the panel width is re-read. *)
Definition remeasure (w : World) : World :=
  if has_nav (els (page w))
  then set_mm (fun m =>
         {| isOpen := isOpen m; isAnimating := isAnimating m;
            touchStartX := touchStartX m; touchStartY := touchStartY m;
            touchStartTime := touchStartTime m;
            swipeThreshold := swipeThreshold m;
            menuWidth := nav_offsetWidth (page w);
            lastScrollPosition := lastScrollPosition m |}) w
  else w.

(** Input events delivered to listeners that [initMobileMenu] attaches. *)
Definition is_dom_input (ev : Event) : bool :=
  match ev with
  | ToggleClick | OverlayClick | CloseBtnClick | LinkClick _ | KeyDown _ _
  | OutsideClick | NavTouchStart _ _ | NavTouchMove _ _ | NavTouchEnd _
  | OverlayTouchStart _ _ | OverlayTouchEnd _ => true
  | _ => false
  end.

Definition is_tab (ev : Event) : bool :=
  match ev with
  | KeyDown key _ => String.eqb key "Tab"
  | _ => false
  end.

(** The delayed scroll to [href] throws: [href] is no selector. *)
Definition bad_anchor (e : Elements) (href : string) : bool :=
  match querySelector e href with
  | BadSelector => true
  | _ => false
  end.

Definition throwing (e : Elements) (t : Z * Timer) : bool :=
  match snd t with
  | AnchorScroll h => bad_anchor e h
  | _ => false
  end.

(** The two inputs after which an exception can go uncaught: a Tab key
    press (the focus trap) and a click on an in-page link whose [href] is
    no selector (the delayed scroll). *)
Definition may_throw (e : Elements) (ev : Event) : bool :=
  match ev with
  | KeyDown key _ => String.eqb key "Tab"
  | LinkClick (Some h) => (starts_with_hash h && bad_anchor e h)%bool
  | _ => false
  end.

Definition harmless (e : Elements) (evs : list Event) : bool :=
  forallb (fun ev => negb (may_throw e ev)) evs.

(** No timeout callback has thrown and none of the pending ones will. *)
Definition quiet (e : Elements) (w : World) : Prop :=
  querySelector (els (page w)) = querySelector e /\
  forallb (fun t => negb (throwing e t)) (timers w) = true /\
  uncaught (page w) = [].

(** Nothing is wired: no listener, and the toggle or the panel missing. *)
Definition unwired (w : World) : Prop :=
  core_listeners w = 0%nat /\ outside_listeners w = 0%nat /\
  (negb (has_toggle (els (page w))) || negb (has_nav (els (page w))))%bool
  = true.

(** One of the four elements looked up by id is missing. *)
Definition incomplete (e : Elements) : bool :=
  negb (has_toggle e && has_nav e && has_overlay e && has_closeBtn e).

(** "Logs and disables itself": after initialisation a warning has been
    logged, a click on the toggle changes nothing, and no sequence of
    events makes a listener or a timeout callback throw. *)
Definition disabled_after_init (e : Elements) (iw nw y : Z) : Prop :=
  let w := initMobileMenu (page_load e iw nw y) in
  warnings (page w) <> [] /\
  dispatch ToggleClick w = Ok w /\
  forall evs, exists w', run evs w = Ok w' /\ uncaught (page w') = [].

Definition markup_without_overlay : Elements :=
  {| has_toggle := true; has_nav := true; has_overlay := false;
     has_closeBtn := true; links := 3;
     header_offsetHeight := Some 64;
     querySelector := anchors |}.

Definition markup_without_closeBtn : Elements :=
  {| has_toggle := true; has_nav := true; has_overlay := true;
     has_closeBtn := false; links := 3;
     header_offsetHeight := Some 64;
     querySelector := anchors |}.

Definition markup_without_nav : Elements :=
  {| has_toggle := true; has_nav := false; has_overlay := true;
     has_closeBtn := true; links := 3;
     header_offsetHeight := Some 64;
     querySelector := anchors |}.

(** "Transitions immediately to Closed": when the resize listener
    returns, the drawer is in the closed phase. *)
Definition closed_by_resize (w : World) (width navWidth : Z) : Prop :=
  exists w', dispatch (Resize width navWidth) w = Ok w' /\ phase w' = Closed.

End DrawerSpec.

(* ================================================================== *)
(** * Vocabulary for the fleet properties *)

Module FleetSpec.
Import Api Fleet.

(** What the grid shows for a list of cars. *)
Definition rendering (cs : list Car) (cats : list Category) : Markup :=
  match cs with
  | [] => Html createNoCarsMessage
  | _ :: _ => Cards cs cats
  end.

(** "The fallback is silent": a failed request for call [r] leaves the
    car list empty and the grid as a successful empty response would. *)
Definition silent_empty_fallback (f : FleetManager) (r : nat) : Prop :=
  forall o : FetchOutcome Payload,
    failed o = true ->
    cars (step (Respond r o) f) = [] /\
    carsGrid (step (Respond r o) f)
    = carsGrid (step (Respond r (Http true (Some (PArray [])))) f).

(** "Stale responses are ignored": once the call issued last has been
    answered with [latest], the grid keeps showing [latest] when an
    earlier call is answered afterwards. *)
Definition stale_response_ignored (f : FleetManager)
           (first second : CategoryId) (stale latest : list Car) : Prop :=
  let f1 := run [CallFetchCars first; CallFetchCars second] f in
  let r1 := issued f in
  let r2 := S (issued f) in
  let f2 := run [Respond r2 (Http true (Some (PArray latest)));
                 Respond r1 (Http true (Some (PArray stale)))] f1 in
  carsGrid f2 = rendering latest (categories f2).

(** At most one call is suspended, and it is the one issued last. *)
Definition one_in_flight (f : FleetManager) : Prop :=
  (inflight f = [] /\ isLoading f = false) \/
  (exists p, inflight f = [p] /\ S (req p) = issued f /\ isLoading f = true).

Definition fresh : FleetManager := constructor true true (Html "").

Definition sedan : Car :=
  {| id := 7; brand := "Kia"; model := "Rio"; category_id := 1 |}.

Definition jeep : Car :=
  {| id := 9; brand := "Toyota"; model := "RAV4"; category_id := 5 |}.

End FleetSpec.

(* ================================================================== *)
(** * Vocabulary for the language switcher properties *)

Module LangSpec.
Import Lang.

(** A fragment of the standard library, enough for the examples: every
    object, array and string has a [constructor]; a function has its
    [name], and the [caller] of a built-in function is a getter that
    throws. *)
Definition standard_members (v : JValue) (key : string) : Completion JValue :=
  match v with
  | JObj _ =>
      Returns (if String.eqb key "constructor" then JNative "Object"
               else JUndefined)
  | JArr _ =>
      Returns (if String.eqb key "constructor" then JNative "Array"
               else JUndefined)
  | JStr _ =>
      Returns (if String.eqb key "constructor" then JNative "String"
               else JUndefined)
  | JNative name =>
      if String.eqb key "name" then Returns (JStr name)
      else if String.eqb key "caller" then Throws
      else Returns JUndefined
  | _ => Returns JUndefined
  end.

(** An English locale file that has [nav.about] but no [nav.home]. *)
Definition en_dict : JValue :=
  JObj [("nav", JObj [("about", JStr "About")]);
        ("search", JStr "Search")].

Definition plain : Attrs :=
  {| data_i18n := None; data_i18n_placeholder := None; placeholder := None;
     lang_btn := false; data_lang := None; active := false |}.

Definition keyed (key : string) : Attrs :=
  {| data_i18n := Some key; data_i18n_placeholder := None;
     placeholder := None;
     lang_btn := false; data_lang := None; active := false |}.

Definition button (lang : string) (on : bool) : Node :=
  Elem {| data_i18n := None; data_i18n_placeholder := None;
          placeholder := None;
          lang_btn := true; data_lang := Some lang; active := on |}
       [Text lang].

Definition home_link : Node := Elem (keyed "nav.home") [Text "Главная"].

Definition about_link : Node := Elem (keyed "nav.about") [Text "О нас"].

Definition search_box : Node :=
  Elem {| data_i18n := None; data_i18n_placeholder := Some "search";
          placeholder := Some "Поиск";
          lang_btn := false; data_lang := None; active := false |} [].

Definition page_of (body : list Node) : State :=
  {| dictionary := None; currentLang := DEFAULT_LANG; stored := None;
     doc := {| root := Elem plain [Elem plain [Title plain "Аренда"];
                                   Elem plain body];
               html_lang := Some "ru" |};
     log_errors := [] |}.

Definition russian_page : State :=
  page_of [home_link; about_link; search_box; button "ru" true;
           button "en" false].

(** A flagged element around another one: the outer key is missing from
    [en_dict], the inner one is there. *)
Definition nested_link : Node :=
  Elem (keyed "nav.home") [Text "Главная / "; about_link].

(** An element whose key names a member of the standard library. *)
Definition odd_link : Node := Elem (keyed "constructor.name") [Text "Главная"].

(** An element whose key leads to a getter that throws. *)
Definition bad_link : Node := Elem (keyed "constructor.caller") [Text "Главная"].

(** The node reached from the root by child indices. *)
Fixpoint at_path (p : list nat) (n : Node) : option Node :=
  match p with
  | [] => Some n
  | i :: p' =>
      match n with
      | Elem _ children =>
          match nth_error children i with
          | Some c => at_path p' c
          | None => None
          end
      | _ => None
      end
  end.

Section Lookup.
Variable inherited : JValue -> string -> Completion JValue.
Variable dict : JValue.

(** The string that the lookup of an optional key gives. *)
Definition found (key : option string) : option string :=
  match key with
  | Some key => string_of (get inherited dict key)
  | None => None
  end.

Definition is_some {A} (o : option A) : bool :=
  match o with Some _ => true | None => false end.

(** The element has a text key and the lookup gives a string for it. *)
Definition hit (a : Attrs) : bool := is_some (found (data_i18n a)).

Definition placeholder_hit (a : Attrs) : bool :=
  is_some (found (data_i18n_placeholder a)).

(** No element above the end of the path is given a new text. *)
Fixpoint kept (p : list nat) (n : Node) : bool :=
  match p with
  | [] => true
  | i :: p' =>
      match n with
      | Elem a children =>
          negb (hit a)
          && match nth_error children i with
             | Some c => kept p' c
             | None => true
             end
      | _ => true
      end
  end.

(** Nothing in the subtree is given a new text: no element with a string
    for its key, and no <title>. *)
Fixpoint untouched (n : Node) : bool :=
  match n with
  | Text _ => true
  | Title _ _ => false
  | Elem a children => negb (hit a) && forallb untouched children
  end.

(** The lookup of an optional key does not throw. *)
Definition key_calm (key : option string) : bool :=
  match key with
  | Some key =>
      match get inherited dict key with
      | Throws => false
      | Returns _ => true
      end
  | None => true
  end.

Definition calm_attrs (a : Attrs) : bool :=
  key_calm (data_i18n a) && key_calm (data_i18n_placeholder a).

(** No key in the subtree leads to an exception. *)
Definition calm (n : Node) : bool :=
  forallb (fun m => match attrs m with
                    | Some a => calm_attrs a
                    | None => true
                    end) (nodes n).

(** The passes of [applyTranslations] as they go when no lookup throws. *)
Fixpoint text_pass (n : Node) : Node :=
  match n with
  | Text s => Text s
  | Elem a children =>
      match found (data_i18n a) with
      | Some val => Elem a (text_children val)
      | None => Elem a (map text_pass children)
      end
  | Title a s =>
      match found (data_i18n a) with
      | Some val => Title a val
      | None => Title a s
      end
  end.

Definition placeholder_pass (a : Attrs) : Attrs :=
  match found (data_i18n_placeholder a) with
  | Some val => set_placeholder val a
  | None => a
  end.

Definition title_pass (n : Node) : Node :=
  match found (title_key n) with
  | Some val => set_document_title val n
  | None => n
  end.

(** The node holds what assigning the dictionary's string leaves: an
    element with a string for its text key has that string as its only
    child, or no child when the string is empty; a <title> has it as its
    text. *)
Definition rewritten (n : Node) : Prop :=
  match n with
  | Text _ => True
  | Elem a children =>
      forall val, found (data_i18n a) = Some val ->
                  children = text_children val
  | Title a s =>
      forall val, found (data_i18n a) = Some val -> s = val
  end.

(** The node shows what the dictionary has for its keys. *)
Definition translated (n : Node) : Prop :=
  match attrs n with
  | None => True
  | Some a =>
      (forall key val, data_i18n a = Some key ->
                       get inherited dict key = Returns (JStr val) ->
                       textContent n = val) /\
      (forall key val, data_i18n_placeholder a = Some key ->
                       get inherited dict key = Returns (JStr val) ->
                       placeholder a = Some val)
  end.

End Lookup.

(** The text of a text node. *)
Definition own_text (n : Node) : option string :=
  match n with
  | Text s => Some s
  | _ => None
  end.

(** The language buttons show [lang]. *)
Definition shows_language (lang : string) (n : Node) : Prop :=
  match attrs n with
  | Some a => lang_btn a = true -> active a = opt_eqb (data_lang a) lang
  | None => True
  end.

(** The node with the [active] class taken off its language buttons. *)
Definition without_active (n : Node) : Node :=
  map_attrs (fun a => if lang_btn a then set_active false a else a) n.

(** The specification's sentence on missing keys, in its own words:
    whatever the locale file holds, an element flagged with a key that the
    lookup gives no string for has the same text after [setLanguage] as
    before. *)
Definition missing_key_keeps_text
           (inherited : JValue -> string -> Completion JValue)
           (st : State) (lang : string) (o : Api.FetchOutcome JValue) : Prop :=
  forall dict p a cs key,
    loadDictionary o = Api.Resolved dict ->
    at_path p (root (doc st)) = Some (Elem a cs) ->
    data_i18n a = Some key ->
    string_of (get inherited dict key) = None ->
    option_map textContent
      (at_path p (root (doc (setLanguage inherited lang o st))))
    = Some (textContent (Elem a cs)).

End LangSpec.

(* ================================================================== *)
(** * The steps a drawer event is made of *)

Module DrawerMoves.
Import Drawer DrawerSpec.

(** What only the drawer script writes: the timer queue and its throttle
    flag, the two flags, the swipe threshold, the markup, the classes, the
    ARIA attributes, the scroll lock, the listener counts and the inline
    opacity of the overlay.  Pointer data, sizes, the scroll offset, the
    focus, the clock and the panel transform are outside it. *)
Definition script (w : World) :=
  (timers w, scroll_pending w, isOpen (mm w), isAnimating (mm w),
   swipeThreshold (mm w), els (page w), classes (page w), aria (page w),
   body_style (page w), core_listeners w, outside_listeners w,
   overlay_opacity (page w)).

(** One step of the script.  [init] tells whether [initMobileMenu] may
    run, [drag] whether a swipe drag may repaint panel and overlay. *)
Inductive Move (init drag : bool) : World -> World -> Prop :=
| mv_open w : Move init drag w (openMobileMenu w)
| mv_close w : Move init drag w (closeMobileMenu w)
| mv_fire w d k q t :
    timers w = (d, k) :: q ->
    Move init drag w (fire k (set_now t (set_timers q w)))
| mv_focus_timer w : Move init drag w (toggleFocusHandler w)
| mv_anchor_timer w href :
    Move init drag w (setTimeout (AnchorScroll href) 400 w)
| mv_scroll w y : Move init drag w (scrollListener y w)
| mv_init w : init = true -> Move init drag w (initMobileMenu w)
| mv_drag w pr :
    drag = true ->
    Move init drag w
         (set_page (fun p => set_overlay_opacity (Some (fade pr))
                               (set_nav_transform (Some pr) p)) w)
| mv_env w w' : script w' = script w -> Move init drag w w'.

Inductive Moves (init drag : bool) : World -> World -> Prop :=
| mvs_done w : Moves init drag w w
| mvs_step w1 w2 w3 :
    Move init drag w1 w2 -> Moves init drag w2 w3 -> Moves init drag w1 w3.

Definition is_init (ev : Event) : bool :=
  match ev with Init => true | _ => false end.

Definition is_drag (ev : Event) : bool :=
  match ev with NavTouchMove _ _ => true | _ => false end.

Definition no_drag (evs : list Event) : bool :=
  forallb (fun ev => negb (is_drag ev)) evs.

(** The drawer is shown open: classes set, body pinned. *)
Definition shown_open (p : Page) : Prop :=
  body_menu_open (classes p) = true /\
  position (body_style p) = "fixed" /\
  overflow (body_style p) = "hidden" /\
  (has_nav (els p) = true ->
   nav_active (classes p) = true /\
   nav_aria_hidden (aria p) = Some "false") /\
  (has_toggle (els p) = true ->
   toggle_active (classes p) = true /\
   toggle_aria_expanded (aria p) = Some "true").

(** The drawer is shown closed: classes cleared, body released. *)
Definition shown_closed (p : Page) : Prop :=
  body_menu_open (classes p) = false /\
  body_style p = no_style /\
  (has_nav (els p) = true -> nav_active (classes p) = false) /\
  (has_toggle (els p) = true ->
   toggle_active (classes p) = false /\
   toggle_aria_expanded (aria p) <> Some "true").

(** The part of [shown_open] that is classes and scroll lock. *)
Definition pinned_open (p : Page) : Prop :=
  body_menu_open (classes p) = true /\
  position (body_style p) = "fixed" /\
  overflow (body_style p) = "hidden" /\
  (has_nav (els p) = true -> nav_active (classes p) = true) /\
  (has_toggle (els p) = true -> toggle_active (classes p) = true).

(** The ARIA attributes say closed. *)
Definition aria_closed (p : Page) : Prop :=
  (has_nav (els p) = true -> nav_aria_hidden (aria p) = Some "true") /\
  (has_toggle (els p) = true ->
   toggle_aria_expanded (aria p) = Some "false").

Definition is_enhance (t : Z * Timer) : bool :=
  match snd t with EnhanceAccessibility => true | _ => false end.

(** [enhanceAccessibility] has run: its timeout is no longer pending. *)
Definition enhanced (w : World) : Prop :=
  filter is_enhance (timers w) = [].

(** Flags, pending animation and appearance agree, for a given reading
    of what an open drawer shows. *)
Definition coherent_with (opened : World -> Prop) (w : World) : Prop :=
  match animations (timers w), isOpen (mm w), isAnimating (mm w) with
  | [], false, false => shown_closed (page w)
  | [], true, false => opened w
  | [(_, OpenDone)], true, true => opened w
  | [(_, CloseDone _)], true, true => shown_closed (page w)
  | _, _, _ => False
  end.

(** Shown open in full. *)
Definition opened_full (w : World) : Prop := shown_open (page w).

(** Shown open, but for the ARIA attributes when [enhanceAccessibility]
    has reset them. *)
Definition opened_or_reset (w : World) : Prop :=
  pinned_open (page w) /\
  (shown_open (page w) \/ (aria_closed (page w) /\ enhanced w)).

Definition coherent (w : World) : Prop := coherent_with opened_full w.

(** The parts of the page that [shown_open] and [shown_closed] read. *)
Definition face (p : Page) :=
  (has_nav (els p), has_toggle (els p), body_menu_open (classes p),
   nav_active (classes p), toggle_active (classes p),
   nav_aria_hidden (aria p), toggle_aria_expanded (aria p), body_style p).

Definition is_scroll_sample (t : Z * Timer) : bool :=
  match snd t with ScrollSample => true | _ => false end.

(** The throttle of the scroll listener: its flag is raised exactly while
    one sampling timeout is pending. *)
Definition throttled (w : World) : Prop :=
  List.length (filter is_scroll_sample (timers w))
  = if scroll_pending w then 1%nat else 0%nat.

Definition no_init (evs : list Event) : bool :=
  forallb (fun ev => negb (is_init ev)) evs.

(** Value bound of a swipe progress: in (0, 1]. *)
Definition progress_in_range (pr : Progress) : Prop :=
  match pr with
  | Full => True
  | Fraction num den => 0 < num < den
  end.

(** Value bound of an overlay opacity set by a drag: in [0.3, 1). *)
Definition fade_in_range (op : Progress) : Prop :=
  match op with
  | Full => False
  | Fraction num den => 0 < den /\ 3 * den <= 10 * num /\ num < den
  end.

(** The opacity is 0.3. *)
Definition three_tenths (op : Progress) : Prop :=
  match op with
  | Full => False
  | Fraction num den => 10 * num = 3 * den
  end.

(** The link has an [href] that starts with [#]. *)
Definition in_page (href : option string) : bool :=
  match href with
  | Some h => starts_with_hash h
  | None => false
  end.

Definition is_anchor_scroll (t : Z * Timer) : bool :=
  match snd t with AnchorScroll _ => true | _ => false end.

(** Delayed scrolls that are pending. *)
Definition anchor_scrolls (w : World) : nat :=
  List.length (filter is_anchor_scroll (timers w)).

Definition markup_without_links : Elements :=
  {| has_toggle := true; has_nav := true; has_overlay := true;
     has_closeBtn := true; links := 0;
     header_offsetHeight := Some 64;
     querySelector := anchors |}.

End DrawerMoves.

(* ================================================================== *)
(** * Viewport detection *)

Module Detector.

(** [detectDeviceCapabilities] and [handleResize] of the main script, over
    the part of [AppState] and of the body class list they manage.  The
    body starts with none of these classes. *)

Inductive Breakpoint := xs | sm | md | lg | xl | xxl.   (* xxl is '2xl' *)

Definition Breakpoint_eqb (a b : Breakpoint) : bool :=
  match a, b with
  | xs, xs | sm, sm | md, md | lg, lg | xl, xl | xxl, xxl => true
  | _, _ => false
  end.

Record AppState := mkAppState {
  isMobile : bool;
  isTablet : bool;
  isDesktop : bool;
  prefersReducedMotion : bool;
  isTouchDevice : bool;
  currentBreakpoint : option Breakpoint;   (* None is the literal 'desktop' *)
  isMenuOpen : bool
}.

Definition initialAppState : AppState :=
  {| isMobile := false; isTablet := false; isDesktop := false;
     prefersReducedMotion := false; isTouchDevice := false;
     currentBreakpoint := None; isMenuOpen := false |}.

(** The classes of [document.body] that the two functions add and remove. *)
Record BodyClasses := mkBodyClasses {
  is_mobile : bool;
  is_tablet : bool;
  is_desktop : bool;
  is_touch_device : bool;
  reduced_motion : bool;
  breakpoints : list Breakpoint      (* breakpoint-* classes, in order *)
}.

Definition no_classes : BodyClasses :=
  {| is_mobile := false; is_tablet := false; is_desktop := false;
     is_touch_device := false; reduced_motion := false; breakpoints := [] |}.

Record Environment := mkEnvironment {
  innerWidth : Z;
  reducedMotion : bool;     (* matchMedia('(prefers-reduced-motion: reduce)') *)
  touch : bool              (* ontouchstart in window, or maxTouchPoints > 0 *)
}.

(** The chain of comparisons both functions share. *)
Definition breakpointOf (viewportWidth : Z) : Breakpoint :=
  if viewportWidth <? 375 then xs
  else if viewportWidth <? 568 then sm
  else if viewportWidth <? 768 then md
  else if viewportWidth <? 1024 then lg
  else if viewportWidth <? 1440 then xl
  else xxl.

(** [classList.add] of a breakpoint class. *)
Definition add_breakpoint (b : Breakpoint) (l : list Breakpoint) : list Breakpoint :=
  if existsb (Breakpoint_eqb b) l then l else l ++ [b].

Definition detectDeviceCapabilities (env : Environment)
           (st : AppState) (body : BodyClasses) : AppState * BodyClasses :=
  let viewportWidth := innerWidth env in
  let st :=
    {| isMobile := viewportWidth <=? 768;
       isTablet := (768 <? viewportWidth) && (viewportWidth <=? 1024);
       isDesktop := 1024 <? viewportWidth;
       prefersReducedMotion := reducedMotion env;
       isTouchDevice := touch env;
       currentBreakpoint := Some (breakpointOf viewportWidth);
       isMenuOpen := isMenuOpen st |} in
  (st,
   {| is_mobile := if isMobile st then true else is_mobile body;
      is_tablet := if isTablet st then true else is_tablet body;
      is_desktop := if isDesktop st then true else is_desktop body;
      is_touch_device := if isTouchDevice st then true else is_touch_device body;
      reduced_motion :=
        if prefersReducedMotion st then true else reduced_motion body;
      breakpoints := add_breakpoint (breakpointOf viewportWidth)
                                    (breakpoints body) |}).

Definition option_bp_eqb (a : option Breakpoint) (b : Breakpoint) : bool :=
  match a with Some x => Breakpoint_eqb x b | None => false end.

(** [handleResize] for a new width; the third component tells whether it
    called [window.mobileMenu.close()]. *)
Definition handleResize (newViewportWidth : Z)
           (st : AppState) (body : BodyClasses)
  : AppState * BodyClasses * bool :=
  let newBreakpoint := breakpointOf newViewportWidth in
  let changed := negb (option_bp_eqb (currentBreakpoint st) newBreakpoint) in
  let bps := if changed then add_breakpoint newBreakpoint []
             else breakpoints body in
  let closes := changed && (768 <? newViewportWidth) && isMenuOpen st in
  let mobile := newViewportWidth <=? 768 in
  let tablet := (768 <? newViewportWidth) && (newViewportWidth <=? 1024) in
  let desktop := 1024 <? newViewportWidth in
  ({| isMobile := mobile; isTablet := tablet; isDesktop := desktop;
      prefersReducedMotion := prefersReducedMotion st;
      isTouchDevice := isTouchDevice st;
      currentBreakpoint :=
        if changed then Some newBreakpoint else currentBreakpoint st;
      isMenuOpen := isMenuOpen st |},
   {| is_mobile := mobile; is_tablet := tablet; is_desktop := desktop;
      is_touch_device := is_touch_device body;
      reduced_motion := reduced_motion body;
      breakpoints := bps |},
   closes).

(** A run of resizes after the detection at load. *)
Definition resizes (widths : list Z) (s : AppState * BodyClasses)
  : AppState * BodyClasses :=
  fold_left (fun s w => fst (handleResize w (fst s) (snd s))) widths s.

(** State and classes are those of a page just loaded at [width]. *)
Definition settled (width : Z) (s : AppState * BodyClasses) : Prop :=
  let (st, body) := s in
  isMobile st = (width <=? 768) /\
  isTablet st = ((768 <? width) && (width <=? 1024))%bool /\
  isDesktop st = (1024 <? width) /\
  currentBreakpoint st = Some (breakpointOf width) /\
  is_mobile body = isMobile st /\
  is_tablet body = isTablet st /\
  is_desktop body = isDesktop st /\
  breakpoints body = [breakpointOf width].

Definition count_true (l : list bool) : nat :=
  List.length (filter (fun b => b) l).

End Detector.

(* ================================================================== *)
(** * Request URLs *)

Module Url.

(** [buildUrl] of the API client, with the query kept as the list of
    pairs that [url.searchParams] holds. *)

(** A parameter value: a primitive, an array of values, or a plain
    object.  Numbers are integers in plain decimal notation. *)
#[local] Unset Elimination Schemes.
Inductive ParamValue :=
| PUndefined
| PNull
| PStr (s : string)
| PNum (z : Z)
| PBool (b : bool)
| PArr (items : list ParamValue)
| PObject.
#[local] Set Elimination Schemes.

(** [String(v)]; an array is joined with commas, its [undefined] and
    [null] elements giving the empty string. *)
Fixpoint to_string (v : ParamValue) : string :=
  match v with
  | PUndefined => "undefined"
  | PNull => "null"
  | PStr s => s
  | PNum z => JS.show_Z z
  | PBool b => if b then "true" else "false"
  | PArr items =>
      (fix join (l : list ParamValue) : string :=
         match l with
         | [] => ""
         | x :: rest =>
             let first := match x with
                          | PUndefined | PNull => ""
                          | _ => to_string x
                          end in
             match rest with
             | [] => first
             | _ :: _ => first ++ "," ++ join rest
             end
         end) items
  | PObject => "[object Object]"
  end.

(** [v === undefined || v === null || v === ''] *)
Definition skipped (v : ParamValue) : bool :=
  match v with
  | PUndefined | PNull => true
  | PStr s => String.eqb s ""
  | _ => false
  end.

Definition is_array (v : ParamValue) : bool :=
  match v with PArr _ => true | _ => false end.

Definition drop_key (k : string) (q : list (string * string)) :=
  filter (fun kv => negb (String.eqb (fst kv) k)) q.

(** [searchParams.set(k, v)]: the first pair named [k] takes the value
    and later ones are removed; without one the pair is appended. *)
Fixpoint set (k v : string) (q : list (string * string)) : list (string * string) :=
  match q with
  | [] => [(k, v)]
  | (k', v') :: rest =>
      if String.eqb k' k then (k, v) :: drop_key k rest
      else (k', v') :: set k v rest
  end.

(** [searchParams.get(k)] *)
Fixpoint lookup (k : string) (q : list (string * string)) : option string :=
  match q with
  | [] => None
  | (k', v) :: rest => if String.eqb k' k then Some v else lookup k rest
  end.

Definition buildUrl (now : Z) (params : list (string * ParamValue))
  : list (string * string) :=
  fold_left
    (fun q kv => if skipped (snd kv) then q
                 else set (fst kv) (to_string (snd kv)) q)
    params
    (set "_t" (JS.show_Z now) []).

(** What [buildUrl] keeps true of the query while it folds the
    parameters: an empty value comes from an array among them. *)
Definition query_ok (params : list (string * ParamValue))
           (q : list (string * string)) : Prop :=
  NoDup (map fst q) /\
  lookup "_t" q <> None /\
  forall k v, In (k, v) q -> v = "" ->
    exists x, In (k, x) params /\ is_array x = true /\ to_string x = "".

(** The value that the parameters give to [k]: that of the last entry
    named [k] that is not skipped. *)
Definition given (k : string) (params : list (string * ParamValue)) : option string :=
  fold_left
    (fun acc kv => if (String.eqb k (fst kv) && negb (skipped (snd kv)))%bool
                   then Some (to_string (snd kv)) else acc)
    params None.

(** The [filters] object that [fetchCars] passes to [getCars]. *)
Definition filters (categoryId : Fleet.CategoryId) : list (string * ParamValue) :=
  match categoryId with
  | Fleet.All => []
  | Fleet.Cat n => [("category_id", PNum n)]
  end.

(** Query of the request that [getCars(filters)] sends. *)
Definition getCars_query (now : Z) (categoryId : Fleet.CategoryId) :=
  buildUrl now (filters categoryId).

End Url.

(* ================================================================== *)
(** * The filter bar of the fleet manager *)

Module FleetUI.
Import Api Fleet.

(** The [.filter-btn] elements inside [.fleet-filters], with the methods
    of [FleetManager] that read or write them.  The manager itself is the
    record of [Fleet]. *)

Record FilterButton := mkFilterButton {
  data_category_id : CategoryId;
  active : bool
}.

Record FleetPage := mkFleetPage {
  manager : FleetManager;
  filtersContainer : option (list FilterButton)    (* None: no .fleet-filters *)
}.

Definition CategoryId_eqb (a b : CategoryId) : bool :=
  match a, b with
  | All, All => true
  | Cat x, Cat y => x =? y
  | _, _ => false
  end.

Definition createFilterButton (id : CategoryId) (act : bool) : FilterButton :=
  {| data_category_id := id; active := act |}.

Definition createCategoryFilters (fp : FleetPage) : FleetPage :=
  match filtersContainer fp with
  | None => fp
  | Some _ =>
      {| manager := manager fp;
         filtersContainer :=
           Some (createFilterButton All true
                 :: map (fun c => createFilterButton (Cat (cat_id c)) false)
                        (categories (manager fp))) |}
  end.

Definition deactivate (b : FilterButton) : FilterButton :=
  {| data_category_id := data_category_id b; active := false |}.

(** [querySelector('[data-category-id=...]')?.classList.add('active')]: the
    first match only. *)
Fixpoint activate_first (id : CategoryId) (l : list FilterButton) : list FilterButton :=
  match l with
  | [] => []
  | b :: rest =>
      if CategoryId_eqb (data_category_id b) id
      then {| data_category_id := data_category_id b; active := true |} :: rest
      else b :: activate_first id rest
  end.

Definition onFilterClick (id : CategoryId) (fp : FleetPage) : FleetPage :=
  if isLoading (manager fp) then fp
  else
    {| manager := Fleet.onFilterClick id (manager fp);
       filtersContainer :=
         option_map (fun l => activate_first id (map deactivate l))
                    (filtersContainer fp) |}.

(** [init] from the settling of the categories request to the start of the
    first cars request. *)
Definition init (o : FetchOutcome (list Category)) (fp : FleetPage) : FleetPage :=
  let fp := {| manager := loadCategories o (manager fp);
               filtersContainer := filtersContainer fp |} in
  let fp := createCategoryFilters fp in
  {| manager := loadAllCars (manager fp);
     filtersContainer := filtersContainer fp |}.

Inductive Event :=
| Click (i : nat)                                 (* the i-th button of the bar *)
| Respond (r : nat) (o : FetchOutcome Payload).

Definition bar (fp : FleetPage) : list FilterButton :=
  match filtersContainer fp with Some l => l | None => [] end.

Definition step (ev : Event) (fp : FleetPage) : FleetPage :=
  match ev with
  | Click i =>
      match nth_error (bar fp) i with
      | Some b => onFilterClick (data_category_id b) fp
      | None => fp
      end
  | Respond r o =>
      {| manager := fetchCars_resume r (getJson o) (manager fp);
         filtersContainer := filtersContainer fp |}
  end.

Definition run (evs : list Event) (fp : FleetPage) : FleetPage :=
  fold_left (fun fp ev => step ev fp) evs fp.

Definition actives (l : list FilterButton) : list FilterButton :=
  filter active l.

(** The bar highlights one button, the first one of the current category,
    and whatever call is suspended asks for that category. *)
Definition highlight_ok (fp : FleetPage) : Prop :=
  (exists pre b post,
      bar fp = (pre ++ b :: post)%list /\
      active b = true /\
      data_category_id b = currentCategoryId (manager fp) /\
      actives pre = [] /\ actives post = [] /\
      forall x, In x pre ->
                CategoryId_eqb (data_category_id x)
                               (currentCategoryId (manager fp)) = false) /\
  forall p, In p (inflight (manager fp)) ->
            wanted p = currentCategoryId (manager fp).

Definition fresh_page : FleetPage :=
  {| manager := FleetSpec.fresh; filtersContainer := Some [] |}.

(** The highlight together with what keeps it: one suspended call at most. *)
Definition bar_ok (fp : FleetPage) : Prop :=
  highlight_ok fp /\ FleetSpec.one_in_flight (manager fp).

(** The page as [DOMContentLoaded] finds it: a new manager and whatever
    buttons the markup has inside [.fleet-filters]. *)
Definition loaded (getCars getCategories : bool) (grid : Markup)
           (markup : list FilterButton) : FleetPage :=
  {| manager := constructor getCars getCategories grid;
     filtersContainer := Some markup |}.

(** The grid shows the placeholder or the "none found" message. *)
Definition placeholder_or_none (g : Markup) : bool :=
  match g with
  | Html s => String.eqb s createNoCarsMessage
              || match skeleton with Html k => String.eqb s k | _ => false end
  | Cards _ _ => false
  end.

End FleetUI.

(* ================================================================== *)
(** * The language switcher, cut at its await *)

Module LangAsync.
Import Api Lang.

Section PropertyAccess.
Variable inherited : JValue -> string -> Completion JValue.

(** [setLanguage] up to [await loadDictionary(lang)]. *)
Definition setLanguage_begin (lang : string) (st : State) : State :=
  {| dictionary := dictionary st; currentLang := lang;
     stored := Some lang;
     doc := setActiveButton lang (doc st);
     log_errors := log_errors st |}.

(** [setLanguage] from the settling of [loadDictionary] on. *)
Definition setLanguage_resume (s : Settled JValue) (st : State) : State :=
  match s with
  | Resolved dict =>
      let (st', thrown) :=
        applyTranslations inherited
          {| dictionary := Some dict; currentLang := currentLang st;
             stored := stored st; doc := doc st;
             log_errors := log_errors st |} in
      if thrown then console_error "i18n error" st' else st'
  | Rejected => console_error "i18n error" st
  end.

End PropertyAccess.

Definition ru_dict : JValue :=
  JObj [("nav", JObj [("home", JStr "Главная"); ("about", JStr "О нас")])].

End LangAsync.

(* ================================================================== *)
(** * Printing and parsing integers *)

Section JSFacts.
Import JS.
Local Open Scope N_scope.

Lemma parse_digits_step c k s acc :
  digit_of c = Some k ->
  parse_digits digit_of 10 (String c s) acc
  = parse_digits digit_of 10 s (10 * acc + k).
Proof. intros H. simpl. rewrite H. reflexivity. Qed.

Lemma of_lu_rev_cons d :
  d <> Decimal.Nil ->
  Unsigned.of_lu (Decimal.rev d)
  = Unsigned.of_lu (Decimal.rev (Unsigned.tl d))
    + Unsigned.hd d * 10 ^ Unsigned.usize (Unsigned.tl d).
Proof.
  destruct d; [contradiction| ..]; intros _;
    unfold Decimal.rev; cbn [Decimal.revapp Unsigned.tl Unsigned.hd];
    rewrite Unsigned.of_lu_revapp; cbn [Unsigned.of_lu]; f_equal; lia.
Qed.

Lemma parse_digits_uint (d : Decimal.uint) (rest : string) :
  forall acc,
    parse_digits digit_of 10 (NilEmpty.string_of_uint d ++ rest) acc
    = parse_digits digit_of 10 rest
        (acc * 10 ^ Unsigned.usize d + Unsigned.of_lu (Decimal.rev d)).
Proof.
  induction d; intros acc;
    [ cbn [NilEmpty.string_of_uint append Unsigned.usize];
      f_equal; unfold Decimal.rev; cbn [Decimal.revapp Unsigned.of_lu];
      rewrite N.pow_0_r; lia | .. ];
    cbn [NilEmpty.string_of_uint append];
    erewrite parse_digits_step by (vm_compute; reflexivity);
    rewrite IHd; f_equal;
    rewrite (of_lu_rev_cons (_ d)) by discriminate;
    cbn [Unsigned.tl Unsigned.hd Unsigned.usize];
    rewrite N.pow_succ_r'; ring.
Qed.

Lemma parse_magnitude_uint (d : Decimal.uint) :
  d <> Decimal.Nil ->
  parse_magnitude (NilEmpty.string_of_uint d ++ "px")
  = Some (Unsigned.of_lu (Decimal.rev d)).
Proof.
  intros Hd.
  assert (E : parse_magnitude (NilEmpty.string_of_uint d ++ "px")
              = Some (parse_digits digit_of 10
                        (NilEmpty.string_of_uint d ++ "px") 0)).
  { destruct d as [|d|d|d|d|d|d|d|d|d|d]; [contradiction| ..];
      try reflexivity.
    destruct d; reflexivity. }
  rewrite E, parse_digits_uint. reflexivity.
Qed.

(** [parseInt] reads back the offset that the scroll lock wrote into
    [body.style.top]. *)
Lemma parseInt_top (y : Z) :
  (0 <= y)%Z -> parseInt ("-" ++ show_Z y ++ "px") = Some (- y)%Z.
Proof.
  intros Hy. destruct y as [|p|p]; [reflexivity| |lia].
  unfold show_Z, show_N.
  change ("-" ++ NilEmpty.string_of_uint (N.to_uint (N.pos p)) ++ "px")%string
    with (String "-" (NilEmpty.string_of_uint (N.to_uint (N.pos p)) ++ "px")).
  unfold parseInt. cbn [skip_spaces]. 
  replace (is_space "-") with false by reflexivity.
  rewrite parse_magnitude_uint.
  - rewrite <- Unsigned.of_uint_alt.
    change (Pos.of_uint (N.to_uint (N.pos p))) with (N.of_uint (N.to_uint (N.pos p))).
    rewrite DecimalN.Unsigned.of_to. reflexivity.
  - apply Unsigned.to_uint_nonnil.
Qed.

End JSFacts.

(* ================================================================== *)
(** * Properties of the drawer *)

Section DrawerSerialisation.
Import Drawer DrawerSpec.

Lemma animations_enqueue_other d k q :
  is_animation (d, k) = false ->
  animations (enqueue d k q) = animations q.
Proof.
  intros Hk. unfold animations.
  induction q as [|[d' k'] q IH]; simpl.
  - rewrite Hk. reflexivity.
  - destruct (d' <=? d); simpl.
    + rewrite IH. reflexivity.
    + rewrite Hk. reflexivity.
Qed.

Lemma animations_enqueue_length d k q :
  is_animation (d, k) = true ->
  List.length (animations (enqueue d k q)) = S (List.length (animations q)).
Proof.
  intros Hk. unfold animations.
  induction q as [|[d' k'] q IH]; simpl.
  - rewrite Hk. reflexivity.
  - destruct (d' <=? d); simpl.
    + destruct (is_animation (d', k')); simpl; rewrite IH; reflexivity.
    + rewrite Hk. reflexivity.
Qed.

(** *** The guards *)

Lemma openMobileMenu_animating w :
  isAnimating (mm w) = true -> openMobileMenu w = w.
Proof.
  intros H. unfold openMobileMenu. rewrite H, orb_true_r. reflexivity.
Qed.

Lemma closeMobileMenu_animating w :
  isAnimating (mm w) = true -> closeMobileMenu w = w.
Proof.
  intros H. unfold closeMobileMenu. rewrite H, orb_true_r. reflexivity.
Qed.

Lemma each_lift_fixed n h w :
  h w = w -> each n (lift h) w = Ok w.
Proof.
  intros H. induction n as [|n IH]; simpl; [reflexivity|].
  unfold lift at 1. rewrite H. simpl. exact IH.
Qed.

(** Repeating a listener that only arms the focus timeout keeps the
    drawer view. *)
Lemma each_toggle_animating n w :
  isAnimating (mm w) = true ->
  exists w', each n (fun w => Ok (toggleFocusHandler (toggleClickHandler w))) w
             = Ok w'
             /\ drawer_view w' = drawer_view w.
Proof.
  revert w. induction n as [|n IH]; intros w H; simpl.
  - eexists; split; reflexivity.
  - assert (Hs : toggleClickHandler w = w)
      by (unfold toggleClickHandler; rewrite H; reflexivity).
    rewrite Hs.
    destruct (IH (toggleFocusHandler w)) as [w' [E V]]; [exact H|].
    exists w'. split; [exact E|].
    rewrite V. unfold drawer_view, toggleFocusHandler, setTimeout. simpl.
    rewrite animations_enqueue_other by reflexivity. reflexivity.
Qed.

Lemma each_key_animating n key shift w :
  String.eqb key "Escape" = true ->
  isAnimating (mm w) = true ->
  each n (fun w => focusTrapHandler key shift (escapeKeyHandler key w)) w = Ok w.
Proof.
  intros Hk H. apply String.eqb_eq in Hk. subst key.
  induction n as [|n IH]; simpl; [reflexivity|].
  assert (Hs : escapeKeyHandler "Escape" w = w).
  { unfold escapeKeyHandler. destruct (_ && _)%bool; [|reflexivity].
    apply closeMobileMenu_animating, H. }
  rewrite Hs. unfold focusTrapHandler at 1.
  destruct (negb (isOpen (mm w))); simpl; exact IH.
Qed.

(** A link listener met by the guard still arms the scroll of an in-page
    anchor; the drawer view is as it was. *)
Lemma each_link_animating n href w :
  isAnimating (mm w) = true ->
  exists w', each n (lift (linkClickHandler href)) w = Ok w'
             /\ drawer_view w' = drawer_view w.
Proof.
  revert w. induction n as [|n IH]; intros w H; simpl.
  - eexists; split; reflexivity.
  - unfold lift at 1. simpl.
    assert (Hc := closeMobileMenu_animating w H).
    assert (Hs : linkClickHandler href w = w \/
                 exists h, linkClickHandler href w
                           = setTimeout (AnchorScroll h) 400 w).
    { unfold linkClickHandler, handleAnchorLinkClick.
      destruct href as [h|]; [|left; exact Hc].
      destruct (starts_with_hash h); [|left; exact Hc].
      right. exists h. rewrite Hc. reflexivity. }
    destruct Hs as [->|[h ->]]; [apply IH, H|].
    destruct (IH (setTimeout (AnchorScroll h) 400 w)) as [w' [E V]]; [exact H|].
    exists w'. split; [exact E|].
    rewrite V. unfold drawer_view, setTimeout. simpl.
    rewrite animations_enqueue_other by reflexivity. reflexivity.
Qed.

(** While an animation is in flight no trigger changes the drawer. *)
Lemma trigger_ignored_while_animating ev w :
  isAnimating (mm w) = true ->
  is_trigger ev = true ->
  exists w', dispatch ev w = Ok w' /\ drawer_view w' = drawer_view w.
Proof.
  intros H T.
  assert (Ho := openMobileMenu_animating w H).
  assert (Hc := closeMobileMenu_animating w H).
  destruct ev; simpl in T; try discriminate; simpl.
  - (* toggle *)
    destruct (has_toggle _); [apply each_toggle_animating, H|].
    eexists; split; reflexivity.
  - (* overlay click *)
    destruct (has_overlay _); [|eexists; split; reflexivity].
    rewrite each_lift_fixed; simpl.
    + rewrite each_lift_fixed; [eexists; split; reflexivity|].
      unfold handleOutsideClick. destruct (_ && _)%bool; auto.
    + unfold overlayClickHandler. destruct (isOpen _); auto.
  - destruct (has_closeBtn _); [|eexists; split; reflexivity].
    rewrite each_lift_fixed; [eexists; split; reflexivity|].
    exact Hc.
  - destruct (0 <? _)%nat; [|eexists; split; reflexivity].
    apply each_link_animating, H.
  - rewrite each_key_animating by assumption.
    eexists; split; reflexivity.
  - rewrite each_lift_fixed; [eexists; split; reflexivity|].
    unfold handleOutsideClick. destruct (_ && _)%bool; auto.
  - destruct (has_nav _); [|eexists; split; reflexivity].
    rewrite each_lift_fixed; [eexists; split; reflexivity|].
    unfold navTouchEnd. rewrite H, orb_true_r. reflexivity.
  - destruct (has_overlay _); [|eexists; split; reflexivity].
    rewrite each_lift_fixed; [eexists; split; reflexivity|].
    unfold overlayTouchEnd. destruct (_ <? _); auto.
  - rewrite Ho. eexists; split; reflexivity.
  - rewrite Hc. eexists; split; reflexivity.
  - unfold apiToggle. destruct (isOpen _); rewrite ?Ho, ?Hc;
      eexists; split; reflexivity.
Qed.

Lemma each_invariant (Q : World -> Prop) n h :
  (forall w w', Q w -> h w = Ok w' -> Q w') ->
  forall w w', Q w -> each n h w = Ok w' -> Q w'.
Proof.
  intros Hh. induction n as [|n IH]; intros w w' Qw E; simpl in E.
  - inversion E. subst. exact Qw.
  - destruct (h w) as [w1|] eqn:E1; simpl in E; [|discriminate].
    eapply IH; [|exact E]. eapply Hh; eassumption.
Qed.

Lemma each_lift_invariant (Q : World -> Prop) n h :
  (forall w, Q w -> Q (h w)) ->
  forall w w', Q w -> each n (lift h) w = Ok w' -> Q w'.
Proof.
  intros Hh. apply each_invariant. intros w w' Qw E.
  inversion E. subst. apply Hh, Qw.
Qed.

(** *** Invariants of the timer queue and the animating flag

    A property of the pending timeouts and the animating flag that
    survives arming and firing a timeout survives every event. *)

Section QueueInvariant.
Variable P : list (Z * Timer) -> bool -> bool -> Prop.
Hypothesis P_open : forall q d,
    P q false false -> P (enqueue d OpenDone q) true true.
Hypothesis P_close : forall q d b,
    P q true false -> P (enqueue d (CloseDone b) q) true true.
Hypothesis P_other : forall q o a d k,
    is_animation (d, k) = false -> P q o a -> P (enqueue d k q) o a.
Hypothesis P_fire_open : forall q o a d,
    P ((d, OpenDone) :: q) o a -> P q o false.
Hypothesis P_fire_close : forall q o a d b,
    P ((d, CloseDone b) :: q) o a -> P q false false.
Hypothesis P_fire_other : forall q o a d k,
    is_animation (d, k) = false -> P ((d, k) :: q) o a -> P q o a.

Local Abbreviation holds := (inv P).


Lemma inv_same w w' :
  timers w' = timers w ->
  isOpen (mm w') = isOpen (mm w) ->
  isAnimating (mm w') = isAnimating (mm w) ->
  holds w -> holds w'.
Proof. unfold inv. intros -> -> ->. trivial. Qed.

Lemma inv_open w : holds w -> holds (openMobileMenu w).
Proof.
  unfold openMobileMenu.
  destruct (isOpen (mm w) || isAnimating (mm w))%bool eqn:G; [trivial|].
  apply orb_false_elim in G. destruct G as [Go G].
  unfold inv. rewrite G, Go. cbn. apply P_open.
Qed.

Lemma inv_close w : holds w -> holds (closeMobileMenu w).
Proof.
  unfold closeMobileMenu.
  destruct (negb (isOpen (mm w)) || isAnimating (mm w))%bool eqn:G; [trivial|].
  apply orb_false_elim in G. destruct G as [Go G].
  apply negb_false_iff in Go.
  unfold inv. rewrite G, Go. cbn. rewrite Go. apply P_close.
Qed.

Lemma inv_fire d k q w :
  holds (set_timers ((d, k) :: q) w) ->
  forall t, holds (fire k (set_now t (set_timers q w))).
Proof.
  unfold inv. cbn. intros H t.
  destruct k; cbn in *.
  - apply P_fire_open in H.
    destruct (has_closeBtn _); cbn; exact H.
  - apply P_fire_close in H.
    destruct toggle; cbn; exact H.
  - apply P_fire_other in H; [|reflexivity].
    destruct (isOpen (mm w)) eqn:Eo; [destruct (has_closeBtn _)|]; cbn;
      rewrite ?Eo; exact H.
  - apply P_fire_other in H; [|reflexivity]. exact H.
  - apply P_fire_other in H; [|reflexivity]. exact H.
  - apply P_fire_other in H; [|reflexivity].
    destruct (querySelector _ href); cbn; exact H.
Qed.

Lemma fire_timers k w : timers (fire k w) = timers w.
Proof.
  destruct k; cbn.
  - destruct (has_closeBtn _); reflexivity.
  - destruct toggle; reflexivity.
  - destruct (isOpen _); [destruct (has_closeBtn _)|]; reflexivity.
  - reflexivity.
  - reflexivity.
  - destruct (querySelector _ href); reflexivity.
Qed.

Lemma set_timers_fire q k w :
  timers w = q -> set_timers q (fire k w) = fire k w.
Proof.
  intros H. rewrite <- (fire_timers k w) in H.
  destruct (fire k w); cbn in *. subst. reflexivity.
Qed.

Lemma inv_run_due target q :
  forall w, holds (set_timers q w) -> holds (run_due target q w).
Proof.
  induction q as [|[d k] q IH]; intros w H; simpl.
  - exact H.
  - destruct (d <=? target); [|exact H].
    apply IH.
    rewrite set_timers_fire by reflexivity.
    apply inv_fire with (d := d). exact H.
Qed.

Lemma set_timers_same w : set_timers (timers w) w = w.
Proof. destruct w; reflexivity. Qed.

Lemma inv_elapse ms w : holds w -> holds (elapse ms w).
Proof.
  intros H. unfold elapse.
  apply inv_same with (w := run_due (now w + Z.max 0 ms) (timers w) w);
    try reflexivity.
  apply inv_run_due. rewrite set_timers_same. exact H.
Qed.

Lemma inv_dispatch ev w w' :
  holds w -> dispatch ev w = Ok w' -> holds w'.
Proof.
  intros S E.
  assert (Hclose : forall w, holds w -> holds (closeMobileMenu w))
    by (intros; apply inv_close; assumption).
  assert (Hout : forall w, holds w -> holds (handleOutsideClick w)).
  { intros v Sv. unfold handleOutsideClick.
    destruct (_ && _)%bool; auto. }
  destruct ev; simpl in E.
  - (* Init *)
    inversion E; subst. revert S. unfold initMobileMenu.
    assert (Ho : holds w -> holds (set_page ensureOverlay w))
      by (apply inv_same; reflexivity).
    intros S. apply Ho in S.
    destruct (_ || _)%bool; revert S; apply inv_same; reflexivity.
  - destruct (has_toggle _); [|inversion E; subst; exact S].
    revert E. apply each_invariant; [|exact S].
    intros v v' Sv Ev. inversion Ev; subst.
    assert (St : holds (toggleClickHandler v)).
    { unfold toggleClickHandler.
      destruct (isAnimating (mm v)); [exact Sv|].
      destruct (isOpen (mm v)); [apply inv_close|apply inv_open];
        exact Sv. }
    revert St. unfold inv, toggleFocusHandler, setTimeout. cbn.
    apply P_other. reflexivity.
  - destruct (has_overlay _); [|inversion E; subst; exact S].
    destruct (each _ (lift overlayClickHandler) w) as [w1|] eqn:E1;
      simpl in E; [|discriminate].
    revert E. apply each_lift_invariant; [exact Hout|].
    revert E1. apply each_lift_invariant; [|exact S].
    intros v Sv. unfold overlayClickHandler. destruct (isOpen _); auto.
  - destruct (has_closeBtn _); [|inversion E; subst; exact S].
    revert E. apply each_lift_invariant; [exact Hclose|exact S].
  - destruct (0 <? _)%nat; [|inversion E; subst; exact S].
    revert E. apply each_lift_invariant; [|exact S].
    intros v Sv. unfold linkClickHandler, handleAnchorLinkClick.
    destruct href as [h|]; [|apply Hclose, Sv].
    destruct (starts_with_hash h); [|apply Hclose, Sv].
    apply Hclose in Sv. revert Sv. unfold inv, setTimeout. cbn.
    apply P_other. reflexivity.
  - revert E. apply each_invariant; [|exact S].
    intros v v' Sv Ev.
    assert (Se : holds (escapeKeyHandler key v)).
    { unfold escapeKeyHandler. destruct (_ && _)%bool; auto. }
    revert Ev Se. generalize (escapeKeyHandler key v). intros u Eu Su.
    unfold focusTrapHandler in Eu.
    repeat match type of Eu with
           | (if ?c then _ else _) = _ => destruct c
           end; inversion Eu; subst; try exact Su;
      revert Su; apply inv_same; reflexivity.
  - revert E. apply each_lift_invariant; [exact Hout|exact S].
  - destruct (has_nav _); [|inversion E; subst; exact S].
    revert E. apply each_lift_invariant; [|exact S].
    intros v. apply inv_same; reflexivity.
  - destruct (has_nav _); [|inversion E; subst; exact S].
    revert E. apply each_lift_invariant; [|exact S].
    intros v Sv. unfold navTouchMove.
    destruct (_ || _)%bool; [exact Sv|].
    destruct (_ && _)%bool; [|exact Sv].
    revert Sv. apply inv_same; reflexivity.
  - destruct (has_nav _); [|inversion E; subst; exact S].
    revert E. apply each_lift_invariant; [|exact S].
    intros v Sv. unfold navTouchEnd.
    destruct (_ || _)%bool; [exact Sv|].
    assert (S1 : holds (set_page (set_nav_transform None) v))
      by (revert Sv; apply inv_same; reflexivity).
    cbv zeta. destruct (_ || _)%bool; auto.
  - destruct (has_overlay _); [|inversion E; subst; exact S].
    revert E. apply each_lift_invariant; [|exact S].
    intros v. apply inv_same; reflexivity.
  - destruct (has_overlay _); [|inversion E; subst; exact S].
    revert E. apply each_lift_invariant; [|exact S].
    intros v Sv. unfold overlayTouchEnd. destruct (_ <? _); auto.
  - revert E. apply each_lift_invariant.
    + intros v Sv. unfold handleMenuResize.
      set (v1 := if has_nav _ then _ else v).
      assert (S1 : holds v1).
      { subst v1. destruct (has_nav _); [|exact Sv].
        revert Sv. apply inv_same; reflexivity. }
      destruct (_ && _)%bool; auto.
    + revert S. apply inv_same; reflexivity.
  - inversion E; subst. unfold handleMenuResize.
    set (v1 := if has_nav _ then _ else w).
    assert (S1 : holds v1).
    { subst v1. destruct (has_nav _); [|exact S].
      revert S. apply inv_same; reflexivity. }
    destruct (_ && _)%bool; auto.
  - inversion E; subst. unfold scrollListener.
    destruct (scroll_pending _).
    + revert S. apply inv_same; reflexivity.
    + revert S. unfold inv. cbn. apply P_other. reflexivity.
  - inversion E; subst. revert S. apply inv_same; reflexivity.
  - inversion E; subst. apply inv_elapse, S.
  - inversion E; subst. apply inv_open, S.
  - inversion E; subst. apply inv_close, S.
  - inversion E; subst. unfold apiToggle.
    destruct (isOpen _); [apply inv_close|apply inv_open]; exact S.
Qed.

Lemma inv_run evs :
  forall w w', holds w -> run evs w = Ok w' -> holds w'.
Proof.
  induction evs as [|ev evs IH]; intros w w' S E; simpl in E.
  - inversion E; subst; exact S.
  - destruct (dispatch ev w) as [w1|] eqn:E1; simpl in E; [|discriminate].
    eapply IH; [|exact E]. eapply inv_dispatch; eassumption.
Qed.

End QueueInvariant.

(** *** The two instances: serialisation and deadline order *)

Lemma In_enqueue x d k q :
  In x (enqueue d k q) -> x = (d, k) \/ In x q.
Proof.
  induction q as [|[d' k'] q IH]; simpl.
  - intros [H|[]]; auto.
  - destruct (d' <=? d); simpl.
    + intros [H|H]; auto. destruct (IH H); auto.
    + intros [H|[H|H]]; auto.
Qed.

Lemma sorted_enqueue d k q : sorted q -> sorted (enqueue d k q).
Proof.
  induction q as [|[d' k'] q IH]; simpl.
  - intros _. split; [intros x []|exact I].
  - intros [Hle Hs]. destruct (d' <=? d) eqn:E; simpl.
    + split; [|apply IH, Hs].
      intros x Hx. apply In_enqueue in Hx. destruct Hx as [->|Hx].
      * simpl. apply Z.leb_le, E.
      * apply Hle, Hx.
    + apply Z.leb_gt in E. split; [|split; assumption].
      intros x [<-|Hx]; simpl; [lia|].
      specialize (Hle x Hx). lia.
Qed.

Lemma reachable_serialised evs w w' :
  serialised w -> run evs w = Ok w' -> serialised w'.
Proof.
  intros S E.
  refine (inv_run (fun q _ a => List.length (animations q)
                                = if a then 1%nat else 0%nat)
                  _ _ _ _ _ _ evs w w' S E).
  - intros q d H. rewrite animations_enqueue_length, H; reflexivity.
  - intros q d b H. rewrite animations_enqueue_length, H; reflexivity.
  - intros q o a d k Hk H. rewrite animations_enqueue_other by exact Hk.
    exact H.
  - intros q o a d. unfold animations. simpl.
    destruct a; intros H; [|discriminate]. injection H as H. exact H.
  - intros q o a d b. unfold animations. simpl.
    destruct a; intros H; [|discriminate]. injection H as H. exact H.
  - intros q o a d k Hk. unfold animations. simpl. simpl in Hk. rewrite Hk.
    trivial.
Qed.

Lemma reachable_sorted evs w w' :
  sorted (timers w) -> run evs w = Ok w' -> sorted (timers w').
Proof.
  intros S E.
  refine (inv_run (fun q _ _ => sorted q) _ _ _ _ _ _ evs w w' S E).
  - intros q d. apply sorted_enqueue.
  - intros q d b. apply sorted_enqueue.
  - intros q o a d k _. apply sorted_enqueue.
  - intros q o a d [_ H]. exact H.
  - intros q o a d b [_ H]. exact H.
  - intros q o a d k _ [_ H]. exact H.
Qed.

(** The animating flag is never set on a drawer that is not open. *)
Lemma reachable_animating_open evs w w' :
  (isAnimating (mm w) = true -> isOpen (mm w) = true) ->
  run evs w = Ok w' ->
  isAnimating (mm w') = true -> isOpen (mm w') = true.
Proof.
  intros S E.
  refine (inv_run (fun _ o a => a = true -> o = true)
                  _ _ _ _ _ _ evs w w' S E); try discriminate; trivial.
Qed.

(** *** Letting time pass *)

Lemma flags_fire_other k w :
  is_animation (0, k) = false -> flags (fire k w) = flags w.
Proof.
  destruct k; simpl; try discriminate; intros _; unfold flags.
  - destruct (isOpen (mm w)) eqn:E; [destruct (has_closeBtn _)|];
      cbn; rewrite ?E; reflexivity.
  - reflexivity.
  - reflexivity.
  - destruct (querySelector _ href); reflexivity.
Qed.

Lemma flags_run_due_quiet target q :
  animations q = [] ->
  forall w, flags (run_due target q w) = flags w.
Proof.
  induction q as [|[d k] q IH]; intros Hq w; simpl.
  - reflexivity.
  - destruct (d <=? target); [|reflexivity].
    unfold animations in Hq. simpl in Hq.
    destruct (is_animation (d, k)) eqn:Hk; [discriminate|].
    rewrite IH by exact Hq.
    rewrite flags_fire_other by exact Hk. reflexivity.
Qed.

(** The one pending animation timeout has run once its deadline has
    passed: the flags are those its callback leaves. *)
Lemma flags_run_due_animation target q d0 k0 :
  sorted q -> animations q = [(d0, k0)] -> d0 <= target ->
  forall w,
    flags (run_due target q w)
    = match k0 with
      | CloseDone _ => (false, false)
      | _ => (isOpen (mm w), false)
      end.
Proof.
  induction q as [|[d k] q IH]; intros Hs Hq Hd w; [discriminate|].
  simpl in Hs. destruct Hs as [Hle Hs].
  unfold animations in Hq. simpl in Hq. simpl.
  destruct (is_animation (d, k)) eqn:Hk.
  - injection Hq as -> -> Hq.
    replace (d0 <=? target) with true by (symmetry; apply Z.leb_le, Hd).
    rewrite flags_run_due_quiet by exact Hq.
    destruct k0; try discriminate; unfold flags; cbn.
    + destruct (has_closeBtn _); reflexivity.
    + destruct toggle; reflexivity.
  - assert (Hin : In (d0, k0) q).
    { assert (Hf : In (d0, k0) (filter is_animation q))
        by (rewrite Hq; left; reflexivity).
      apply filter_In in Hf. apply Hf. }
    specialize (Hle _ Hin). simpl in Hle.
    replace (d <=? target) with true by (symmetry; apply Z.leb_le; lia).
    rewrite IH by assumption.
    assert (Hf := flags_fire_other k (set_now (Z.max (now w) d) (set_timers q w)) Hk).
    unfold flags in Hf. cbn in Hf. injection Hf as Ho _.
    destruct k0; try reflexivity; rewrite Ho; reflexivity.
Qed.

(** An animation timeout that is not yet due keeps the flags. *)
Lemma flags_run_due_early target q d0 k0 :
  animations q = [(d0, k0)] -> target < d0 ->
  forall w, flags (run_due target q w) = flags w.
Proof.
  induction q as [|[d k] q IH]; intros Hq Hd w; [discriminate|].
  unfold animations in Hq. simpl in Hq. simpl.
  destruct (is_animation (d, k)) eqn:Hk.
  - injection Hq as -> -> Hq.
    replace (d0 <=? target) with false by (symmetry; apply Z.leb_gt, Hd).
    reflexivity.
  - destruct (d <=? target); [|reflexivity].
    rewrite IH by assumption.
    rewrite flags_fire_other by exact Hk. reflexivity.
Qed.

Lemma animations_enqueue_first d k q :
  is_animation (d, k) = true -> animations q = [] ->
  animations (enqueue d k q) = [(d, k)].
Proof.
  intros Hk. unfold animations.
  induction q as [|[d' k'] q IH]; simpl; intros Hq.
  - rewrite Hk. reflexivity.
  - destruct (is_animation (d', k')) eqn:E'; [discriminate|].
    destruct (d' <=? d); simpl.
    + rewrite E'. apply IH, Hq.
    + rewrite Hk, E', Hq. reflexivity.
Qed.

Lemma flags_elapse ms w :
  flags (elapse ms w)
  = flags (run_due (now w + Z.max 0 ms) (timers w) w).
Proof. reflexivity. Qed.

(** *** Starting a close from the open phase *)

Lemma layout_fire k w : layout (page (fire k w)) = layout (page w).
Proof.
  destruct k; cbn.
  - destruct (has_closeBtn _); reflexivity.
  - destruct toggle; reflexivity.
  - destruct (isOpen _); [destruct (has_closeBtn _)|]; reflexivity.
  - reflexivity.
  - reflexivity.
  - destruct (querySelector _ href); reflexivity.
Qed.

Lemma layout_run_due target q :
  forall w, layout (page (run_due target q w)) = layout (page w).
Proof.
  induction q as [|[d k] q IH]; intros w; simpl; [reflexivity|].
  destruct (d <=? target); [|reflexivity].
  rewrite IH, layout_fire. reflexivity.
Qed.

Lemma layout_elapse ms w : layout (page (elapse ms w)) = layout (page w).
Proof. unfold elapse. cbn. apply layout_run_due. Qed.

(** A timeout callback leaves a drawer that is shown closed as it is:
    [enhanceAccessibility] writes the closed ARIA values again. *)
Lemma shut_fire k w : shut (page w) -> shut (page (fire k w)).
Proof.
  unfold shut. intros [H1 [H2 [H3 [H4 H5]]]].
  destruct k; cbn.
  - destruct (has_closeBtn _); cbn; repeat split; tauto.
  - destruct toggle; cbn; repeat split; tauto.
  - destruct (isOpen _); [destruct (has_closeBtn _)|]; cbn;
      repeat split; tauto.
  - repeat split; tauto.
  - split; [exact H1|]. split; [exact H2|].
    split; [intros Ht; rewrite Ht; split; [apply H3, Ht|reflexivity]|].
    split; [intros Hn; rewrite Hn; split; [apply H4, Hn|reflexivity]|].
    exact H5.
  - destruct (querySelector _ href); cbn; repeat split; tauto.
Qed.

Lemma shut_run_due target q :
  forall w, shut (page w) -> shut (page (run_due target q w)).
Proof.
  induction q as [|[d k] q IH]; intros w H; simpl; [exact H|].
  destruct (d <=? target); [|exact H].
  apply IH. apply shut_fire. exact H.
Qed.

Lemma shut_elapse ms w : shut (page w) -> shut (page (elapse ms w)).
Proof. unfold elapse. cbn. apply shut_run_due. Qed.

Lemma serialised_quiet w :
  serialised w -> isAnimating (mm w) = false -> animations (timers w) = [].
Proof.
  unfold serialised. intros H A. rewrite A in H.
  destruct (animations (timers w)); [reflexivity|discriminate].
Qed.

Lemma shut_closeMobileMenu w :
  flags w = (true, false) -> shut (page (closeMobileMenu w)).
Proof.
  unfold flags. intros F. injection F as Fo Fa.
  unfold closeMobileMenu. rewrite Fo, Fa. cbn.
  unfold shut, ensureOverlay.
  destruct (has_overlay (els (page w))) eqn:Ho; cbn; rewrite ?Ho; cbn;
    (split; [reflexivity|]); (split; [reflexivity|]);
    (split; [intros ->; split; reflexivity|]);
    (split; [intros ->; split; reflexivity|]); reflexivity.
Qed.

(** A close that starts in the open phase enters the closing phase at
    once, with the drawer already shown as closed; the flags stay set
    until 350 ms have passed and are both clear from then on. *)
Lemma closeMobileMenu_from_open w :
  serialised w -> sorted (timers w) -> flags w = (true, false) ->
  let w' := closeMobileMenu w in
  phase w' = Closing /\
  flags w' = (true, true) /\
  shut (page w') /\
  (forall ms, ms < 350 -> flags (elapse ms w') = (true, true)) /\
  (forall ms, 350 <= ms ->
     phase (elapse ms w') = Closed /\ shut (page (elapse ms w'))).
Proof.
  intros S So F w'.
  assert (Hshut : shut (page w')) by (apply shut_closeMobileMenu, F).
  unfold flags in F. injection F as Fo Fa.
  assert (Hq := serialised_quiet w S Fa).
  assert (Ht : timers w' = enqueue (now w + 350)
                             (CloseDone (has_toggle (els (page w)))) (timers w)).
  { subst w'. unfold closeMobileMenu. rewrite Fo, Fa. cbn.
    unfold ensureOverlay. destruct (has_overlay _); reflexivity. }
  assert (Hn : now w' = now w).
  { subst w'. unfold closeMobileMenu. rewrite Fo, Fa. reflexivity. }
  assert (Hf : flags w' = (true, true)).
  { subst w'. unfold closeMobileMenu, flags. rewrite Fo, Fa. cbn.
    rewrite Fo. reflexivity. }
  assert (Ha : animations (timers w')
               = [(now w + 350, CloseDone (has_toggle (els (page w))))]).
  { rewrite Ht. apply animations_enqueue_first; [reflexivity|exact Hq]. }
  assert (Hs : sorted (timers w')) by (rewrite Ht; apply sorted_enqueue, So).
  split.
  { assert (Ea : isAnimating (mm w') = true) by exact (f_equal snd Hf).
    unfold phase. rewrite Ha, Ea. reflexivity. }
  split; [exact Hf|]. split; [exact Hshut|]. split.
  - intros ms Hms. rewrite flags_elapse.
    rewrite (flags_run_due_early _ _ _ _ Ha); [exact Hf|]. rewrite Hn. lia.
  - intros ms Hms.
    assert (Hfl : flags (elapse ms w') = (false, false)).
    { rewrite flags_elapse.
      rewrite (flags_run_due_animation _ _ _ _ Hs Ha); [reflexivity|].
      rewrite Hn. lia. }
    split.
    + assert (Eo : isOpen (mm (elapse ms w')) = false)
        by exact (f_equal fst Hfl).
      assert (Ea : isAnimating (mm (elapse ms w')) = false)
        by exact (f_equal snd Hfl).
      unfold phase. rewrite Ea, Eo. reflexivity.
    + apply shut_elapse, Hshut.
Qed.

Lemma each_lift_settles n h w :
  h (h w) = h w -> each (S n) (lift h) w = Ok (h w).
Proof.
  intros H. simpl. unfold lift at 1. simpl. apply each_lift_fixed, H.
Qed.

Lemma closeMobileMenu_twice w :
  closeMobileMenu (closeMobileMenu w) = closeMobileMenu w.
Proof.
  destruct (negb (isOpen (mm w)) || isAnimating (mm w))%bool eqn:G.
  - assert (H : closeMobileMenu w = w)
      by (unfold closeMobileMenu; rewrite G; reflexivity).
    rewrite H. exact H.
  - apply closeMobileMenu_animating.
    unfold closeMobileMenu. rewrite G. reflexivity.
Qed.

Lemma page_load_serialised e iw nw y : serialised (page_load e iw nw y).
Proof. reflexivity. Qed.

Lemma page_load_sorted e iw nw y : sorted (timers (page_load e iw nw y)).
Proof. simpl. split; [intros x []|exact I]. Qed.

(** C1.  After any sequence of events from page load, transitions are
    serialised: the animating flag is set exactly while one animation
    timeout is pending and there is never a second one.  While the flag
    is set, [openMobileMenu] and [closeMobileMenu] return the state they
    were given, and every trigger (toggle, overlay, close button, link,
    Escape, outside click, swipe release, public API) leaves the flags,
    classes, ARIA attributes, scroll lock, scroll offset and pending
    animation untouched. *)
Theorem transitions_serialised :
  forall e iw nw y evs w,
    run evs (page_load e iw nw y) = Ok w ->
    serialised w /\
    (isAnimating (mm w) = true ->
     openMobileMenu w = w /\
     closeMobileMenu w = w /\
     forall ev, is_trigger ev = true ->
       exists w', dispatch ev w = Ok w' /\ drawer_view w' = drawer_view w).
Proof.
  intros e iw nw y evs w E. split.
  - eapply reachable_serialised; [|exact E]. apply page_load_serialised.
  - intros H. split; [apply openMobileMenu_animating, H|].
    split; [apply closeMobileMenu_animating, H|].
    intros ev T. apply trigger_ignored_while_animating; assumption.
Qed.

Lemma transitions_serialised_witness :
  let w := after [ToggleClick] (phone 120) in
  run [Init; Init; ToggleClick] (page_load full_markup 390 300 120) = Ok w /\
  isAnimating (mm w) = true /\
  openMobileMenu w = w /\ closeMobileMenu w = w.
Proof.
  intros w.
  assert (E : run [Init; Init; ToggleClick] (page_load full_markup 390 300 120)
              = Ok w) by (vm_compute; reflexivity).
  assert (A : isAnimating (mm w) = true) by (vm_compute; reflexivity).
  destruct (transitions_serialised _ _ _ _ _ _ E) as [_ G].
  destruct (G A) as [Ho [Hc _]].
  split; [exact E|]. split; [exact A|]. split; [exact Ho|exact Hc].
Defined.

(** *** Swipe release *)

Lemma phase_open_flags w : phase w = Open -> flags w = (true, false).
Proof.
  unfold phase, flags.
  destruct (isAnimating (mm w)).
  - destruct (animations (timers w)) as [|[d [| | | | |]] q]; discriminate.
  - destruct (isOpen (mm w)); [reflexivity|discriminate].
Qed.

Lemma navTouchEnd_unfold x w :
  flags w = (true, false) ->
  navTouchEnd x w
  = let v := set_page (set_nav_transform None) w in
    if ((swipeThreshold (mm w) <? x - touchStartX (mm w))
        || velocity_exceeds (x - touchStartX (mm w))
             (option_map (fun t0 => now w - t0) (touchStartTime (mm w))))%bool
    then closeMobileMenu v else v.
Proof.
  unfold flags. intros F. injection F as Fo Fa.
  unfold navTouchEnd. rewrite Fo, Fa. reflexivity.
Qed.

Lemma navTouchEnd_twice x w :
  flags w = (true, false) ->
  navTouchEnd x (navTouchEnd x w) = navTouchEnd x w.
Proof.
  intros F. rewrite (navTouchEnd_unfold x w F). cbv zeta.
  destruct (_ || _)%bool eqn:G.
  - unfold navTouchEnd at 1.
    replace (isAnimating (mm (closeMobileMenu (set_page (set_nav_transform None) w))))
      with true; [rewrite orb_true_r; reflexivity|].
    unfold flags in F. injection F as Fo Fa.
    unfold closeMobileMenu. cbn. rewrite Fo, Fa. reflexivity.
  - rewrite navTouchEnd_unfold by exact F. cbn.
    rewrite G. destruct w as [m p n q sp c o]. reflexivity.
Qed.

(** C2.  On the open drawer (panel present and wired), with
    [dx = clientX - touchStartX] and [dt] the time since touchstart:
    when [dx / dt] does not exceed 0.3 px/ms, a release at
    [dx = swipeThreshold + 1] starts the close, which is complete 350 ms
    later, and a release at [dx = swipeThreshold - 1] leaves the drawer
    open with its transform reset and nothing else changed; when
    [dx / dt] exceeds 0.3 the release closes whatever [dx] is. *)
Theorem swipe_release_threshold :
  forall e iw nw y evs w x,
    run evs (page_load e iw nw y) = Ok w ->
    phase w = Open ->
    has_nav (els (page w)) = true ->
    (0 < core_listeners w)%nat ->
    let dx := x - touchStartX (mm w) in
    let dt := option_map (fun t0 => now w - t0) (touchStartTime (mm w)) in
    let closes :=
      exists w', dispatch (NavTouchEnd x) w = Ok w' /\
                 phase w' = Closing /\ shut (page w') /\
                 nav_transform (page w') = None /\
                 forall ms, 350 <= ms -> phase (elapse ms w') = Closed in
    (velocity_exceeds dx dt = false ->
     dx = swipeThreshold (mm w) + 1 -> closes) /\
    (velocity_exceeds dx dt = false ->
     dx = swipeThreshold (mm w) - 1 ->
     exists w', dispatch (NavTouchEnd x) w = Ok w' /\
                phase w' = Open /\
                nav_transform (page w') = None /\
                drawer_view w' = drawer_view w) /\
    (velocity_exceeds dx dt = true -> closes).
Proof.
  intros e iw nw y evs w x E Ph Hnav Hn dx dt closes.
  assert (F := phase_open_flags w Ph).
  assert (S := reachable_serialised _ _ _ (page_load_serialised e iw nw y) E).
  assert (So := reachable_sorted _ _ _ (page_load_sorted e iw nw y) E).
  destruct (core_listeners w) as [|n] eqn:En; [inversion Hn|].
  assert (D : dispatch (NavTouchEnd x) w = Ok (navTouchEnd x w)).
  { simpl. rewrite Hnav, En. apply each_lift_settles, navTouchEnd_twice, F. }
  assert (Hclose :
    ((swipeThreshold (mm w) <? dx) || velocity_exceeds dx dt)%bool = true ->
    closes).
  { intros G. exists (navTouchEnd x w). split; [exact D|].
    rewrite (navTouchEnd_unfold x w F). cbv zeta. fold dx. fold dt. rewrite G.
    set (v := set_page (set_nav_transform None) w).
    destruct (closeMobileMenu_from_open v) as [P1 [P2 [P3 [P4 P5]]]];
      [exact S|exact So|exact F|].
    split; [exact P1|]. split; [exact P3|]. split.
    - unfold flags in F. injection F as Fo Fa.
      unfold closeMobileMenu. subst v. cbn. rewrite Fo, Fa. cbn.
      unfold ensureOverlay. destruct (has_overlay _); reflexivity.
    - intros ms Hms. apply P5, Hms. }
  split; [|split].
  - intros V Hdx. apply Hclose. rewrite V, orb_false_r. apply Z.ltb_lt. lia.
  - intros V Hdx. exists (navTouchEnd x w). split; [exact D|].
    rewrite (navTouchEnd_unfold x w F). cbv zeta. fold dx. fold dt. rewrite V.
    replace (swipeThreshold (mm w) <? dx) with false
      by (symmetry; apply Z.ltb_ge; lia).
    simpl. split; [exact Ph|]. split; reflexivity.
  - intros V. apply Hclose. rewrite V. apply orb_true_r.
Qed.

Lemma swipe_release_threshold_witness :
  let w := after [ToggleClick; Elapse 350; NavTouchStart 100 200; Elapse 200]
                 (phone 0) in
  exists w', dispatch (NavTouchEnd 151) w = Ok w' /\ phase w' = Closing.
Proof.
  intros w.
  assert (E : run [Init; Init; ToggleClick; Elapse 350;
                   NavTouchStart 100 200; Elapse 200]
                  (page_load full_markup 390 300 0) = Ok w)
    by (vm_compute; reflexivity).
  assert (Ph : phase w = Open) by (vm_compute; reflexivity).
  assert (Hn : has_nav (els (page w)) = true) by (vm_compute; reflexivity).
  assert (Hl : (0 < core_listeners w)%nat) by (vm_compute; lia).
  destruct (swipe_release_threshold _ _ _ _ _ _ 151 E Ph Hn Hl) as [H _].
  destruct H as [w' [D [P _]]];
    [vm_compute; reflexivity|vm_compute; reflexivity|].
  exists w'. split; [exact D|exact P].
Defined.

(** *** Resize *)

Lemma handleMenuResize_open w :
  flags w = (true, false) -> 768 < innerWidth (page w) ->
  handleMenuResize w = closeMobileMenu (remeasure w).
Proof.
  unfold flags. intros F Hw. injection F as Fo Fa.
  unfold handleMenuResize. fold (remeasure w).
  replace (768 <? innerWidth (page (remeasure w))) with true.
  - replace (isOpen (mm (remeasure w))) with true; [reflexivity|].
    unfold remeasure. destruct (has_nav _); cbn; symmetry; exact Fo.
  - symmetry. apply Z.ltb_lt.
    unfold remeasure. destruct (has_nav _); exact Hw.
Qed.

Lemma remeasure_frame w :
  timers (remeasure w) = timers w /\ flags (remeasure w) = flags w /\
  now (remeasure w) = now w.
Proof. unfold remeasure. destruct (has_nav _); repeat split. Qed.

Lemma handleMenuResize_twice w :
  flags w = (true, false) -> 768 < innerWidth (page w) ->
  handleMenuResize (handleMenuResize w) = handleMenuResize w.
Proof.
  intros F Hw. rewrite (handleMenuResize_open w F Hw).
  unfold flags in F. injection F as Fo Fa.
  destruct w as [m p n q sp c o]. destruct m. destruct p as [e cl ar nt oo bs sy iw nw ae di wa].
  destruct e as [ht hn ho hc li]. cbn in *. subst.
  unfold remeasure, handleMenuResize, closeMobileMenu, ensureOverlay.
  destruct hn, ho; cbn; destruct (768 <? iw); reflexivity.
Qed.

(** C9.  On an initialised drawer in the open phase, a resize to a
    width above 768 px closes it at once through the ordinary
    [closeMobileMenu]: the animating flag is clear when the call is made,
    so its guard lets the call through; the drawer is shown closed
    immediately and the close is complete 350 ms later. *)
Theorem resize_to_desktop_closes :
  forall e iw nw y evs w width navWidth,
    run evs (page_load e iw nw y) = Ok w ->
    phase w = Open ->
    (0 < core_listeners w)%nat ->
    768 < width ->
    exists v w',
      dispatch (Resize width navWidth) w = Ok w' /\
      isAnimating (mm v) = false /\ w' = closeMobileMenu v /\
      phase w' = Closing /\ shut (page w') /\
      forall ms, 350 <= ms ->
        phase (elapse ms w') = Closed /\ shut (page (elapse ms w')).
Proof.
  intros e iw nw y evs w width navWidth E Ph Hn Hw.
  assert (F := phase_open_flags w Ph).
  assert (S := reachable_serialised _ _ _ (page_load_serialised e iw nw y) E).
  assert (So := reachable_sorted _ _ _ (page_load_sorted e iw nw y) E).
  set (w0 := set_page (fun p => set_nav_offsetWidth navWidth
                                  (set_innerWidth width p)) w).
  assert (F0 : flags w0 = (true, false)) by exact F.
  assert (W0 : 768 < innerWidth (page w0)) by exact Hw.
  destruct (remeasure_frame w0) as [Rt [Rf Rn]].
  exists (remeasure w0), (closeMobileMenu (remeasure w0)).
  destruct (closeMobileMenu_from_open (remeasure w0)) as [P1 [P2 [P3 [P4 P5]]]].
  { unfold serialised. rewrite Rt.
    replace (isAnimating (mm (remeasure w0))) with (isAnimating (mm w0))
      by (symmetry; exact (f_equal snd Rf)).
    exact S. }
  { rewrite Rt. exact So. }
  { rewrite Rf. exact F0. }
  split.
  { destruct (core_listeners w) as [|n] eqn:En; [inversion Hn|].
    unfold dispatch. cbv zeta. rewrite En. fold w0.
    change (Nat.min 1 (Datatypes.S n)) with 1%nat.
    rewrite each_lift_settles by (apply handleMenuResize_twice; assumption).
    rewrite handleMenuResize_open by assumption. reflexivity. }
  split; [exact (eq_trans (f_equal snd Rf) (f_equal snd F0))|].
  split; [reflexivity|]. split; [exact P1|]. split; [exact P3|exact P5].
Qed.

Lemma resize_to_desktop_closes_witness :
  let w := after [ToggleClick; Elapse 350] (phone 0) in
  exists w', dispatch (Resize 1280 0) w = Ok w' /\ phase w' = Closing.
Proof.
  intros w.
  assert (E : run [Init; Init; ToggleClick; Elapse 350]
                  (page_load full_markup 390 300 0) = Ok w)
    by (vm_compute; reflexivity).
  assert (Ph : phase w = Open) by (vm_compute; reflexivity).
  assert (Hl : (0 < core_listeners w)%nat) by (vm_compute; lia).
  assert (Hw : 768 < 1280) by lia.
  destruct (resize_to_desktop_closes _ _ _ _ _ _ 1280 0 E Ph Hl Hw)
    as [v [w' [D [_ [_ [P _]]]]]].
  exists w'. split; [exact D|exact P].
Defined.

(** C9 as stated fails: the resize does not leave the open drawer in the
    closed phase.  It starts the ordinary closing animation; both flags
    stay raised until the 350 ms timeout clears them. *)
Lemma resize_not_closed_at_once :
  let w := after [ToggleClick; Elapse 350] (phone 0) in
  phase w = Open /\
  (exists w', dispatch (Resize 1280 0) w = Ok w' /\
              flags w' = (true, true) /\
              phase w' = Closing /\
              phase (elapse 349 w') = Closing /\
              phase (elapse 350 w') = Closed) /\
  ~ closed_by_resize w 1280 0.
Proof.
  intros w. split; [vm_compute; reflexivity|]. split.
  - eexists. split; [vm_compute; reflexivity|].
    repeat split; vm_compute; reflexivity.
  - intros [w' [D P]]. vm_compute in D. injection D as <-.
    vm_compute in P. discriminate.
Qed.

(** *** The public accessor *)

Lemma openMobileMenu_from_closed w :
  serialised w -> flags w = (false, false) ->
  phase (openMobileMenu w) = Opening /\
  flags (openMobileMenu w) = (true, true).
Proof.
  intros S F. unfold flags in F. injection F as Fo Fa.
  assert (Hq := serialised_quiet w S Fa).
  assert (Ht : timers (openMobileMenu w)
               = enqueue (now w + 350) OpenDone (timers w)).
  { unfold openMobileMenu. rewrite Fo, Fa. reflexivity. }
  assert (Hf : flags (openMobileMenu w) = (true, true)).
  { unfold openMobileMenu, flags. rewrite Fo, Fa. reflexivity. }
  split; [|exact Hf].
  assert (Ea : isAnimating (mm (openMobileMenu w)) = true)
    by exact (f_equal snd Hf).
  unfold phase. rewrite Ht, Ea.
  rewrite animations_enqueue_first; [reflexivity|reflexivity|exact Hq].
Qed.

(** C10.  [window.mobileMenu.isOpen()] is true exactly outside the
    closed phase, so through opening, open and closing.  It turns true
    as soon as an open starts.  After a close starts it stays true for
    every delay short of 350 ms, during which [open()] and [toggle()]
    return without effect; from 350 ms on it is false and [open()]
    starts a new opening. *)
Theorem isOpen_spans_animation :
  forall e iw nw y evs w,
    run evs (page_load e iw nw y) = Ok w ->
    (apiIsOpen w = true <-> phase w <> Closed) /\
    (phase w = Closed ->
     apiIsOpen (openMobileMenu w) = true /\
     phase (openMobileMenu w) = Opening) /\
    (phase w = Open ->
     (forall ms, ms < 350 ->
        let w2 := elapse ms (closeMobileMenu w) in
        apiIsOpen w2 = true /\ openMobileMenu w2 = w2 /\ apiToggle w2 = w2) /\
     (forall ms, 350 <= ms ->
        let w2 := elapse ms (closeMobileMenu w) in
        apiIsOpen w2 = false /\ phase (openMobileMenu w2) = Opening)).
Proof.
  intros e iw nw y evs w E.
  assert (S := reachable_serialised _ _ _ (page_load_serialised e iw nw y) E).
  assert (So := reachable_sorted _ _ _ (page_load_sorted e iw nw y) E).
  assert (A : isAnimating (mm w) = true -> isOpen (mm w) = true).
  { eapply reachable_animating_open; [|exact E]. discriminate. }
  split; [|split].
  - unfold apiIsOpen, phase. split.
    + intros ->. destruct (isAnimating (mm w)); [|discriminate].
      destruct (animations (timers w)) as [|[d [| | | | |]] q]; discriminate.
    + destruct (isAnimating (mm w)); [intros _; apply A; reflexivity|].
      destruct (isOpen (mm w)); [reflexivity|]. intros H; contradiction H.
      reflexivity.
  - intros Ph.
    assert (F : flags w = (false, false)).
    { unfold phase in Ph. unfold flags.
      destruct (isAnimating (mm w)).
      - destruct (animations (timers w)) as [|[d [| | | | |]] q]; discriminate.
      - destruct (isOpen (mm w)); [discriminate|reflexivity]. }
    destruct (openMobileMenu_from_closed w S F) as [P F1].
    split; [exact (f_equal fst F1)|exact P].
  - intros Ph.
    assert (F := phase_open_flags w Ph).
    destruct (closeMobileMenu_from_open w S So F) as [_ [_ [_ [P4 P5]]]].
    split.
    + intros ms Hms w2. specialize (P4 ms Hms). fold w2 in P4.
      assert (Fo : isOpen (mm w2) = true) by exact (f_equal fst P4).
      assert (Fa : isAnimating (mm w2) = true) by exact (f_equal snd P4).
      split; [exact Fo|]. split; [apply openMobileMenu_animating, Fa|].
      unfold apiToggle. rewrite Fo. apply closeMobileMenu_animating, Fa.
    + intros ms Hms w2. destruct (P5 ms Hms) as [Pc _]. fold w2 in Pc.
      assert (S2 : serialised w2).
      { apply (reachable_serialised [ApiClose; Elapse ms] w w2 S).
        reflexivity. }
      assert (F2 : flags w2 = (false, false)).
      { unfold phase in Pc. unfold flags.
        destruct (isAnimating (mm w2)).
        - destruct (animations (timers w2)) as [|[d [| | | | |]] q]; discriminate.
        - destruct (isOpen (mm w2)); [discriminate|reflexivity]. }
      split; [exact (f_equal fst F2)|].
      apply openMobileMenu_from_closed; assumption.
Qed.

Lemma isOpen_spans_animation_witness :
  let w := after [ToggleClick; Elapse 350] (phone 0) in
  let w2 := elapse 349 (closeMobileMenu w) in
  apiIsOpen w2 = true /\ openMobileMenu w2 = w2 /\
  apiIsOpen (elapse 350 (closeMobileMenu w)) = false.
Proof.
  intros w w2.
  assert (E : run [Init; Init; ToggleClick; Elapse 350]
                  (page_load full_markup 390 300 0) = Ok w)
    by (vm_compute; reflexivity).
  assert (Ph : phase w = Open) by (vm_compute; reflexivity).
  destruct (isOpen_spans_animation _ _ _ _ _ _ E) as [_ [_ H]].
  destruct (H Ph) as [H1 H2].
  destruct (H1 349 ltac:(lia)) as [A [B _]].
  destruct (H2 350 ltac:(lia)) as [C _].
  split; [exact A|]. split; [exact B|exact C].
Defined.

(** *** Scroll lock *)

Lemma enableBodyScroll_restores p y :
  0 <= y ->
  top (body_style p) = "-" ++ JS.show_Z y ++ "px" ->
  scrollY (enableBodyScroll p) = y /\ body_style (enableBodyScroll p) = no_style.
Proof.
  intros Hy Ht. unfold enableBodyScroll. rewrite Ht.
  replace (String.eqb ("-" ++ JS.show_Z y ++ "px") "") with false by reflexivity.
  rewrite parseInt_top by exact Hy. cbn. split; [lia|reflexivity].
Qed.

Lemma closeMobileMenu_page w :
  flags w = (true, false) ->
  has_overlay (els (page w)) = true ->
  scrollY (page (closeMobileMenu w))
  = scrollY (enableBodyScroll (mark_aria false (mark_active false (page w)))) /\
  body_style (page (closeMobileMenu w))
  = body_style (enableBodyScroll (mark_aria false (mark_active false (page w)))).
Proof.
  unfold flags. intros F Ho. injection F as Fo Fa.
  unfold closeMobileMenu. rewrite Fo, Fa. cbn.
  unfold ensureOverlay. rewrite Ho. split; reflexivity.
Qed.

(** C3.  From the closed phase with the document scrolled to [y >= 0]:
    [openMobileMenu] records [y] and pins the body at [top: -y px];
    whatever offset the window reports while the body is pinned, once
    the opening animation is over (350 ms) [closeMobileMenu] clears the
    inline styles and scrolls the document back to exactly [y]. *)
Theorem scroll_offset_round_trip :
  forall e iw nw y0 evs w y pinned ms,
    run evs (page_load e iw nw y0) = Ok w ->
    phase w = Closed ->
    scrollY (page w) = y ->
    0 <= y ->
    350 <= ms ->
    let opened := elapse ms (scrollListener pinned (openMobileMenu w)) in
    lastScrollPosition (mm (openMobileMenu w)) = y /\
    position (body_style (page opened)) = "fixed" /\
    top (body_style (page opened)) = "-" ++ JS.show_Z y ++ "px" /\
    phase opened = Open /\
    scrollY (page (closeMobileMenu opened)) = y /\
    body_style (page (closeMobileMenu opened)) = no_style.
Proof.
  intros e iw nw y0 evs w y pinned ms E Ph Hy Hy0 Hms opened.
  assert (S := reachable_serialised _ _ _ (page_load_serialised e iw nw y0) E).
  assert (So := reachable_sorted _ _ _ (page_load_sorted e iw nw y0) E).
  assert (F : flags w = (false, false)).
  { unfold phase in Ph. unfold flags.
    destruct (isAnimating (mm w)).
    - destruct (animations (timers w)) as [|[d [| | | | |]] q]; discriminate.
    - destruct (isOpen (mm w)); [discriminate|reflexivity]. }
  assert (Fo : isOpen (mm w) = false) by exact (f_equal fst F).
  assert (Fa : isAnimating (mm w) = false) by exact (f_equal snd F).
  assert (Hq := serialised_quiet w S Fa).
  set (w1 := openMobileMenu w) in *.
  set (w2 := scrollListener pinned w1) in *.
  (* the state right after the open *)
  assert (O1 : flags w1 = (true, true) /\ now w1 = now w /\
               timers w1 = enqueue (now w + 350) OpenDone (timers w) /\
               lastScrollPosition (mm w1) = y /\
               body_style (page w1)
               = {| position := "fixed"; top := "-" ++ JS.show_Z y ++ "px";
                    width := "100%"; overflow := "hidden";
                    touchAction := "none"; webkitOverflowScrolling := "none" |} /\
               has_overlay (els (page w1)) = true).
  { subst w1. unfold openMobileMenu, flags. rewrite Fo, Fa. cbn.
    unfold ensureOverlay.
    destruct (has_overlay (els (page w))) eqn:Ho; cbn; rewrite ?Ho, ?Hy;
      repeat split. }
  destruct O1 as [F1 [N1 [T1 [L1 [B1 H1]]]]].
  (* the scroll listener only arms its sampling timeout *)
  assert (O2 : flags w2 = (true, true) /\ now w2 = now w /\
               animations (timers w2) = [(now w + 350, OpenDone)] /\
               sorted (timers w2) /\
               body_style (page w2) = body_style (page w1) /\
               has_overlay (els (page w2)) = true).
  { assert (A1 : animations (timers w1) = [(now w + 350, OpenDone)])
      by (rewrite T1; apply animations_enqueue_first; [reflexivity|exact Hq]).
    assert (S1 : sorted (timers w1)) by (rewrite T1; apply sorted_enqueue, So).
    subst w2. unfold scrollListener.
    destruct (scroll_pending _); cbn.
    - repeat split; assumption.
    - rewrite animations_enqueue_other by reflexivity.
      split; [exact F1|]. split; [exact N1|]. split; [exact A1|].
      split; [apply sorted_enqueue, S1|]. split; [reflexivity|exact H1]. }
  destruct O2 as [F2 [N2 [A2 [S2 [B2 H2]]]]].
  assert (F3 : flags opened = (true, false)).
  { subst opened. rewrite flags_elapse.
    rewrite (flags_run_due_animation _ _ _ _ S2 A2) by (rewrite N2; lia).
    assert (Eo2 : isOpen (mm w2) = true) by exact (f_equal fst F2).
    cbv beta iota. rewrite Eo2. reflexivity. }
  assert (L3 : layout (page opened) = layout (page w2))
    by apply layout_elapse.
  assert (B3 : body_style (page opened) = body_style (page w1)).
  { rewrite <- B2. unfold layout in L3. congruence. }
  assert (H3 : has_overlay (els (page opened)) = true).
  { rewrite <- H2. unfold layout in L3. congruence. }
  split; [exact L1|].
  split; [rewrite B3, B1; reflexivity|].
  split; [rewrite B3, B1; reflexivity|].
  split.
  { assert (Eo3 : isOpen (mm opened) = true) by exact (f_equal fst F3).
    assert (Ea3 : isAnimating (mm opened) = false) by exact (f_equal snd F3).
    unfold phase. rewrite Ea3, Eo3. reflexivity. }
  assert (C := closeMobileMenu_page opened F3 H3).
  destruct (enableBodyScroll_restores
              (mark_aria false (mark_active false (page opened))) y Hy0)
    as [R1 R2].
  { change (top (body_style (page opened)) = "-" ++ JS.show_Z y ++ "px").
    rewrite B3, B1. reflexivity. }
  destruct C as [C1 C2]. split; congruence.
Qed.

Lemma scroll_offset_round_trip_witness :
  let opened := elapse 350 (scrollListener 0 (openMobileMenu (phone 1234))) in
  top (body_style (page opened)) = "-1234px" /\
  scrollY (page opened) = 0 /\
  scrollY (page (closeMobileMenu opened)) = 1234.
Proof.
  intros opened.
  assert (E : run [Init; Init] (page_load full_markup 390 300 1234)
              = Ok (phone 1234)) by (vm_compute; reflexivity).
  assert (Ph : phase (phone 1234) = Closed) by (vm_compute; reflexivity).
  assert (Hy : scrollY (page (phone 1234)) = 1234) by (vm_compute; reflexivity).
  destruct (scroll_offset_round_trip _ _ _ _ _ _ 1234 0 350 E Ph Hy
              ltac:(lia) ltac:(lia)) as [_ [_ [T [_ [R _]]]]].
  split; [|split; [vm_compute; reflexivity|exact R]].
  exact T.
Defined.

(** *** Missing elements *)

Lemma each_lift_ok n h w : exists w', each n (lift h) w = Ok w'.
Proof.
  revert w. induction n as [|n IH]; intros w; simpl.
  - eexists; reflexivity.
  - unfold lift at 1. simpl. apply IH.
Qed.

Lemma each_ok n h :
  (forall w, exists w', h w = Ok w') ->
  forall w, exists w', each n h w = Ok w'.
Proof.
  intros Hh. induction n as [|n IH]; intros w; simpl.
  - eexists; reflexivity.
  - destruct (Hh w) as [w1 ->]. simpl. apply IH.
Qed.

Lemma dispatch_no_throw ev w :
  is_tab ev = false -> exists w', dispatch ev w = Ok w'.
Proof.
  intros T. destruct ev; cbv beta iota zeta delta [dispatch];
    try (eexists; reflexivity);
    try apply each_lift_ok;
    try (match goal with
         | |- exists _, (if ?c then _ else _) = _ => destruct c
         end; [|eexists; reflexivity]);
    try apply each_lift_ok.
  - (* overlay click, then the document listener *)
    destruct (each_lift_ok (core_listeners w) overlayClickHandler w) as [w1 ->].
    simpl. apply each_lift_ok.
  - (* a key other than Tab *)
    simpl in T. apply each_ok. intros v.
    unfold focusTrapHandler. rewrite T. simpl.
    destruct (negb _); eexists; reflexivity.
Qed.

(** *** Exceptions in timeout callbacks *)

Lemma forallb_enqueue (f : Z * Timer -> bool) d k q :
  forallb f (enqueue d k q) = (f (d, k) && forallb f q)%bool.
Proof.
  induction q as [|[d' k'] q IH]; simpl; [reflexivity|].
  destruct (d' <=? d); simpl; [|reflexivity].
  rewrite IH. destruct (f (d', k')), (f (d, k)); reflexivity.
Qed.

Lemma quiet_same e w w' :
  timers w' = timers w ->
  querySelector (els (page w')) = querySelector (els (page w)) ->
  uncaught (page w') = uncaught (page w) ->
  quiet e w -> quiet e w'.
Proof. unfold quiet. intros -> -> ->. trivial. Qed.

Lemma quiet_setTimeout e k ms w :
  throwing e (0, k) = false -> quiet e w -> quiet e (setTimeout k ms w).
Proof.
  unfold quiet, setTimeout. cbn. intros Hk [Q1 [Q2 Q3]].
  split; [exact Q1|]. split; [|exact Q3].
  rewrite forallb_enqueue, Q2.
  change (throwing e (now w + ms, k)) with (throwing e (0, k)).
  rewrite Hk. reflexivity.
Qed.

Lemma quiet_open e w : quiet e w -> quiet e (openMobileMenu w).
Proof.
  unfold openMobileMenu.
  destruct (isOpen (mm w) || isAnimating (mm w))%bool; [trivial|].
  intros Q. cbv zeta. apply quiet_setTimeout; [reflexivity|].
  revert Q. apply quiet_same; cbn; unfold ensureOverlay;
    destruct (has_overlay (els (page w))); reflexivity.
Qed.

Lemma quiet_close e w : quiet e w -> quiet e (closeMobileMenu w).
Proof.
  unfold closeMobileMenu.
  destruct (negb (isOpen (mm w)) || isAnimating (mm w))%bool; [trivial|].
  intros Q. cbv zeta. apply quiet_setTimeout; [reflexivity|].
  revert Q. apply quiet_same; cbn; unfold ensureOverlay;
    destruct (has_overlay (els (page w))); reflexivity.
Qed.

Lemma quiet_fire e d k q w :
  quiet e (set_timers ((d, k) :: q) w) ->
  forall t, quiet e (fire k (set_now t (set_timers q w))).
Proof.
  unfold quiet. cbn. intros [Q1 [Q2 Q3]] t.
  apply andb_prop in Q2. destruct Q2 as [Qk Q2].
  apply negb_true_iff in Qk.
  destruct k; cbn.
  - destruct (has_closeBtn _); cbn; repeat split; assumption.
  - destruct toggle; cbn; repeat split; assumption.
  - destruct (isOpen _); [destruct (has_closeBtn _)|]; cbn;
      repeat split; assumption.
  - repeat split; assumption.
  - repeat split; assumption.
  - unfold throwing, bad_anchor in Qk. cbn in Qk. rewrite Q1.
    destruct (querySelector e href); [discriminate| |]; cbn;
      repeat split; assumption.
Qed.

Lemma quiet_run_due e target q :
  forall w, quiet e (set_timers q w) -> quiet e (run_due target q w).
Proof.
  induction q as [|[d k] q IH]; intros w H; simpl.
  - exact H.
  - destruct (d <=? target); [|exact H].
    apply IH.
    rewrite set_timers_fire by reflexivity.
    apply quiet_fire with (d := d). exact H.
Qed.

Lemma quiet_elapse e ms w : quiet e w -> quiet e (elapse ms w).
Proof.
  intros H. unfold elapse.
  apply quiet_same with (w := run_due (now w + Z.max 0 ms) (timers w) w);
    try reflexivity.
  apply quiet_run_due. rewrite set_timers_same. exact H.
Qed.

Lemma quiet_resize e w : quiet e w -> quiet e (handleMenuResize w).
Proof.
  intros Q. unfold handleMenuResize.
  set (v1 := if has_nav _ then _ else w).
  assert (S1 : quiet e v1).
  { subst v1. destruct (has_nav _); [|exact Q].
    revert Q. apply quiet_same; reflexivity. }
  destruct (_ && _)%bool; [apply quiet_close, S1|exact S1].
Qed.

(** An event that is neither of the two leaves no exception behind. *)
Lemma quiet_dispatch e ev w w' :
  may_throw e ev = false ->
  quiet e w -> dispatch ev w = Ok w' -> quiet e w'.
Proof.
  intros T S E.
  assert (Hclose : forall w, quiet e w -> quiet e (closeMobileMenu w))
    by (intros; apply quiet_close; assumption).
  assert (Hout : forall w, quiet e w -> quiet e (handleOutsideClick w)).
  { intros v Sv. unfold handleOutsideClick.
    destruct (_ && _)%bool; auto. }
  destruct ev; simpl in E.
  - (* Init *)
    inversion E; subst. revert S. unfold initMobileMenu.
    assert (Ho : quiet e w -> quiet e (set_page ensureOverlay w)).
    { apply quiet_same; cbn; unfold ensureOverlay;
        destruct (has_overlay (els (page w))); reflexivity. }
    intros S. apply Ho in S.
    destruct (_ || _)%bool; revert S; apply quiet_same; reflexivity.
  - destruct (has_toggle _); [|inversion E; subst; exact S].
    revert E. apply each_invariant; [|exact S].
    intros v v' Sv Ev. inversion Ev; subst.
    apply quiet_setTimeout; [reflexivity|].
    unfold toggleClickHandler.
    destruct (isAnimating (mm v)); [exact Sv|].
    destruct (isOpen (mm v)); [apply quiet_close|apply quiet_open]; exact Sv.
  - destruct (has_overlay _); [|inversion E; subst; exact S].
    destruct (each _ (lift overlayClickHandler) w) as [w1|] eqn:E1;
      simpl in E; [|discriminate].
    revert E. apply each_lift_invariant; [exact Hout|].
    revert E1. apply each_lift_invariant; [|exact S].
    intros v Sv. unfold overlayClickHandler. destruct (isOpen _); auto.
  - destruct (has_closeBtn _); [|inversion E; subst; exact S].
    revert E. apply each_lift_invariant; [exact Hclose|exact S].
  - destruct (0 <? _)%nat; [|inversion E; subst; exact S].
    revert E. apply each_lift_invariant; [|exact S].
    intros v Sv. unfold linkClickHandler, handleAnchorLinkClick.
    destruct href as [h|]; [|apply Hclose, Sv].
    simpl in T.
    destruct (starts_with_hash h); [|apply Hclose, Sv].
    apply quiet_setTimeout; [exact T|apply Hclose, Sv].
  - revert E. apply each_invariant; [|exact S].
    intros v v' Sv Ev.
    assert (Se : quiet e (escapeKeyHandler key v)).
    { unfold escapeKeyHandler. destruct (_ && _)%bool; auto. }
    revert Ev Se. generalize (escapeKeyHandler key v). intros u Eu Su.
    unfold focusTrapHandler in Eu.
    repeat match type of Eu with
           | (if ?c then _ else _) = _ => destruct c
           end; inversion Eu; subst; try exact Su;
      revert Su; apply quiet_same; reflexivity.
  - revert E. apply each_lift_invariant; [exact Hout|exact S].
  - destruct (has_nav _); [|inversion E; subst; exact S].
    revert E. apply each_lift_invariant; [|exact S].
    intros v. apply quiet_same; reflexivity.
  - destruct (has_nav _); [|inversion E; subst; exact S].
    revert E. apply each_lift_invariant; [|exact S].
    intros v Sv. unfold navTouchMove.
    destruct (_ || _)%bool; [exact Sv|].
    destruct (_ && _)%bool; [|exact Sv].
    revert Sv. apply quiet_same; reflexivity.
  - destruct (has_nav _); [|inversion E; subst; exact S].
    revert E. apply each_lift_invariant; [|exact S].
    intros v Sv. unfold navTouchEnd.
    destruct (_ || _)%bool; [exact Sv|].
    assert (S1 : quiet e (set_page (set_nav_transform None) v))
      by (revert Sv; apply quiet_same; reflexivity).
    cbv zeta. destruct (_ || _)%bool; auto.
  - destruct (has_overlay _); [|inversion E; subst; exact S].
    revert E. apply each_lift_invariant; [|exact S].
    intros v. apply quiet_same; reflexivity.
  - destruct (has_overlay _); [|inversion E; subst; exact S].
    revert E. apply each_lift_invariant; [|exact S].
    intros v Sv. unfold overlayTouchEnd. destruct (_ <? _); auto.
  - revert E. apply each_lift_invariant; [apply quiet_resize|].
    revert S. apply quiet_same; reflexivity.
  - inversion E; subst. apply quiet_resize, S.
  - inversion E; subst. unfold scrollListener.
    destruct (scroll_pending _).
    + revert S. apply quiet_same; reflexivity.
    + apply quiet_same
        with (w := setTimeout ScrollSample 100 (set_page (set_scrollY y) w));
        try reflexivity.
      apply quiet_setTimeout; [reflexivity|].
      revert S. apply quiet_same; reflexivity.
  - inversion E; subst. revert S. apply quiet_same; reflexivity.
  - inversion E; subst. apply quiet_elapse, S.
  - inversion E; subst. apply quiet_open, S.
  - inversion E; subst. apply quiet_close, S.
  - inversion E; subst. unfold apiToggle.
    destruct (isOpen _); [apply quiet_close|apply quiet_open]; exact S.
Qed.

Lemma quiet_run e evs :
  forall w, harmless e evs = true -> quiet e w ->
            exists w', run evs w = Ok w' /\ quiet e w'.
Proof.
  induction evs as [|ev evs IH]; intros w H Q; simpl.
  - exists w. split; [reflexivity|exact Q].
  - simpl in H. apply andb_prop in H. destruct H as [Hev H].
    apply negb_true_iff in Hev.
    assert (T : is_tab ev = false)
      by (destruct ev; try reflexivity; exact Hev).
    destruct (dispatch_no_throw ev w T) as [w1 E1].
    rewrite E1. simpl. apply IH; [exact H|].
    eapply quiet_dispatch; eassumption.
Qed.

Lemma page_load_quiet e iw nw y : quiet e (page_load e iw nw y).
Proof. repeat split. Qed.

(** *** A page on which nothing is wired *)

Lemma unwired_dom_input ev w :
  unwired w -> is_dom_input ev = true -> dispatch ev w = Ok w.
Proof.
  intros [W2 [W3 _]] I.
  destruct ev; try discriminate; simpl; rewrite ?W2, ?W3;
    simpl; try reflexivity;
    match goal with
    | |- (if ?c then _ else _) = _ => destruct c; reflexivity
    end.
Qed.

Lemma unwired_same w w' :
  core_listeners w' = core_listeners w ->
  outside_listeners w' = outside_listeners w ->
  has_toggle (els (page w')) = has_toggle (els (page w)) ->
  has_nav (els (page w')) = has_nav (els (page w)) ->
  unwired w -> unwired w'.
Proof. unfold unwired. intros -> -> -> ->. trivial. Qed.

Lemma unwired_open w : unwired w -> unwired (openMobileMenu w).
Proof.
  unfold openMobileMenu.
  destruct (isOpen (mm w) || isAnimating (mm w))%bool; [trivial|].
  cbv zeta. apply unwired_same; cbn; unfold ensureOverlay;
    destruct (has_overlay (els (page w))); reflexivity.
Qed.

Lemma unwired_close w : unwired w -> unwired (closeMobileMenu w).
Proof.
  unfold closeMobileMenu.
  destruct (negb (isOpen (mm w)) || isAnimating (mm w))%bool; [trivial|].
  cbv zeta. apply unwired_same; cbn; unfold ensureOverlay;
    destruct (has_overlay (els (page w))); reflexivity.
Qed.

Lemma unwired_fire k w : unwired w -> unwired (fire k w).
Proof.
  apply unwired_same; destruct k; cbn;
    repeat match goal with
           | |- context [if ?c then _ else _] => destruct c
           | |- context [match querySelector ?e ?h with _ => _ end] =>
               destruct (querySelector e h)
           end; reflexivity.
Qed.

Lemma unwired_run_due target q :
  forall w, unwired w -> unwired (run_due target q w).
Proof.
  induction q as [|[d k] q IH]; intros w H; simpl.
  - revert H. apply unwired_same; reflexivity.
  - destruct (d <=? target).
    + apply IH, unwired_fire. revert H. apply unwired_same; reflexivity.
    + revert H. apply unwired_same; reflexivity.
Qed.

Lemma unwired_resize w : unwired w -> unwired (handleMenuResize w).
Proof.
  intros Q. unfold handleMenuResize.
  set (v1 := if has_nav _ then _ else w).
  assert (S1 : unwired v1).
  { subst v1. destruct (has_nav _); [|exact Q].
    revert Q. apply unwired_same; reflexivity. }
  destruct (_ && _)%bool; [apply unwired_close, S1|exact S1].
Qed.

Lemma unwired_dispatch e ev w :
  unwired w -> quiet e w ->
  exists w', dispatch ev w = Ok w' /\ unwired w' /\ quiet e w'.
Proof.
  intros U Q.
  destruct (is_dom_input ev) eqn:I.
  { exists w. split; [apply unwired_dom_input; assumption|]. split; assumption. }
  assert (T : may_throw e ev = false) by (destruct ev; try discriminate; reflexivity).
  assert (T' : is_tab ev = false) by (destruct ev; try discriminate; reflexivity).
  destruct (dispatch_no_throw ev w T') as [w' E].
  exists w'. split; [exact E|]. split; [|eapply quiet_dispatch; eassumption].
  destruct U as [U1 [U2 U3]].
  destruct ev; try discriminate; simpl in E; rewrite ?U1 in E; simpl in E;
    inversion E; subst; clear E.
  - (* Init: the check fails again *)
    unfold initMobileMenu.
    assert (G : (negb (has_toggle (els (page (set_page ensureOverlay w))))
                 || negb (has_nav (els (page (set_page ensureOverlay w)))))%bool
                = true).
    { cbn. unfold ensureOverlay. destruct (has_overlay _); exact U3. }
    rewrite G. repeat split; try assumption.
  - repeat split; assumption.
  - apply unwired_resize. repeat split; assumption.
  - unfold scrollListener. destruct (scroll_pending _); repeat split; assumption.
  - repeat split; assumption.
  - unfold elapse.
    apply unwired_same with (w := run_due (now w + Z.max 0 ms) (timers w) w);
      try reflexivity.
    apply unwired_run_due. repeat split; assumption.
  - apply unwired_open. repeat split; assumption.
  - apply unwired_close. repeat split; assumption.
  - unfold apiToggle.
    destruct (isOpen _); [apply unwired_close|apply unwired_open];
      repeat split; assumption.
Qed.

Lemma unwired_run e evs :
  forall w, unwired w -> quiet e w ->
            exists w', run evs w = Ok w' /\ quiet e w'.
Proof.
  induction evs as [|ev evs IH]; intros w U Q; simpl.
  - exists w. split; [reflexivity|exact Q].
  - destruct (unwired_dispatch e ev w U Q) as [w1 [E1 [U1 Q1]]].
    rewrite E1. simpl. apply IH; assumption.
Qed.

(** C8 as the code has it.  [initMobileMenu] never throws.  When the
    toggle or the panel is missing it logs one warning and wires
    nothing: every click, key and touch is a no-op, and whatever happens
    afterwards no listener and no timeout callback throws.  When both
    are there it wires the drawer whether or not the overlay and the
    close button exist: a missing overlay is created, no warning is
    logged, and a click on the toggle starts opening.  On any page, a
    sequence of events with no Tab key press and no click on an in-page
    link whose [href] is no selector runs to its end with no exception
    in a listener or in a timeout callback. *)
Theorem init_degrades_gracefully :
  forall e iw nw y,
    let w := initMobileMenu (page_load e iw nw y) in
    dispatch Init (page_load e iw nw y) = Ok w /\
    (has_toggle e = false \/ has_nav e = false ->
     warnings (page w) = ["Mobile menu elements not found"] /\
     core_listeners w = 0%nat /\ outside_listeners w = 0%nat /\
     (forall ev, is_dom_input ev = true -> dispatch ev w = Ok w) /\
     (forall evs, exists w',
         run evs w = Ok w' /\ uncaught (page w') = [])) /\
    (has_toggle e = true -> has_nav e = true ->
     warnings (page w) = [] /\
     core_listeners w = 1%nat /\
     has_overlay (els (page w)) = true /\
     exists w', dispatch ToggleClick w = Ok w' /\ phase w' = Opening) /\
    (forall evs, harmless e evs = true ->
       exists w', run evs (page_load e iw nw y) = Ok w' /\
                  uncaught (page w') = []).
Proof.
  intros e iw nw y w. split; [reflexivity|]. split; [|split].
  - intros Hmiss.
    assert (G : (negb (has_toggle e) || negb (has_nav e))%bool = true)
      by (destruct Hmiss as [-> | ->]; [reflexivity|apply orb_true_r]).
    assert (Hw : warnings (page w) = ["Mobile menu elements not found"] /\
                 unwired w /\ quiet e w).
    { subst w. unfold initMobileMenu, ensureOverlay, unwired, quiet.
      destruct e as [ht hn ho hc li hh qs]. cbn in G.
      destruct ho; cbn; rewrite G; cbn; rewrite ?G; repeat split. }
    destruct Hw as [W1 [U Q]].
    split; [exact W1|]. split; [apply U|]. split; [apply U|].
    split.
    + intros ev I. apply unwired_dom_input; assumption.
    + intros evs. destruct (unwired_run e evs w U Q) as [w' [E [_ [_ Q3]]]].
      exists w'. split; assumption.
  - intros Ht Hn.
    assert (Hw : warnings (page w) = [] /\ core_listeners w = 1%nat /\
                 has_overlay (els (page w)) = true /\
                 has_toggle (els (page w)) = true /\
                 flags w = (false, false) /\
                 timers w = [(500, EnhanceAccessibility)]).
    { subst w. unfold initMobileMenu, ensureOverlay.
      destruct e as [ht hn ho hc li hh qs]. cbn in Ht, Hn. subst ht hn.
      destruct ho; cbn; repeat split. }
    destruct Hw as [W1 [W2 [W3 [W4 [W5 W6]]]]].
    split; [exact W1|]. split; [exact W2|]. split; [exact W3|].
    exists (toggleFocusHandler (openMobileMenu w)). split.
    + assert (Wo : isOpen (mm w) = false) by exact (f_equal fst W5).
      assert (Wa : isAnimating (mm w) = false) by exact (f_equal snd W5).
      cbv beta iota zeta delta [dispatch]. rewrite W4, W2. simpl.
      unfold toggleClickHandler. rewrite Wa, Wo. reflexivity.
    + assert (Wa : isAnimating (mm w) = false) by exact (f_equal snd W5).
      destruct (openMobileMenu_from_closed w) as [P F]; [|exact W5|].
      { unfold serialised. rewrite W6, Wa. reflexivity. }
      unfold phase in *. unfold toggleFocusHandler, setTimeout. cbn.
      rewrite animations_enqueue_other by reflexivity. exact P.
  - intros evs H.
    destruct (quiet_run e evs _ H (page_load_quiet e iw nw y))
      as [w' [E [_ [_ Q3]]]].
    exists w'. split; assumption.
Qed.

Lemma init_degrades_gracefully_witness :
  let w := initMobileMenu (page_load markup_without_nav 390 300 0) in
  warnings (page w) = ["Mobile menu elements not found"] /\
  dispatch ToggleClick w = Ok w /\
  exists w', dispatch ToggleClick
               (initMobileMenu (page_load markup_without_closeBtn 390 300 0))
             = Ok w' /\ phase w' = Opening.
Proof.
  intros w.
  destruct (init_degrades_gracefully markup_without_nav 390 300 0)
    as [_ [H _]].
  destruct (H (or_intror eq_refl)) as [W [_ [_ D]]].
  destruct (init_degrades_gracefully markup_without_closeBtn 390 300 0)
    as [_ [_ [H2 _]]].
  destruct (H2 eq_refl eq_refl) as [_ [_ [_ T]]].
  split; [exact W|]. split; [apply D; reflexivity|exact T].
Defined.

(** C8 as stated fails: without the overlay the subsystem is not
    disabled; it creates one, logs no warning, and the toggle works. *)
Lemma missing_overlay_not_disabled :
  let w := initMobileMenu (page_load markup_without_overlay 390 300 0) in
  incomplete markup_without_overlay = true /\
  warnings (page w) = [] /\
  (exists w', dispatch ToggleClick w = Ok w' /\ isOpen (mm w') = true) /\
  ~ disabled_after_init markup_without_overlay 390 300 0.
Proof.
  intros w. split; [reflexivity|]. split; [reflexivity|]. split.
  - eexists. split; vm_compute; reflexivity.
  - intros [W _]. apply W. vm_compute. reflexivity.
Qed.

(** With the close button missing, Shift+Tab on the first link of the
    open drawer reaches [lastElement.focus()] with [lastElement] null. *)
Example focus_trap_without_closeBtn :
  run [Init; ToggleClick; Elapse 350; FocusMoved (FLink 0); KeyDown "Tab" true]
      (page_load markup_without_closeBtn 390 300 0)
  = TypeError "lastElement is null".
Proof. vm_compute. reflexivity. Qed.

End DrawerSerialisation.

(* ================================================================== *)
(** * Properties of the fleet manager *)

Section FleetProperties.
Import Api Fleet FleetSpec.

Lemma failed_rejected {A} (o : FetchOutcome A) :
  failed o = true <-> getJson o = Rejected.
Proof.
  destruct o as [|[|] [a|]]; simpl; split; intros H;
    try reflexivity; try discriminate.
Qed.

(** C6.  Whenever the categories request fails, or [carAPI] offers no
    [getCategories], [loadCategories] stores the three mock categories,
    named Эконом, Комфорт, SUV in that order. *)
Theorem categories_fallback :
  forall (f : FleetManager) (o : FetchOutcome (list Category)),
    has_getCategories f = false \/ failed o = true ->
    categories (loadCategories o f) = getMockCategories /\
    map name (categories (loadCategories o f))
    = ["Эконом"; "Комфорт"; "SUV"].
Proof.
  intros f o H.
  assert (E : categories (loadCategories o f) = getMockCategories).
  { unfold loadCategories. destruct H as [-> | H]; [reflexivity|].
    apply failed_rejected in H. rewrite H.
    destruct (has_getCategories f); reflexivity. }
  split; [exact E|]. rewrite E. reflexivity.
Qed.

Lemma categories_fallback_witness :
  map name (categories (loadCategories (Http false None) fresh))
  = ["Эконом"; "Комфорт"; "SUV"].
Proof.
  apply (categories_fallback fresh (Http false None)).
  right. reflexivity.
Defined.

(** *** A response for a suspended call *)

Lemma fetchCars_resume_found r p s f :
  find_pending r (inflight f) = Some p ->
  remote p = true ->
  fetchCars_resume r s f
  = set_isLoading false
      (match s with
       | Resolved payload =>
           renderCars
             (set_cars match payload with PArray cs => cs | PNotArray => [] end
                (set_inflight (drop_pending r (inflight f)) (issued f) f))
       | Rejected =>
           showError error_fetchCars
             (console_error "fetchCars error"
                (set_inflight (drop_pending r (inflight f)) (issued f) f))
       end).
Proof.
  intros Hf Hr. unfold fetchCars_resume. rewrite Hf, Hr. reflexivity.
Qed.

Lemma error_is_not_empty_message :
  errorMarkup error_fetchCars <> Html createNoCarsMessage.
Proof. intros H. vm_compute in H. discriminate. Qed.

(** C5 as the code has it.  When the request of a suspended
    [fetchCars] call fails, the error is logged, the grid shows the
    error message, the car list keeps its previous content and the busy
    flag is cleared.  The error message is not the "none found" message,
    which is what a successful response with no cars, or with a payload
    that is not a list, produces. *)
Theorem fetch_failure_shows_error :
  forall f r p o,
    find_pending r (inflight f) = Some p ->
    remote p = true ->
    failed o = true ->
    let f' := step (Respond r o) f in
    carsGrid f' = errorMarkup error_fetchCars /\
    carsGrid f' <> Html createNoCarsMessage /\
    cars f' = cars f /\
    errors f' = "fetchCars error" :: errors f /\
    isLoading f' = false /\
    forall body, body = PArray [] \/ body = PNotArray ->
      let g := step (Respond r (Http true (Some body))) f in
      cars g = [] /\ carsGrid g = Html createNoCarsMessage /\
      errors g = errors f /\ isLoading g = false.
Proof.
  intros f r p o Hf Hr Ho f'.
  apply failed_rejected in Ho.
  assert (E : f' = set_isLoading false
                     (showError error_fetchCars
                        (console_error "fetchCars error"
                           (set_inflight (drop_pending r (inflight f))
                                         (issued f) f)))).
  { subst f'. simpl. rewrite Ho.
    apply (fetchCars_resume_found r p); assumption. }
  rewrite E. split; [reflexivity|]. split; [apply error_is_not_empty_message|].
  split; [reflexivity|]. split; [reflexivity|]. split; [reflexivity|].
  intros body Hb g. subst g. simpl.
  rewrite (fetchCars_resume_found r p _ f Hf Hr).
  destruct Hb as [-> | ->]; repeat split.
Qed.

Lemma fetch_failure_shows_error_witness :
  let f := init (Http true (Some getMockCategories)) fresh in
  carsGrid (step (Respond 0 NetworkError) f) = errorMarkup error_fetchCars /\
  carsGrid (step (Respond 0 (Http true (Some (PArray [])))) f)
  = Html createNoCarsMessage.
Proof.
  intros f.
  destruct (fetch_failure_shows_error f 0
              {| req := 0; wanted := All; remote := true |} NetworkError
              eq_refl eq_refl eq_refl) as [A [_ [_ [_ [_ B]]]]].
  split; [exact A|].
  destruct (B (PArray []) (or_introl eq_refl)) as [_ [C _]]. exact C.
Defined.

(** C5 as stated fails: after a network error the grid does not show
    what a successful empty response shows. *)
Lemma failure_is_not_silent :
  let f := init (Http true (Some getMockCategories)) fresh in
  find_pending 0 (inflight f)
  = Some {| req := 0; wanted := All; remote := true |} /\
  ~ silent_empty_fallback f 0.
Proof.
  intros f. split; [reflexivity|].
  intros H. destruct (H NetworkError eq_refl) as [_ G].
  vm_compute in G. discriminate.
Qed.

(** *** Overlapping requests *)

Lemma fetchCars_resume_frame r p s f :
  find_pending r (inflight f) = Some p ->
  inflight (fetchCars_resume r s f) = drop_pending r (inflight f) /\
  isLoading (fetchCars_resume r s f) = false /\
  issued (fetchCars_resume r s f) = issued f.
Proof.
  intros Hf. unfold fetchCars_resume. rewrite Hf.
  destruct (remote p); [destruct s as [[cs|]|]|]; cbn;
    unfold renderCars; cbn; try (destruct cs); repeat split;
    destruct (local_cars (wanted p)); repeat split.
Qed.

Lemma one_in_flight_step ev f :
  from_ui ev = true -> one_in_flight f -> one_in_flight (step ev f).
Proof.
  intros U I. destruct ev as [c|r o|c]; [| |discriminate]; simpl.
  - (* a filter click *)
    unfold onFilterClick.
    destruct (isLoading f) eqn:L; [exact I|].
    destruct I as [[Hi _]|[p [_ [_ Hl]]]]; [|congruence].
    right. eexists. unfold fetchCars_begin. cbn. rewrite Hi.
    split; [reflexivity|]. split; reflexivity.
  - (* a response *)
    destruct (find_pending r (inflight f)) as [p'|] eqn:Hf.
    + destruct (fetchCars_resume_frame r p' (getJson o) f Hf) as [A [B _]].
      left. split; [|exact B]. rewrite A.
      destruct I as [[Hi _]|[p [Hi _]]]; rewrite Hi in *; [reflexivity|].
      unfold find_pending in Hf. simpl in Hf. unfold drop_pending. simpl.
      destruct (Nat.eqb (req p) r); [reflexivity|discriminate].
    + unfold fetchCars_resume. rewrite Hf. exact I.
Qed.

Lemma one_in_flight_run evs :
  forall f, forallb from_ui evs = true ->
            one_in_flight f -> one_in_flight (run evs f).
Proof.
  induction evs as [|ev evs IH]; intros f U I; simpl; [exact I|].
  simpl in U. apply andb_prop in U. destruct U as [U1 U2].
  apply IH; [exact U2|]. apply one_in_flight_step; assumption.
Qed.

(** C4 as the code has it.  The script keeps a busy flag and no
    sequence number.  From [init] on, under filter clicks and responses
    in any order, at most one [fetchCars] call is suspended and it is the
    one issued last: a click while the flag is raised starts nothing.
    Every response for a suspended call is rendered when it arrives,
    whatever else is in flight. *)
Theorem filter_clicks_never_overlap :
  forall f0 o evs,
    inflight f0 = [] ->
    forallb from_ui evs = true ->
    one_in_flight (run evs (init o f0)) /\
    (forall id f, isLoading f = true -> step (Click id) f = f) /\
    (forall f r p cs,
       find_pending r (inflight f) = Some p -> remote p = true ->
       carsGrid (step (Respond r (Http true (Some (PArray cs)))) f)
       = rendering cs (categories f)).
Proof.
  intros f0 o evs H0 U. split; [|split].
  - apply one_in_flight_run; [exact U|].
    right. eexists. unfold init, loadAllCars, fetchCars_begin. cbn.
    unfold loadCategories.
    destruct (has_getCategories f0); [destruct (getJson o)|]; cbn;
      rewrite H0; repeat split.
  - intros id f L. simpl. unfold onFilterClick. rewrite L. reflexivity.
  - intros f r p cs Hf Hr. simpl.
    rewrite (fetchCars_resume_found r p _ f Hf Hr).
    unfold renderCars. cbn. destruct cs; reflexivity.
Qed.

Lemma filter_clicks_never_overlap_witness :
  one_in_flight
    (run [Click (Cat 1); Respond 0 (Http true (Some (PArray [sedan])));
          Click (Cat 5); Click (Cat 2)]
         (init NetworkError fresh)).
Proof.
  apply (filter_clicks_never_overlap fresh NetworkError
           [Click (Cat 1); Respond 0 (Http true (Some (PArray [sedan])));
            Click (Cat 5); Click (Cat 2)]
           eq_refl eq_refl).
Defined.

(** C4 as stated fails: two overlapping [fetchCars] calls, the second
    answered first; the answer to the first arrives later and replaces
    the grid. *)
Lemma stale_response_overwrites :
  carsGrid (run [CallFetchCars All; CallFetchCars (Cat 5);
                 Respond 1 (Http true (Some (PArray [jeep])));
                 Respond 0 (Http true (Some (PArray [sedan])))] fresh)
  = Cards [sedan] [] /\
  ~ stale_response_ignored fresh All (Cat 5) [sedan] [jeep].
Proof.
  split; [reflexivity|].
  intros H. vm_compute in H. discriminate.
Qed.

End FleetProperties.

(* ================================================================== *)
(** * Properties of the language switcher *)

Section LangProperties.
Import Api Lang LangSpec.

(** *** Induction on the document tree *)

Lemma Node_induction (P : Node -> Prop) :
  (forall s, P (Text s)) ->
  (forall a cs, Forall P cs -> P (Elem a cs)) ->
  (forall a s, P (Title a s)) ->
  forall n, P n.
Proof.
  intros HT HE HTi. fix IH 1. intros [s|a cs|a s].
  - apply HT.
  - apply HE. induction cs as [|c cs IHcs]; constructor; [apply IH|exact IHcs].
  - apply HTi.
Qed.

Lemma map_fixed {A} (f : A -> A) l : Forall (fun x => f x = x) l -> map f l = l.
Proof.
  induction 1 as [|x l Hx _ IH]; simpl; [reflexivity|]. rewrite Hx, IH.
  reflexivity.
Qed.

Lemma map_agree {A B} (f g : A -> B) l :
  Forall (fun x => f x = g x) l -> map f l = map g l.
Proof.
  induction 1 as [|x l Hx _ IH]; simpl; [reflexivity|]. rewrite Hx, IH.
  reflexivity.
Qed.

(** *** Attribute updates keep the tree *)

Lemma textContent_map_attrs f n : textContent (map_attrs f n) = textContent n.
Proof.
  induction n as [s|a cs IH|a s] using Node_induction; simpl; try reflexivity.
  rewrite map_map. f_equal. apply map_agree, IH.
Qed.

Lemma map_attrs_compose f g n :
  map_attrs g (map_attrs f n) = map_attrs (fun a => g (f a)) n.
Proof.
  induction n as [s|a cs IH|a s] using Node_induction; simpl; try reflexivity.
  rewrite map_map. f_equal. apply map_agree, IH.
Qed.

Lemma map_attrs_ext f g n :
  (forall a, f a = g a) -> map_attrs f n = map_attrs g n.
Proof.
  intros H. induction n as [s|a cs IH|a s] using Node_induction; simpl;
    rewrite ?H; try reflexivity.
  f_equal. apply map_agree, IH.
Qed.

Lemma own_text_map_attrs f n : own_text (map_attrs f n) = own_text n.
Proof. destruct n; reflexivity. Qed.

Lemma at_path_map_attrs f p :
  forall n, at_path p (map_attrs f n) = option_map (map_attrs f) (at_path p n).
Proof.
  induction p as [|i p IH]; intros n; [reflexivity|].
  destruct n as [s|a cs|a s]; simpl; try reflexivity.
  rewrite nth_error_map. destruct (nth_error cs i) as [c|]; simpl;
    [apply IH|reflexivity].
Qed.

Lemma nodes_map_attrs f n :
  nodes (map_attrs f n) = map (map_attrs f) (nodes n).
Proof.
  induction n as [s|a cs IH|a s] using Node_induction; simpl; try reflexivity.
  f_equal. induction IH as [|c cs Hc _ IHcs]; simpl; [reflexivity|].
  rewrite map_app, Hc, IHcs. reflexivity.
Qed.

Lemma textContent_text_children a val :
  textContent (Elem a (text_children val)) = val.
Proof.
  unfold text_children. destruct (String.eqb val "") eqn:E; simpl.
  - apply String.eqb_eq in E. symmetry. exact E.
  - destruct val; reflexivity.
Qed.

Lemma map_attrs_text_children f val :
  map (map_attrs f) (text_children val) = text_children val.
Proof. unfold text_children. destruct (String.eqb val ""); reflexivity. Qed.

(** *** The first <title> *)

Lemma replace_first_nth {A} (g : A -> option A) l :
  forall l' i c,
    replace_first g l = Some l' ->
    nth_error l i = Some c ->
    nth_error l' i = Some c \/
    exists c', nth_error l' i = Some c' /\ g c = Some c' /\
               forall k x, (k < i)%nat -> nth_error l k = Some x -> g x = None.
Proof.
  induction l as [|x l IH]; intros l' i c E Hc; [discriminate|].
  simpl in E. destruct (g x) as [x'|] eqn:Gx.
  - injection E as <-. destruct i as [|i]; simpl in *.
    + injection Hc as <-. right. exists x'.
      split; [reflexivity|]. split; [exact Gx|]. intros k y Hk. lia.
    + left. exact Hc.
  - destruct (replace_first g l) as [r|] eqn:Er; [|discriminate].
    injection E as <-. destruct i as [|i]; simpl in *.
    + left. exact Hc.
    + destruct (IH r i c eq_refl Hc) as [H|[c' [H1 [H2 H3]]]];
        [left; exact H|].
      right. exists c'. split; [exact H1|]. split; [exact H2|].
      intros k y Hk Hy. destruct k as [|k]; simpl in Hy.
      * injection Hy as <-. exact Gx.
      * apply (H3 k y); [lia|exact Hy].
Qed.

Lemma replace_first_map {A B} (g : A -> option A) (h : A -> B) l :
  forall l',
    replace_first g l = Some l' ->
    (forall c c', g c = Some c' -> h c' = h c) ->
    map h l' = map h l.
Proof.
  induction l as [|x l IH]; intros l' E Hh; [discriminate|].
  simpl in E. destruct (g x) as [x'|] eqn:Gx.
  - injection E as <-. simpl. rewrite (Hh x x' Gx). reflexivity.
  - destruct (replace_first g l) as [r|] eqn:Er; [|discriminate].
    injection E as <-. simpl. rewrite (IH r eq_refl Hh). reflexivity.
Qed.

Lemma find_first_skip {A B} (f : A -> option B) l i c :
  nth_error l i = Some c ->
  (forall k x, (k < i)%nat -> nth_error l k = Some x -> f x = None) ->
  find_first f l = match f c with
                   | Some b => Some b
                   | None => find_first f (skipn (S i) l)
                   end.
Proof.
  revert i. induction l as [|x l IH]; intros i Hc Hb; [destruct i; discriminate|].
  destruct i as [|i]; simpl in Hc.
  - injection Hc as <-. reflexivity.
  - simpl. rewrite (Hb 0%nat x) by first [lia | reflexivity].
    apply IH; [exact Hc|]. intros k y Hk Hy.
    apply (Hb (S k) y); [lia|exact Hy].
Qed.

(** A subtree without a <title> has no <title> with a key. *)
Lemma set_title_none val n : set_title val n = None -> title_key n = None.
Proof.
  induction n as [s|a cs IH|a s] using Node_induction; simpl;
    [reflexivity| |discriminate].
  intros H. induction IH as [|c cs Hc _ IHcs]; simpl in *; [reflexivity|].
  destruct (set_title val c) as [c'|] eqn:Ec; [discriminate|].
  rewrite (Hc eq_refl). apply IHcs.
  destruct (replace_first (set_title val) cs); [discriminate|reflexivity].
Qed.

Lemma own_text_set_title val c c' : set_title val c = Some c' -> own_text c' = own_text c.
Proof.
  destruct c as [s|a cs|a s]; simpl; [discriminate| |].
  - destruct (replace_first _ cs); simpl; [|discriminate].
    intros H. injection H as <-. reflexivity.
  - intros H. injection H as <-. reflexivity.
Qed.

(** Where [document.title = val] leaves a node of the tree: as it was,
    or with the first <title> inside it rewritten, and then a key on
    that <title> is the key [querySelector('title[data-i18n]')] finds. *)
Lemma at_path_set_title val p :
  forall n n' m,
    set_title val n = Some n' ->
    at_path p n = Some m ->
    at_path p n' = Some m \/
    exists m', at_path p n' = Some m' /\ set_title val m = Some m' /\
               forall key, title_key m = Some key -> title_key n = Some key.
Proof.
  induction p as [|i p IH]; intros n n' m E Hm.
  - simpl in Hm. injection Hm as <-. right. exists n'.
    split; [reflexivity|]. split; [exact E|]. trivial.
  - destruct n as [s|a cs|a s]; simpl in Hm; try discriminate.
    destruct (nth_error cs i) as [c|] eqn:Hc; [|discriminate].
    simpl in E.
    destruct (replace_first (set_title val) cs) as [cs'|] eqn:Er;
      [|discriminate].
    injection E as <-. simpl.
    destruct (replace_first_nth _ cs cs' i c Er Hc) as [H|[c' [H1 [H2 H3]]]].
    + rewrite H. left. exact Hm.
    + rewrite H1.
      destruct (IH c c' m H2 Hm) as [H|[m' [M1 [M2 M3]]]]; [left; exact H|].
      right. exists m'. split; [exact M1|]. split; [exact M2|].
      intros key K. apply M3 in K.
      rewrite (find_first_skip title_key cs i c Hc).
      * rewrite K. reflexivity.
      * intros k x Hk Hx. apply (set_title_none val), (H3 k x Hk Hx).
Qed.

(** *** Walks that hand on an exception *)

Section WalkFacts.
Context {A : Type}.
Variable f : bool -> A -> A * bool.

Lemma thread_cons t c rest :
  thread f t (c :: rest)
  = (fst (f t c) :: fst (thread f (snd (f t c)) rest),
     snd (thread f (snd (f t c)) rest)).
Proof.
  simpl. destruct (f t c) as [c' t']. simpl.
  destruct (thread f t' rest) as [rest' t'']. reflexivity.
Qed.

Lemma thread_thrown l :
  (forall c, f true c = (c, true)) -> thread f true l = (l, true).
Proof.
  intros H. induction l as [|c l IH]; [reflexivity|].
  rewrite thread_cons, H. simpl. rewrite IH. reflexivity.
Qed.

Lemma thread_nth t l i c :
  nth_error l i = Some c ->
  exists t', nth_error (fst (thread f t l)) i = Some (fst (f t' c)).
Proof.
  revert t i. induction l as [|x l IH]; intros t i Hc;
    [destruct i; discriminate|].
  rewrite thread_cons. destruct i as [|i]; simpl in *.
  - injection Hc as <-. exists t. reflexivity.
  - apply IH, Hc.
Qed.

Lemma thread_map {B} (h : A -> B) t l :
  Forall (fun c => forall t, h (fst (f t c)) = h c) l ->
  map h (fst (thread f t l)) = map h l.
Proof.
  intros H. revert t. induction H as [|c l Hc _ IH]; intros t;
    [reflexivity|].
  rewrite thread_cons. simpl. rewrite Hc, IH. reflexivity.
Qed.

Lemma thread_fixed t l :
  Forall (fun c => forall t, fst (f t c) = c) l -> fst (thread f t l) = l.
Proof.
  intros H. revert t. induction H as [|c l Hc _ IH]; intros t;
    [reflexivity|].
  rewrite thread_cons. simpl. rewrite Hc, IH. reflexivity.
Qed.

Lemma thread_stays_thrown l :
  (forall c, snd (f true c) = true) -> snd (thread f true l) = true.
Proof.
  intros H. induction l as [|c l IH]; [reflexivity|].
  rewrite thread_cons, H. exact IH.
Qed.

(** A walk that ends with nothing thrown has done the whole of [g]. *)
Lemma thread_complete (g : A -> A) l :
  (forall c, snd (f true c) = true) ->
  Forall (fun c => snd (f false c) = false -> fst (f false c) = g c) l ->
  snd (thread f false l) = false ->
  fst (thread f false l) = map g l.
Proof.
  intros Hm H. induction H as [|c l Hc _ IH]; intros E; [reflexivity|].
  rewrite thread_cons in E |- *. simpl in E |- *.
  destruct (snd (f false c)) eqn:Ec.
  - rewrite (thread_stays_thrown l Hm) in E. discriminate.
  - rewrite (Hc eq_refl), (IH E). reflexivity.
Qed.

Lemma thread_calm l :
  Forall (fun c => snd (f false c) = false) l -> snd (thread f false l) = false.
Proof.
  induction 1 as [|c l Hc _ IH]; [reflexivity|].
  rewrite thread_cons. simpl. rewrite Hc. exact IH.
Qed.

End WalkFacts.

Lemma thread_nodes (P : Node -> Prop) (f : bool -> Node -> Node * bool) t l :
  Forall (fun c => forall t, Forall P (nodes (fst (f t c)))) l ->
  Forall P (flat_map nodes (fst (thread f t l))).
Proof.
  intros H. revert t. induction H as [|c l Hc _ IH]; intros t;
    [constructor|].
  rewrite thread_cons. simpl. apply Forall_app. split; [apply Hc|apply IH].
Qed.

(** *** One dictionary *)

Section Translating.
Variable inherited : JValue -> string -> Completion JValue.
Variable dict : JValue.

Local Abbreviation tt := (translate_text inherited dict).
Local Abbreviation tp := (translate_placeholders inherited dict).
Local Abbreviation ph := (translate_placeholder inherited dict).

Lemma found_string key val :
  found inherited dict (Some key) = Some val <->
  get inherited dict key = Returns (JStr val).
Proof.
  unfold found, string_of.
  destruct (get inherited dict key) as [[]|]; split; intros H;
    try discriminate; congruence.
Qed.

Lemma hit_found a :
  hit inherited dict a = true ->
  exists val, found inherited dict (data_i18n a) = Some val.
Proof.
  unfold hit. destruct (found inherited dict (data_i18n a)) as [val|];
    [exists val; reflexivity|discriminate].
Qed.

Lemma found_hit a val :
  found inherited dict (data_i18n a) = Some val -> hit inherited dict a = true.
Proof. unfold hit. intros ->. reflexivity. Qed.

Lemma miss_found a :
  hit inherited dict a = false -> found inherited dict (data_i18n a) = None.
Proof.
  unfold hit. destruct (found inherited dict (data_i18n a)); [discriminate|].
  reflexivity.
Qed.

Lemma hit_same a b : data_i18n b = data_i18n a ->
                     hit inherited dict b = hit inherited dict a.
Proof. unfold hit. intros ->. reflexivity. Qed.

Lemma placeholder_hit_same a b :
  data_i18n_placeholder b = data_i18n_placeholder a ->
  placeholder_hit inherited dict b = placeholder_hit inherited dict a.
Proof. unfold placeholder_hit. intros ->. reflexivity. Qed.

(** **** The first pass *)

Lemma tt_thrown n : tt true n = (n, true).
Proof. destruct n; reflexivity. Qed.

Lemma tt_stays_thrown n : snd (tt true n) = true.
Proof. rewrite tt_thrown. reflexivity. Qed.

Lemma tt_Elem a cs :
  tt false (Elem a cs)
  = match data_i18n a with
    | Some key =>
        match get inherited dict key with
        | Throws => (Elem a cs, true)
        | Returns (JStr val) =>
            (Elem a (text_children val), snd (thread tt false cs))
        | Returns _ =>
            (Elem a (fst (thread tt false cs)), snd (thread tt false cs))
        end
    | None => (Elem a (fst (thread tt false cs)), snd (thread tt false cs))
    end.
Proof. reflexivity. Qed.

Lemma tt_Title a s :
  tt false (Title a s)
  = match data_i18n a with
    | Some key =>
        match get inherited dict key with
        | Throws => (Title a s, true)
        | Returns (JStr val) => (Title a val, false)
        | Returns _ => (Title a s, false)
        end
    | None => (Title a s, false)
    end.
Proof. reflexivity. Qed.

(** What the first pass leaves of an element: its attributes, and its
    children as they were, walked, or replaced by the string found. *)
Lemma tt_elem t a cs :
  exists cs',
    fst (tt t (Elem a cs)) = Elem a cs' /\
    (hit inherited dict a = false ->
     cs' = cs \/ cs' = fst (thread tt false cs)) /\
    (forall val, found inherited dict (data_i18n a) = Some val ->
                 cs' = cs \/ cs' = text_children val) /\
    (forall val, found inherited dict (data_i18n a) = Some val ->
                 t = false -> cs' = text_children val).
Proof.
  destruct t.
  { rewrite tt_thrown. exists cs. split; [reflexivity|].
    split; [left; reflexivity|]. split; [left; reflexivity|discriminate]. }
  rewrite tt_Elem. unfold hit, found, string_of.
  destruct (data_i18n a) as [key|].
  - destruct (get inherited dict key) as [[]|]; simpl;
      eexists; (split; [reflexivity|]);
      (split; [try discriminate; intros _; auto|]);
      (split; [intros v E; try discriminate; injection E as <-; auto|]);
      intros v E; try discriminate; injection E as <-; auto.
  - simpl. eexists. split; [reflexivity|]. split; [auto|].
    split; discriminate.
Qed.

Lemma tt_title t a s :
  exists s',
    fst (tt t (Title a s)) = Title a s' /\
    (hit inherited dict a = false -> s' = s) /\
    (forall val, found inherited dict (data_i18n a) = Some val ->
                 t = false -> s' = val).
Proof.
  destruct t.
  { rewrite tt_thrown. exists s. split; [reflexivity|].
    split; [reflexivity|discriminate]. }
  rewrite tt_Title. unfold hit, found, string_of.
  destruct (data_i18n a) as [key|].
  - destruct (get inherited dict key) as [[]|]; simpl;
      eexists; (split; [reflexivity|]);
      (split; [try discriminate; reflexivity|]);
      intros v E; try discriminate; injection E as <-; reflexivity.
  - simpl. eexists. split; [reflexivity|]. split; [reflexivity|discriminate].
Qed.

Lemma own_text_tt t n : own_text (fst (tt t n)) = own_text n.
Proof.
  destruct n as [s|a cs|a s].
  - destruct t; reflexivity.
  - destruct (tt_elem t a cs) as [cs' [-> _]]. reflexivity.
  - destruct (tt_title t a s) as [s' [-> _]]. reflexivity.
Qed.

Lemma tt_children_text t a cs :
  hit inherited dict a = false ->
  exists cs', fst (tt t (Elem a cs)) = Elem a cs' /\
              map own_text cs' = map own_text cs.
Proof.
  intros Hm. destruct (tt_elem t a cs) as [cs' [E [H _]]].
  exists cs'. split; [exact E|].
  destruct (H Hm) as [->| ->]; [reflexivity|].
  apply thread_map, Forall_forall. intros c _ t'. apply own_text_tt.
Qed.

Lemma at_path_tt p :
  forall n m t,
    kept inherited dict p n = true ->
    at_path p n = Some m ->
    exists t', at_path p (fst (tt t n)) = Some (fst (tt t' m)).
Proof.
  induction p as [|i p IH]; intros n m t K Hm.
  - simpl in Hm. injection Hm as <-. exists t. reflexivity.
  - destruct n as [s|a cs|a s]; simpl in Hm; try discriminate.
    destruct (nth_error cs i) as [c|] eqn:Hc; [|discriminate].
    simpl in K. rewrite Hc in K. apply andb_prop in K. destruct K as [Kh Kc].
    apply negb_true_iff in Kh.
    destruct (tt_elem t a cs) as [cs' [E [H _]]]. rewrite E.
    destruct (H Kh) as [->| ->]; simpl.
    + rewrite Hc. exists true. rewrite tt_thrown. exact Hm.
    + destruct (thread_nth tt false cs i c Hc) as [t1 ->].
      apply IH; assumption.
Qed.

Lemma untouched_tt n :
  untouched inherited dict n = true -> forall t, fst (tt t n) = n.
Proof.
  induction n as [s|a cs IH|a s] using Node_induction;
    [intros _ [|]; reflexivity| |discriminate].
  intros U t. simpl in U. apply andb_prop in U. destruct U as [Uh Uc].
  apply negb_true_iff in Uh.
  destruct (tt_elem t a cs) as [cs' [E [H _]]]. rewrite E.
  destruct (H Uh) as [->| ->]; [reflexivity|]. f_equal.
  apply thread_fixed.
  rewrite forallb_forall in Uc. rewrite Forall_forall in *.
  intros c Hc. apply IH; [exact Hc|apply Uc, Hc].
Qed.

End Translating.

Lemma replace_first_none {A} (g : A -> option A) l :
  replace_first g l = None <-> Forall (fun c => g c = None) l.
Proof.
  induction l as [|c l IH]; simpl.
  - split; [constructor|reflexivity].
  - destruct (g c) as [c'|] eqn:Gc.
    + split; [discriminate|]. intros H. inversion H; congruence.
    + destruct (replace_first g l) as [r|]; simpl.
      * split; [discriminate|]. intros H. inversion H; subst.
        destruct IH as [_ IH]. discriminate (IH H3).
      * split; [|reflexivity]. intros _. constructor; [exact Gc|].
        apply IH. reflexivity.
Qed.

Lemma thread_Forall {A} (f : bool -> A -> A * bool) (P : A -> Prop) t l :
  Forall (fun c => forall t, P (fst (f t c))) l ->
  Forall P (fst (thread f t l)).
Proof.
  intros H. revert t. induction H as [|c l Hc _ IH]; intros t;
    [constructor|].
  rewrite thread_cons. simpl. constructor; [apply Hc|apply IH].
Qed.

Section Placeholders.
Variable inherited : JValue -> string -> Completion JValue.
Variable dict : JValue.

Local Abbreviation tt := (translate_text inherited dict).
Local Abbreviation tp := (translate_placeholders inherited dict).
Local Abbreviation ph := (translate_placeholder inherited dict).

(** **** The second pass *)

Lemma ph_thrown a : ph true a = (a, true).
Proof. reflexivity. Qed.

Lemma ph_cases t a :
  fst (ph t a) = a \/
  exists val, t = false /\
              found inherited dict (data_i18n_placeholder a) = Some val /\
              fst (ph t a) = set_placeholder val a.
Proof.
  destruct t; [left; reflexivity|].
  unfold translate_placeholder, found, string_of.
  destruct (data_i18n_placeholder a) as [key|]; [|left; reflexivity].
  destruct (get inherited dict key) as [[]|]; try (left; reflexivity).
  right. eexists. split; [reflexivity|]. split; reflexivity.
Qed.

Lemma ph_keys t a :
  data_i18n (fst (ph t a)) = data_i18n a /\
  data_i18n_placeholder (fst (ph t a)) = data_i18n_placeholder a /\
  lang_btn (fst (ph t a)) = lang_btn a /\
  data_lang (fst (ph t a)) = data_lang a /\
  active (fst (ph t a)) = active a.
Proof.
  destruct (ph_cases t a) as [->|[val [_ [_ ->]]]]; repeat split.
Qed.

Lemma ph_miss t a :
  placeholder_hit inherited dict a = false ->
  placeholder (fst (ph t a)) = placeholder a.
Proof.
  intros H. destruct (ph_cases t a) as [->|[val [_ [F _]]]]; [reflexivity|].
  unfold placeholder_hit in H. rewrite F in H. discriminate.
Qed.

Lemma ph_stays_thrown a : snd (ph true a) = true.
Proof. reflexivity. Qed.

Lemma tp_Elem t a cs :
  tp t (Elem a cs)
  = (Elem (fst (ph t a)) (fst (thread tp (snd (ph t a)) cs)),
     snd (thread tp (snd (ph t a)) cs)).
Proof.
  simpl. destruct (ph t a) as [a' t']. simpl.
  destruct (thread tp t' cs). reflexivity.
Qed.

Lemma tp_Title t a s :
  tp t (Title a s) = (Title (fst (ph t a)) s, snd (ph t a)).
Proof. simpl. destruct (ph t a). reflexivity. Qed.

Lemma tp_stays_thrown n : snd (tp true n) = true.
Proof.
  induction n as [s|a cs IH|a s] using Node_induction; [reflexivity| |].
  - rewrite tp_Elem. simpl.
    induction IH as [|c cs Hc _ IHcs]; [reflexivity|].
    rewrite thread_cons. simpl. rewrite Hc. exact IHcs.
  - rewrite tp_Title. reflexivity.
Qed.

Lemma own_text_tp t n : own_text (fst (tp t n)) = own_text n.
Proof.
  destruct n as [s|a cs|a s]; [reflexivity| |].
  - rewrite tp_Elem. reflexivity.
  - rewrite tp_Title. reflexivity.
Qed.

Lemma textContent_tp n : forall t, textContent (fst (tp t n)) = textContent n.
Proof.
  induction n as [s|a cs IH|a s] using Node_induction; intros t;
    [reflexivity| |].
  - rewrite tp_Elem. simpl. f_equal. apply thread_map. exact IH.
  - rewrite tp_Title. reflexivity.
Qed.

Lemma at_path_tp p :
  forall n m t,
    at_path p n = Some m ->
    exists t', at_path p (fst (tp t n)) = Some (fst (tp t' m)).
Proof.
  induction p as [|i p IH]; intros n m t Hm.
  - simpl in Hm. injection Hm as <-. exists t. reflexivity.
  - destruct n as [s|a cs|a s]; simpl in Hm; try discriminate.
    destruct (nth_error cs i) as [c|] eqn:Hc; [|discriminate].
    rewrite tp_Elem. simpl.
    destruct (thread_nth tp (snd (ph t a)) cs i c Hc) as [t1 ->].
    apply IH, Hm.
Qed.

Lemma no_title_tp val n :
  set_title val n = None -> forall t, set_title val (fst (tp t n)) = None.
Proof.
  induction n as [s|a cs IH|a s] using Node_induction;
    [reflexivity| |discriminate].
  intros H t. simpl in H.
  destruct (replace_first (set_title val) cs) as [r|] eqn:RF; [discriminate|].
  apply replace_first_none in RF.
  rewrite tp_Elem. simpl.
  replace (replace_first (set_title val) (fst (thread tp (snd (ph t a)) cs)))
    with (@None (list Node)); [reflexivity|].
  symmetry. apply replace_first_none, thread_Forall.
  rewrite Forall_forall in *. intros c Hc. apply IH; [exact Hc|].
  apply RF, Hc.
Qed.

(** **** Where nothing is translated *)

Lemma untouched_set_title val n :
  untouched inherited dict n = true -> set_title val n = None.
Proof.
  induction n as [s|a cs IH|a s] using Node_induction;
    [reflexivity| |discriminate].
  intros U. simpl in U. apply andb_prop in U. destruct U as [_ Uc]. simpl.
  replace (replace_first (set_title val) cs) with (@None (list Node));
    [reflexivity|].
  symmetry. apply replace_first_none.
  rewrite forallb_forall in Uc. rewrite Forall_forall in *.
  intros c Hc. apply IH; [exact Hc|apply Uc, Hc].
Qed.

Lemma kept_map_attrs f p :
  (forall a, data_i18n (f a) = data_i18n a) ->
  forall n, kept inherited dict p (map_attrs f n) = kept inherited dict p n.
Proof.
  intros Hf. induction p as [|i p IH]; intros n; [reflexivity|].
  destruct n as [s|a cs|a s]; simpl; try reflexivity.
  rewrite (hit_same inherited dict a (f a)) by apply Hf.
  rewrite nth_error_map.
  destruct (nth_error cs i) as [c|]; simpl; [rewrite IH|]; reflexivity.
Qed.

Lemma untouched_map_attrs f n :
  (forall a, data_i18n (f a) = data_i18n a) ->
  untouched inherited dict (map_attrs f n) = untouched inherited dict n.
Proof.
  intros Hf. induction n as [s|a cs IH|a s] using Node_induction;
    simpl; try reflexivity.
  rewrite (hit_same inherited dict a (f a)) by apply Hf. f_equal.
  induction IH as [|c cs Hc _ IHcs]; simpl; [reflexivity|].
  rewrite Hc, IHcs. reflexivity.
Qed.

End Placeholders.

Lemma mark_button_keys lang a :
  data_i18n (mark_button lang a) = data_i18n a /\
  data_i18n_placeholder (mark_button lang a) = data_i18n_placeholder a /\
  placeholder (mark_button lang a) = placeholder a /\
  lang_btn (mark_button lang a) = lang_btn a /\
  data_lang (mark_button lang a) = data_lang a.
Proof.
  unfold mark_button. destruct (lang_btn a) eqn:L; cbn; rewrite ?L;
    repeat split.
Qed.

(** *** What a loaded dictionary leaves of a node *)

Section AfterTranslation.
Variable inherited : JValue -> string -> Completion JValue.
Variable dict : JValue.
Variable lang : string.

(** The buttons marked, then the first pass and the second, each from
    some point of its walk on. *)
Local Abbreviation after_passes t1 t2 n :=
  (fst (translate_placeholders inherited dict t2
          (fst (translate_text inherited dict t1
                  (map_attrs (mark_button lang) n))))).

Lemma passes_elem t1 t2 a cs :
  exists a' cs',
    after_passes t1 t2 (Elem a cs) = Elem a' cs' /\
    data_i18n a' = data_i18n a /\
    data_i18n_placeholder a' = data_i18n_placeholder a /\
    (placeholder_hit inherited dict a = false ->
     placeholder a' = placeholder a) /\
    (hit inherited dict a = false -> map own_text cs' = map own_text cs).
Proof.
  destruct (mark_button_keys lang a) as [M1 [M2 [M3 _]]].
  destruct (ph_keys inherited dict t2 (mark_button lang a)) as [P1 [P2 _]].
  simpl map_attrs at 1.
  destruct (tt_elem inherited dict t1 (mark_button lang a)
              (map (map_attrs (mark_button lang)) cs)) as [cs1 [E [Hm _]]].
  rewrite E, tp_Elem. eexists _, _. split; [reflexivity|].
  split; [congruence|]. split; [congruence|]. split.
  - intros H. rewrite ph_miss; [exact M3|].
    rewrite (placeholder_hit_same inherited dict a); assumption.
  - intros H.
    rewrite (thread_map _ own_text)
      by (apply Forall_forall; intros c _ t; apply own_text_tp).
    assert (Hh : hit inherited dict (mark_button lang a) = false)
      by (rewrite (hit_same inherited dict a); assumption).
    destruct (Hm Hh) as [->| ->].
    + rewrite map_map. apply map_agree, Forall_forall. intros c _.
      apply own_text_map_attrs.
    + rewrite (thread_map _ own_text)
        by (apply Forall_forall; intros c _ t; apply own_text_tt).
      rewrite map_map. apply map_agree, Forall_forall. intros c _.
      apply own_text_map_attrs.
Qed.

Lemma passes_title t1 t2 a s :
  exists a' s',
    after_passes t1 t2 (Title a s) = Title a' s' /\
    data_i18n a' = data_i18n a /\
    data_i18n_placeholder a' = data_i18n_placeholder a /\
    (placeholder_hit inherited dict a = false ->
     placeholder a' = placeholder a) /\
    (hit inherited dict a = false -> s' = s).
Proof.
  destruct (mark_button_keys lang a) as [M1 [M2 [M3 _]]].
  destruct (ph_keys inherited dict t2 (mark_button lang a)) as [P1 [P2 _]].
  simpl map_attrs at 1.
  destruct (tt_title inherited dict t1 (mark_button lang a) s)
    as [s1 [E [Hm _]]].
  rewrite E, tp_Title. eexists _, _. split; [reflexivity|].
  split; [congruence|]. split; [congruence|]. split.
  - intros H. rewrite ph_miss; [exact M3|].
    rewrite (placeholder_hit_same inherited dict a); assumption.
  - intros H. apply Hm. rewrite (hit_same inherited dict a); assumption.
Qed.

Lemma passes_untouched t1 t2 n :
  untouched inherited dict n = true ->
  textContent (after_passes t1 t2 n) = textContent n /\
  forall val, set_title val (after_passes t1 t2 n) = None.
Proof.
  intros U.
  assert (U' : untouched inherited dict (map_attrs (mark_button lang) n) = true).
  { rewrite untouched_map_attrs; [exact U|]. intros a. apply mark_button_keys. }
  rewrite (untouched_tt inherited dict _ U'). split.
  - rewrite textContent_tp. apply textContent_map_attrs.
  - intros val. apply no_title_tp.
    apply (untouched_set_title inherited dict), U'.
Qed.

Lemma at_path_passes p n0 n t1 t2 :
  at_path p n0 = Some n ->
  kept inherited dict p n0 = true ->
  exists t1' t2',
    at_path p (after_passes t1 t2 n0) = Some (after_passes t1' t2' n).
Proof.
  intros Hn K.
  assert (H1 : at_path p (map_attrs (mark_button lang) n0)
               = Some (map_attrs (mark_button lang) n))
    by (rewrite at_path_map_attrs, Hn; reflexivity).
  assert (K1 : kept inherited dict p (map_attrs (mark_button lang) n0) = true).
  { rewrite kept_map_attrs; [exact K|]. intros a. apply mark_button_keys. }
  destruct (at_path_tt inherited dict p _ _ t1 K1 H1) as [t1' H2].
  destruct (at_path_tp inherited dict p _ _ t2 H2) as [t2' H3].
  exists t1', t2'. exact H3.
Qed.

End AfterTranslation.

(** *** The claim on missing keys *)

Lemma setLanguage_rejected inherited lang o st :
  loadDictionary o = Rejected ->
  setLanguage inherited lang o st
  = {| dictionary := dictionary st; currentLang := lang;
       stored := Some lang; doc := setActiveButton lang (doc st);
       log_errors := "i18n error" :: log_errors st |}.
Proof. unfold setLanguage. intros ->. reflexivity. Qed.

Lemma setLanguage_falsy inherited lang o st dict :
  loadDictionary o = Resolved dict -> truthy dict = false ->
  setLanguage inherited lang o st
  = {| dictionary := Some dict; currentLang := lang;
       stored := Some lang; doc := setActiveButton lang (doc st);
       log_errors := log_errors st |}.
Proof.
  unfold setLanguage, applyTranslations. intros -> T. simpl. rewrite T.
  reflexivity.
Qed.

Lemma setLanguage_truthy inherited lang o st dict :
  loadDictionary o = Resolved dict -> truthy dict = true ->
  let x1 := translate_text inherited dict false
              (map_attrs (mark_button lang) (root (doc st))) in
  let x2 := translate_placeholders inherited dict (snd x1) (fst x1) in
  let x3 := translate_title inherited dict (snd x2) (fst x2) in
  setLanguage inherited lang o st
  = {| dictionary := Some dict; currentLang := lang;
       stored := Some lang;
       doc := {| root := fst x3;
                 html_lang := if snd x3 then html_lang (doc st)
                              else Some lang |};
       log_errors := if snd x3 then "i18n error" :: log_errors st
                     else log_errors st |}.
Proof.
  intros Ho T x1 x2 x3. unfold setLanguage, applyTranslations. rewrite Ho.
  cbn [dictionary doc currentLang stored log_errors]. rewrite T.
  cbn [negb root setActiveButton html_lang].
  fold x1. destruct x1 as [n1 t1] eqn:E1.
  cbn [fst snd] in x2. fold x2. destruct x2 as [n2 t2] eqn:E2.
  cbn [fst snd] in x3. fold x3. destruct x3 as [n3 t3] eqn:E3.
  destruct t3; reflexivity.
Qed.

(** What [document.title = val] does at a path. *)
Lemma at_path_translate_title inherited dict t p n0 x :
  at_path p n0 = Some x ->
  at_path p (fst (translate_title inherited dict t n0)) = Some x \/
  exists key val x',
    title_key n0 = Some key /\
    get inherited dict key = Returns (JStr val) /\
    set_title val x = Some x' /\
    at_path p (fst (translate_title inherited dict t n0)) = Some x' /\
    (forall k, title_key x = Some k -> k = key).
Proof.
  intros Hx. unfold translate_title.
  destruct t; [left; exact Hx|].
  destruct (title_key n0) as [key|] eqn:K; [|left; exact Hx].
  destruct (get inherited dict key) as [[]|] eqn:G; try (left; exact Hx).
  unfold set_document_title. simpl.
  destruct (set_title s n0) as [n3|] eqn:S3; [|left; exact Hx].
  destruct (at_path_set_title s p n0 n3 x S3 Hx) as [H|[x' [Sx [Hx' Hk]]]].
  - left. exact H.
  - right. exists key, s, x'. repeat split; try assumption.
    intros k Hkx. specialize (Hk k Hkx). congruence.
Qed.

(** C7. When the locale file loads, what [setLanguage] leaves at a place
    of the document that no translated element above it has replaced,
    whether or not a lookup throws on the way: a text node keeps its
    text; an element keeps its keys, keeps its placeholder unless the
    lookup of its placeholder key gives a string, and, unless the lookup
    of its text key gives a string, keeps the text nodes among its
    children, and its whole text when nothing below it is translated
    either; a flagged <title> keeps its text unless the lookup of its key
    gives a string.  When the locale file does not load, only the
    language buttons change. *)
Theorem missing_key_keeps_content :
  forall inherited st lang o p n,
    at_path p (root (doc st)) = Some n ->
    let st' := setLanguage inherited lang o st in
    (loadDictionary o = Rejected ->
     root (doc st') = map_attrs (mark_button lang) (root (doc st))) /\
    (forall dict,
       loadDictionary o = Resolved dict ->
       kept inherited dict p (root (doc st)) = true ->
       exists n',
         at_path p (root (doc st')) = Some n' /\
         match n, n' with
         | Text s, Text s' => s' = s
         | Elem a cs, Elem a' cs' =>
             data_i18n a' = data_i18n a /\
             data_i18n_placeholder a' = data_i18n_placeholder a /\
             (placeholder_hit inherited dict a = false ->
              placeholder a' = placeholder a) /\
             (hit inherited dict a = false ->
              map own_text cs' = map own_text cs /\
              (untouched inherited dict n = true ->
               textContent n' = textContent n))
         | Title a s, Title a' s' =>
             data_i18n a' = data_i18n a /\
             data_i18n_placeholder a' = data_i18n_placeholder a /\
             (placeholder_hit inherited dict a = false ->
              placeholder a' = placeholder a) /\
             (data_i18n a <> None -> hit inherited dict a = false -> s' = s)
         | _, _ => False
         end).
Proof.
  intros inherited st lang o p n Hn st'. subst st'. split.
  { intros R. rewrite (setLanguage_rejected _ _ _ _ R). reflexivity. }
  intros dict R K.
  destruct (truthy dict) eqn:T.
  2:{ rewrite (setLanguage_falsy _ _ _ _ _ R T). simpl.
      exists (map_attrs (mark_button lang) n). split.
      { rewrite at_path_map_attrs, Hn. reflexivity. }
      destruct n as [s|a cs|a s]; simpl; [reflexivity| |];
        destruct (mark_button_keys lang a) as [M1 [M2 [M3 _]]].
      - split; [exact M1|]. split; [exact M2|]. split; [intros _; exact M3|].
        intros _. split.
        + rewrite map_map. apply map_agree, Forall_forall. intros c _.
          apply own_text_map_attrs.
        + intros _. rewrite map_map. f_equal.
          apply map_agree, Forall_forall. intros c _.
          apply textContent_map_attrs.
      - split; [exact M1|]. split; [exact M2|]. split; [intros _; exact M3|].
        reflexivity. }
  rewrite (setLanguage_truthy _ _ _ _ _ R T). cbv zeta. cbn [doc root].
  set (x1 := translate_text inherited dict false
               (map_attrs (mark_button lang) (root (doc st)))).
  set (x2 := translate_placeholders inherited dict (snd x1) (fst x1)).
  destruct (at_path_passes inherited dict lang p _ _ false (snd x1) Hn K)
    as [t1 [t2 Hx]].
  fold x1 in Hx. fold x2 in Hx.
  destruct (at_path_translate_title inherited dict (snd x2) p _ _ Hx)
    as [H|[key [val [x' [Kt [G [Sx [H Hk]]]]]]]].
  - (* the title assignment does not reach this place *)
    eexists. split; [exact H|].
    destruct n as [s|a cs|a s].
    + destruct t1, t2; reflexivity.
    + destruct (passes_elem inherited dict lang t1 t2 a cs)
        as [a' [cs' [E [D1 [D2 [Hp Hh]]]]]].
      pose proof (passes_untouched inherited dict lang t1 t2 (Elem a cs)) as U.
      rewrite E in *. split; [exact D1|]. split; [exact D2|].
      split; [exact Hp|]. intros Hm. split; [apply Hh, Hm|].
      intros Hu. apply (U Hu).
    + destruct (passes_title inherited dict lang t1 t2 a s)
        as [a' [s' [E [D1 [D2 [Hp Hh]]]]]].
      rewrite E. split; [exact D1|]. split; [exact D2|].
      split; [exact Hp|]. intros _. exact Hh.
  - (* the first <title> of the document is here or below *)
    exists x'. split; [exact H|].
    destruct n as [s|a cs|a s].
    + destruct t1, t2; discriminate Sx.
    + destruct (passes_elem inherited dict lang t1 t2 a cs)
        as [a' [cs' [E [D1 [D2 [Hp Hh]]]]]].
      pose proof (passes_untouched inherited dict lang t1 t2 (Elem a cs)) as U.
      rewrite E in *. simpl in Sx.
      destruct (replace_first (set_title val) cs') as [cs2|] eqn:RF;
        [|discriminate]. injection Sx as <-.
      split; [exact D1|]. split; [exact D2|].
      split; [exact Hp|]. intros Hm. split.
      * rewrite <- (Hh Hm).
        apply (replace_first_map (set_title val) own_text cs' cs2 RF).
        intros c c' Hc. apply (own_text_set_title val c c' Hc).
      * intros Hu. exfalso. destruct (U Hu) as [_ S0].
        specialize (S0 val). simpl in S0. rewrite RF in S0. discriminate.
    + destruct (passes_title inherited dict lang t1 t2 a s)
        as [a' [s' [E [D1 [D2 [Hp Hh]]]]]].
      rewrite E in *. simpl in Sx. injection Sx as <-.
      split; [exact D1|]. split; [exact D2|].
      split; [exact Hp|]. intros Hd Hm. exfalso.
      destruct (data_i18n a) as [k|] eqn:Dk; [|apply Hd; reflexivity].
      assert (k = key) by (apply Hk; simpl; congruence). subst k.
      apply miss_found in Hm. rewrite Dk in Hm.
      apply found_string in G. congruence.
Qed.

Lemma missing_key_keeps_content_witness :
  let st := setLanguage standard_members "en" (Http true (Some en_dict))
                        russian_page in
  exists n', at_path [1; 0]%nat (root (doc st)) = Some n' /\
             textContent n' = "Главная".
Proof.
  intros st.
  assert (Hn : at_path [1; 0]%nat (root (doc russian_page)) = Some home_link)
    by reflexivity.
  destruct (missing_key_keeps_content standard_members russian_page "en"
              (Http true (Some en_dict)) [1; 0]%nat home_link Hn) as [_ H].
  destruct (H en_dict eq_refl eq_refl) as [n' [Hn' Hm]].
  exists n'. split; [exact Hn'|].
  destruct n' as [s|a' cs'|a' s]; try contradiction.
  destruct Hm as [_ [_ [_ Hc]]]. destruct (Hc eq_refl) as [_ Ht].
  exact (Ht eq_refl).
Defined.

(** C7 as stated fails: a flagged element whose own key is missing from
    the locale file has another text after the switch, through a flagged
    element inside it that the file does translate. *)
Lemma nested_text_changes :
  let o := Http true (Some en_dict) in
  let st := page_of [nested_link] in
  get standard_members en_dict "nav.home" = Returns JUndefined /\
  option_map textContent (at_path [1; 0]%nat (root (doc st)))
  = Some "Главная / О нас" /\
  option_map textContent
    (at_path [1; 0]%nat (root (doc (setLanguage standard_members "en" o st))))
  = Some "Главная / About" /\
  ~ missing_key_keeps_text standard_members st "en" o.
Proof.
  intros o st. split; [reflexivity|]. split; [reflexivity|].
  split; [reflexivity|].
  intros H.
  specialize (H en_dict [1; 0]%nat (keyed "nav.home")
                [Text "Главная / "; about_link] "nav.home"
                eq_refl eq_refl eq_refl eq_refl).
  vm_compute in H. discriminate.
Qed.

Example get_present :
  get standard_members en_dict "nav.about" = Returns (JStr "About").
Proof. reflexivity. Qed.

Example get_missing :
  get standard_members en_dict "nav.home" = Returns JUndefined.
Proof. reflexivity. Qed.

Example get_not_a_string :
  string_of (get standard_members en_dict "nav") = None.
Proof. reflexivity. Qed.

(** A key that names a member every object inherits finds a string that
    no locale file holds, and the element shows it. *)
Example get_inherited_member :
  get standard_members en_dict "constructor.name" = Returns (JStr "Object") /\
  option_map textContent
    (at_path [1; 0]%nat
       (root (doc (setLanguage standard_members "en"
                     (Http true (Some en_dict)) (page_of [odd_link])))))
  = Some "Object".
Proof. split; reflexivity. Qed.

(** A key that leads to a getter that throws ends [applyTranslations]
    where it stands: what comes before it in the document is translated,
    what comes after it is not, the document keeps its language mark and
    the error is logged. *)
Example get_throwing_member :
  let st := setLanguage standard_members "en" (Http true (Some en_dict))
                        (page_of [about_link; bad_link; about_link;
                                  search_box]) in
  get standard_members en_dict "constructor.caller" = Throws /\
  map (fun i => option_map textContent (at_path [1; i]%nat (root (doc st))))
      [0; 1; 2]%nat
  = [Some "About"; Some "Главная"; Some "О нас"] /\
  option_map attrs (at_path [1; 3]%nat (root (doc st)))
  = Some (attrs search_box) /\
  html_lang (doc st) = Some "ru" /\
  log_errors st = ["i18n error"].
Proof. repeat split. Qed.

Example setLanguage_en :
  let st := setLanguage standard_members "en" (Http true (Some en_dict))
                        russian_page in
  map (fun i => option_map textContent (at_path [1; i]%nat (root (doc st))))
      [0; 1; 2]%nat
  = [Some "Главная"; Some "About"; Some ""] /\
  option_map attrs (at_path [1; 2]%nat (root (doc st)))
  = Some (Some {| data_i18n := None; data_i18n_placeholder := Some "search";
                  placeholder := Some "Search"; lang_btn := false;
                  data_lang := None; active := false |}) /\
  html_lang (doc st) = Some "en" /\
  log_errors st = [].
Proof. repeat split. Qed.

End LangProperties.

(* ================================================================== *)
(** * Every drawer event as a sequence of steps *)

Section DrawerSteps.
Import Drawer DrawerSpec DrawerMoves.

Lemma moves_one b c w w' : Move b c w w' -> Moves b c w w'.
Proof. intros M. eapply mvs_step; [exact M|apply mvs_done]. Qed.

Lemma moves_trans b c w1 w2 w3 :
  Moves b c w1 w2 -> Moves b c w2 w3 -> Moves b c w1 w3.
Proof.
  induction 1 as [|u1 u2 u3 M _ IH]; intros H; [exact H|].
  eapply mvs_step; [exact M|apply IH, H].
Qed.

Lemma moves_env b c w w' : script w' = script w -> Moves b c w w'.
Proof. intros H. apply moves_one, mv_env, H. Qed.

Lemma each_lift_moves b c n h :
  (forall w, Moves b c w (h w)) ->
  forall w w', each n (lift h) w = Ok w' -> Moves b c w w'.
Proof.
  intros Hh. induction n as [|n IH]; intros w w' E; simpl in E.
  - inversion E; subst. apply mvs_done.
  - unfold lift at 1 in E. simpl in E.
    eapply moves_trans; [apply Hh|apply IH, E].
Qed.

Lemma each_moves b c n h :
  (forall w w', h w = Ok w' -> Moves b c w w') ->
  forall w w', each n h w = Ok w' -> Moves b c w w'.
Proof.
  intros Hh. induction n as [|n IH]; intros w w' E; simpl in E.
  - inversion E; subst. apply mvs_done.
  - destruct (h w) as [w1|] eqn:E1; simpl in E; [|discriminate].
    eapply moves_trans; [apply Hh, E1|apply IH, E].
Qed.

Lemma moves_close b c w : Moves b c w (closeMobileMenu w).
Proof. apply moves_one, mv_close. Qed.

Lemma moves_link b c href w : Moves b c w (linkClickHandler href w).
Proof.
  unfold linkClickHandler, handleAnchorLinkClick.
  destruct href as [h|]; [|apply moves_close].
  destruct (starts_with_hash h); [|apply moves_close].
  eapply moves_trans; [apply moves_close|].
  apply moves_one, mv_anchor_timer.
Qed.

Lemma moves_outside b c w : Moves b c w (handleOutsideClick w).
Proof.
  unfold handleOutsideClick. destruct (_ && _)%bool;
    [apply moves_close|apply mvs_done].
Qed.

Lemma moves_resize b c w : Moves b c w (handleMenuResize w).
Proof.
  unfold handleMenuResize. fold (remeasure w).
  apply moves_trans with (w2 := remeasure w).
  - apply moves_env. unfold remeasure. destruct (has_nav _); reflexivity.
  - destruct (_ && _)%bool; [apply moves_close|apply mvs_done].
Qed.

Lemma moves_run_due b c target q :
  forall w, timers w = q -> Moves b c w (run_due target q w).
Proof.
  induction q as [|[d k] q IH]; intros w Hq; simpl.
  - apply moves_env. unfold script. cbn. rewrite Hq. reflexivity.
  - destruct (d <=? target).
    + eapply mvs_step; [apply (mv_fire b c w d k q), Hq|].
      apply IH. apply fire_timers.
    + apply moves_env. unfold script. cbn. rewrite Hq. reflexivity.
Qed.

(** Every event is a sequence of script steps, with [initMobileMenu]
    among them only for the initialisation event. *)
Lemma dispatch_moves ev w w' :
  dispatch ev w = Ok w' -> Moves (is_init ev) (is_drag ev) w w'.
Proof.
  intros E. destruct ev; cbv beta iota zeta delta [dispatch] in E;
    simpl is_init; simpl is_drag.
  - inversion E; subst. apply moves_one, mv_init. reflexivity.
  - destruct (has_toggle _); [|inversion E; subst; apply mvs_done].
    revert E. apply each_moves. clear. intros w w' E. inversion E; subst.
    apply moves_trans with (w2 := toggleClickHandler w).
    + unfold toggleClickHandler.
      destruct (isAnimating _); [apply mvs_done|].
      destruct (isOpen _); apply moves_one; [apply mv_close|apply mv_open].
    + apply moves_one, mv_focus_timer.
  - destruct (has_overlay _); [|inversion E; subst; apply mvs_done].
    destruct (each _ (lift overlayClickHandler) w) as [w1|] eqn:E1;
      simpl in E; [|discriminate].
    apply moves_trans with (w2 := w1).
    + revert E1. apply each_lift_moves. intros v.
      unfold overlayClickHandler.
      destruct (isOpen _); [apply moves_close|apply mvs_done].
    + revert E. apply each_lift_moves. intros v. apply moves_outside.
  - destruct (has_closeBtn _); [|inversion E; subst; apply mvs_done].
    revert E. apply each_lift_moves. intros v. apply moves_close.
  - destruct (0 <? _)%nat; [|inversion E; subst; apply mvs_done].
    revert E. apply each_lift_moves. intros v. apply moves_link.
  - revert E. apply each_moves. clear. intros w w' E.
    apply moves_trans with (w2 := escapeKeyHandler key w).
    + unfold escapeKeyHandler.
      destruct (_ && _)%bool; [apply moves_close|apply mvs_done].
    + revert E. generalize (escapeKeyHandler key w). intros u E.
      unfold focusTrapHandler in E.
      repeat match type of E with
             | (if ?c then _ else _) = _ => destruct c
             end; inversion E; subst; try apply mvs_done;
        apply moves_env; reflexivity.
  - revert E. apply each_lift_moves. intros v. apply moves_outside.
  - destruct (has_nav _); [|inversion E; subst; apply mvs_done].
    revert E. apply each_lift_moves. intros v. apply moves_env. reflexivity.
  - destruct (has_nav _); [|inversion E; subst; apply mvs_done].
    revert E. apply each_lift_moves. intros v. unfold navTouchMove.
    destruct (_ || _)%bool; [apply mvs_done|].
    destruct (_ && _)%bool; [|apply mvs_done].
    apply moves_one, mv_drag. reflexivity.
  - destruct (has_nav _); [|inversion E; subst; apply mvs_done].
    revert E. apply each_lift_moves. intros v. unfold navTouchEnd.
    destruct (_ || _)%bool; [apply mvs_done|]. cbv zeta.
    apply moves_trans with (w2 := set_page (set_nav_transform None) v);
      [apply moves_env; reflexivity|].
    destruct (_ || _)%bool; [apply moves_close|apply mvs_done].
  - destruct (has_overlay _); [|inversion E; subst; apply mvs_done].
    revert E. apply each_lift_moves. intros v. apply moves_env. reflexivity.
  - destruct (has_overlay _); [|inversion E; subst; apply mvs_done].
    revert E. apply each_lift_moves. intros v. unfold overlayTouchEnd.
    destruct (_ <? _); [apply moves_close|apply mvs_done].
  - match type of E with
    | each _ _ ?u = _ => apply moves_trans with (w2 := u)
    end; [apply moves_env; reflexivity|].
    revert E. apply each_lift_moves. intros v. apply moves_resize.
  - inversion E; subst. apply moves_resize.
  - inversion E; subst. apply moves_one, mv_scroll.
  - inversion E; subst. apply moves_env. reflexivity.
  - inversion E; subst. unfold elapse.
    eapply moves_trans; [apply moves_run_due; reflexivity|].
    apply moves_env. reflexivity.
  - inversion E; subst. apply moves_one, mv_open.
  - inversion E; subst. apply moves_close.
  - inversion E; subst. unfold apiToggle.
    destruct (isOpen _); apply moves_one; [apply mv_close|apply mv_open].
Qed.

Lemma moves_weaken b c b' c' w w' :
  (b = true -> b' = true) -> (c = true -> c' = true) ->
  Moves b c w w' -> Moves b' c' w w'.
Proof.
  intros Hb Hc. induction 1 as [|u1 u2 u3 M _ IH]; [apply mvs_done|].
  eapply mvs_step; [|exact IH].
  destruct M; try (econstructor; eassumption).
  - apply mv_init. auto.
  - apply mv_drag. auto.
Qed.

Lemma run_moves evs :
  forall w w', run evs w = Ok w' -> Moves true true w w'.
Proof.
  induction evs as [|ev evs IH]; intros w w' E; simpl in E.
  - inversion E; subst. apply mvs_done.
  - destruct (dispatch ev w) as [w1|] eqn:E1; simpl in E; [|discriminate].
    eapply moves_trans; [|apply IH, E].
    apply dispatch_moves in E1. revert E1. apply moves_weaken; trivial.
Qed.

Lemma run_moves_no_init evs :
  forall w w', no_init evs = true -> run evs w = Ok w' -> Moves false true w w'.
Proof.
  induction evs as [|ev evs IH]; intros w w' N E; simpl in E.
  - inversion E; subst. apply mvs_done.
  - simpl in N. apply andb_prop in N. destruct N as [N1 N2].
    destruct (dispatch ev w) as [w1|] eqn:E1; simpl in E; [|discriminate].
    eapply moves_trans; [|apply IH; [exact N2|exact E]].
    apply dispatch_moves in E1. apply negb_true_iff in N1.
    rewrite N1 in E1. revert E1. apply moves_weaken; trivial.
Qed.

Lemma run_moves_no_drag evs :
  forall w w', no_drag evs = true -> run evs w = Ok w' -> Moves true false w w'.
Proof.
  induction evs as [|ev evs IH]; intros w w' N E; simpl in E.
  - inversion E; subst. apply mvs_done.
  - simpl in N. apply andb_prop in N. destruct N as [N1 N2].
    destruct (dispatch ev w) as [w1|] eqn:E1; simpl in E; [|discriminate].
    eapply moves_trans; [|apply IH; [exact N2|exact E]].
    apply dispatch_moves in E1. apply negb_true_iff in N1.
    rewrite N1 in E1. revert E1. apply moves_weaken; trivial.
Qed.

Lemma moves_invariant b c (Q : World -> Prop) :
  (forall w w', Move b c w w' -> Q w -> Q w') ->
  forall w w', Moves b c w w' -> Q w -> Q w'.
Proof.
  intros H w w' M. induction M as [|u1 u2 u3 M _ IH]; [trivial|].
  intros Q1. apply IH. eapply H; eassumption.
Qed.

(** *** Appearance follows the phase *)

Lemma shown_open_face p p' : face p' = face p -> shown_open p -> shown_open p'.
Proof.
  unfold face, shown_open. intros E.
  injection E as -> -> -> -> -> -> -> ->. trivial.
Qed.

Lemma shown_closed_face p p' :
  face p' = face p -> shown_closed p -> shown_closed p'.
Proof.
  unfold face, shown_closed. intros E.
  injection E as E1 E2 E3 E4 E5 _ E7 E8.
  rewrite E1, E2, E3, E4, E5, E7, E8. trivial.
Qed.

Lemma pinned_open_face p p' : face p' = face p -> pinned_open p -> pinned_open p'.
Proof.
  unfold face, pinned_open. intros E.
  injection E as E1 E2 E3 E4 E5 _ _ E8.
  rewrite E1, E2, E3, E4, E5, E8. trivial.
Qed.

Lemma aria_closed_face p p' : face p' = face p -> aria_closed p -> aria_closed p'.
Proof.
  unfold face, aria_closed. intros E.
  injection E as E1 E2 _ _ _ E6 E7 _.
  rewrite E1, E2, E6, E7. trivial.
Qed.

Lemma shown_open_pinned p : shown_open p -> pinned_open p.
Proof.
  unfold shown_open, pinned_open. intros [H1 [H2 [H3 [H4 H5]]]].
  split; [exact H1|]. split; [exact H2|]. split; [exact H3|].
  split; [intros H; apply H4, H|intros H; apply H5, H].
Qed.

(** Every callback but [enhanceAccessibility] leaves classes, ARIA
    attributes and scroll lock alone. *)
Lemma face_fire k w :
  is_enhance (0, k) = false -> face (page (fire k w)) = face (page w).
Proof.
  destruct k; cbn; intros H; try discriminate.
  - destruct (has_closeBtn _); reflexivity.
  - destruct toggle; reflexivity.
  - destruct (isOpen _); [destruct (has_closeBtn _)|]; reflexivity.
  - reflexivity.
  - destruct (querySelector _ href); reflexivity.
Qed.

Lemma shown_closed_enhance p : shown_closed p -> shown_closed (mark_aria false p).
Proof.
  unfold shown_closed. intros [H1 [H2 [H3 H4]]]. cbn.
  split; [exact H1|]. split; [exact H2|]. split; [exact H3|].
  intros Ht. rewrite Ht. split; [apply H4, Ht|discriminate].
Qed.

Lemma pinned_open_enhance p : pinned_open p -> pinned_open (mark_aria false p).
Proof. unfold pinned_open. cbn. trivial. Qed.

Lemma aria_closed_enhance p : aria_closed (mark_aria false p).
Proof.
  unfold aria_closed. cbn. split; intros ->; reflexivity.
Qed.

Lemma shown_open_openMobileMenu w :
  isOpen (mm w) = false -> isAnimating (mm w) = false ->
  shown_open (page (openMobileMenu w)).
Proof.
  intros Fo Fa. unfold openMobileMenu. rewrite Fo, Fa. cbn.
  unfold shown_open, ensureOverlay.
  destruct (has_overlay (els (page w))) eqn:Ho; cbn; rewrite ?Ho; cbn;
    (split; [reflexivity|]); (split; [reflexivity|]);
    (split; [reflexivity|]); split; intros ->; split; reflexivity.
Qed.

Lemma shown_closed_closeMobileMenu w :
  isOpen (mm w) = true -> isAnimating (mm w) = false ->
  shown_closed (page (closeMobileMenu w)).
Proof.
  intros Fo Fa. unfold closeMobileMenu. rewrite Fo, Fa. cbn.
  unfold shown_closed, ensureOverlay.
  destruct (has_overlay (els (page w))) eqn:Ho; cbn; rewrite ?Ho; cbn;
    (split; [reflexivity|]); (split; [reflexivity|]);
    (split; [intros ->; reflexivity|]);
    intros ->; (split; [reflexivity|discriminate]).
Qed.

Lemma filter_enqueue_other (f : Z * Timer -> bool) d k q :
  f (d, k) = false -> filter f (enqueue d k q) = filter f q.
Proof.
  intros Hk. induction q as [|[d' k'] q IH]; simpl.
  - rewrite Hk. reflexivity.
  - destruct (d' <=? d); simpl.
    + rewrite IH. reflexivity.
    + rewrite Hk. reflexivity.
Qed.

Lemma flags_fire k w :
  flags (fire k w)
  = match k with
    | OpenDone => (isOpen (mm w), false)
    | CloseDone _ => (false, false)
    | _ => flags w
    end.
Proof.
  destruct k; unfold flags; cbn.
  - destruct (has_closeBtn _); reflexivity.
  - destruct toggle; reflexivity.
  - destruct (isOpen (mm w)) eqn:E; [destruct (has_closeBtn _)|];
      cbn; rewrite ?E; reflexivity.
  - reflexivity.
  - reflexivity.
  - destruct (querySelector _ href); reflexivity.
Qed.

Lemma initMobileMenu_frame w :
  timers (initMobileMenu w) = timers w /\
  scroll_pending (initMobileMenu w) = scroll_pending w /\
  isOpen (mm (initMobileMenu w)) = isOpen (mm w) /\
  isAnimating (mm (initMobileMenu w)) = isAnimating (mm w) /\
  swipeThreshold (mm (initMobileMenu w)) = swipeThreshold (mm w) /\
  face (page (initMobileMenu w)) = face (page w).
Proof.
  assert (F : face (ensureOverlay (page w)) = face (page w))
    by (unfold ensureOverlay; destruct (has_overlay _); reflexivity).
  unfold initMobileMenu.
  destruct (_ || _)%bool; cbn; repeat split; exact F.
Qed.

(** What a step does to the pending [enhanceAccessibility] timeouts: it
    keeps them, or it runs the first of them. *)
Lemma enhance_move b c w w' :
  Move b c w w' ->
  filter is_enhance (timers w') = filter is_enhance (timers w) \/
  exists d, filter is_enhance (timers w)
            = (d, EnhanceAccessibility) :: filter is_enhance (timers w').
Proof.
  intros M. destruct M as [w|w|w d k q t Hq|w|w h|w y|w _|w pr _|w w' E].
  - left. unfold openMobileMenu. destruct (_ || _)%bool; [reflexivity|].
    cbn. apply filter_enqueue_other. reflexivity.
  - left. unfold closeMobileMenu. destruct (_ || _)%bool; [reflexivity|].
    cbn. apply filter_enqueue_other. reflexivity.
  - rewrite fire_timers, Hq. cbn.
    destruct k; cbn; try (left; reflexivity).
    right. exists d. reflexivity.
  - left. unfold toggleFocusHandler, setTimeout. cbn.
    apply filter_enqueue_other. reflexivity.
  - left. unfold setTimeout. cbn. apply filter_enqueue_other. reflexivity.
  - left. unfold scrollListener. destruct (scroll_pending _); [reflexivity|].
    cbn. apply filter_enqueue_other. reflexivity.
  - left. destruct (initMobileMenu_frame w) as [-> _]. reflexivity.
  - left. reflexivity.
  - left. unfold script in E.
    injection E as E1 _ _ _ _ _ _ _ _ _ _ _. rewrite E1. reflexivity.
Qed.

Lemma enhanced_move b c w w' : Move b c w w' -> enhanced w -> enhanced w'.
Proof.
  unfold enhanced. intros M H.
  destruct (enhance_move b c w w' M) as [E|[d E]]; [congruence|].
  rewrite H in E. discriminate.
Qed.

Lemma one_enhance_move b c w w' :
  Move b c w w' ->
  (List.length (filter is_enhance (timers w)) <= 1)%nat ->
  (List.length (filter is_enhance (timers w')) <= 1)%nat.
Proof.
  intros M H.
  destruct (enhance_move b c w w' M) as [E|[d E]]; rewrite E in *;
    [exact H|]. simpl in H. lia.
Qed.

(** The observer that [enhanceAccessibility] puts on the panel runs
    after [openMobileMenu] or [closeMobileMenu] has changed the panel's
    class, and finds the ARIA attributes already as it writes them. *)
Lemma ariaObserver_after_open w :
  has_nav (els (page w)) = true ->
  isOpen (mm w) = false -> isAnimating (mm w) = false ->
  ariaObserver (page (openMobileMenu w)) = page (openMobileMenu w).
Proof.
  intros Hn Fo Fa. unfold openMobileMenu. rewrite Fo, Fa.
  destruct w as [m p n q sp c o].
  destruct p as [e cl ar nt oo bs sy iw nw ae di wa hi un].
  destruct e as [ht hn ho hc li hh qs]. cbn in Hn. subst hn.
  destruct ar as [a1 a2 a3 a4].
  unfold ariaObserver. destruct ho, hc, ht; reflexivity.
Qed.

Lemma ariaObserver_after_close w :
  has_nav (els (page w)) = true ->
  isOpen (mm w) = true -> isAnimating (mm w) = false ->
  ariaObserver (page (closeMobileMenu w)) = page (closeMobileMenu w).
Proof.
  intros Hn Fo Fa. unfold closeMobileMenu. rewrite Fo, Fa.
  destruct w as [m p n q sp c o].
  destruct p as [e cl ar nt oo bs sy iw nw ae di wa hi un].
  destruct e as [ht hn ho hc li hh qs]. cbn in Hn. subst hn.
  destruct ar as [a1 a2 a3 a4].
  unfold ariaObserver. destruct ho, hc, ht; reflexivity.
Qed.

Section Appearance.
Variable opened : World -> Prop.
Variable side : World -> Prop.
Hypothesis opened_same : forall w w',
    face (page w') = face (page w) ->
    filter is_enhance (timers w') = filter is_enhance (timers w) ->
    opened w -> opened w'.
Hypothesis opened_open : forall w,
    isOpen (mm w) = false -> isAnimating (mm w) = false ->
    opened (openMobileMenu w).
Hypothesis opened_enhance : forall w d q t,
    timers w = (d, EnhanceAccessibility) :: q ->
    side w -> opened w ->
    opened (fire EnhanceAccessibility (set_now t (set_timers q w))).

Lemma coherent_same w w' :
  animations (timers w') = animations (timers w) ->
  filter is_enhance (timers w') = filter is_enhance (timers w) ->
  isOpen (mm w') = isOpen (mm w) ->
  isAnimating (mm w') = isAnimating (mm w) ->
  face (page w') = face (page w) ->
  coherent_with opened w -> coherent_with opened w'.
Proof.
  unfold coherent_with. intros -> En -> -> F.
  destruct (animations (timers w)) as [|[d [| | | | |]] [|]];
    destruct (isOpen (mm w)), (isAnimating (mm w)); trivial;
    first [apply opened_same; assumption | apply shown_closed_face, F].
Qed.

Lemma coherent_quiet w :
  coherent_with opened w -> isAnimating (mm w) = false ->
  animations (timers w) = [].
Proof.
  unfold coherent_with. intros C A. rewrite A in C.
  destruct (animations (timers w)) as [|[d [| | | | |]] [|]];
    destruct (isOpen (mm w)); try contradiction; reflexivity.
Qed.

Lemma coherent_move b c w w' :
  Move b c w w' -> side w ->
  coherent_with opened w -> coherent_with opened w'.
Proof.
  intros M Sd C.
  destruct M as [w|w|w d k q t Hq|w|w h|w y|w _|w pr _|w w' E].
  - (* open *)
    destruct (isOpen (mm w) || isAnimating (mm w))%bool eqn:G.
    + unfold openMobileMenu. rewrite G. exact C.
    + apply orb_false_elim in G. destruct G as [Fo Fa].
      assert (Hq := coherent_quiet w C Fa).
      assert (Sh := opened_open w Fo Fa).
      unfold coherent_with.
      replace (animations (timers (openMobileMenu w)))
        with [(now w + 350, OpenDone)].
      * replace (isOpen (mm (openMobileMenu w))) with true
          by (unfold openMobileMenu; rewrite Fo, Fa; reflexivity).
        replace (isAnimating (mm (openMobileMenu w))) with true
          by (unfold openMobileMenu; rewrite Fo, Fa; reflexivity).
        exact Sh.
      * unfold openMobileMenu. rewrite Fo, Fa. cbn. symmetry.
        apply animations_enqueue_first; [reflexivity|exact Hq].
  - (* close *)
    destruct (negb (isOpen (mm w)) || isAnimating (mm w))%bool eqn:G.
    + unfold closeMobileMenu. rewrite G. exact C.
    + apply orb_false_elim in G. destruct G as [Fo Fa].
      apply negb_false_iff in Fo.
      assert (Hq := coherent_quiet w C Fa).
      assert (Sh := shown_closed_closeMobileMenu w Fo Fa).
      unfold coherent_with.
      replace (animations (timers (closeMobileMenu w)))
        with [(now w + 350, CloseDone (has_toggle (els (page w))))].
      * replace (isOpen (mm (closeMobileMenu w))) with true
          by (unfold closeMobileMenu; rewrite Fo, Fa; cbn; rewrite Fo;
              reflexivity).
        replace (isAnimating (mm (closeMobileMenu w))) with true
          by (unfold closeMobileMenu; rewrite Fo, Fa; reflexivity).
        exact Sh.
      * unfold closeMobileMenu. rewrite Fo, Fa. cbn.
        unfold ensureOverlay. symmetry.
        destruct (has_overlay _);
          (apply animations_enqueue_first; [reflexivity|exact Hq]).
  - (* a timeout fires *)
    set (v := set_now t (set_timers q w)).
    assert (Ft : timers (fire k v) = q) by (rewrite fire_timers; reflexivity).
    destruct (is_enhance (0, k)) eqn:Ek.
    + (* enhanceAccessibility *)
      destruct k; try discriminate.
      assert (Op := opened_enhance w d q t Hq Sd).
      fold v in Op.
      unfold coherent_with in *. rewrite Ft. rewrite Hq in C.
      unfold animations in *. simpl in C.
      change (isOpen (mm (fire EnhanceAccessibility v))) with (isOpen (mm w)).
      change (isAnimating (mm (fire EnhanceAccessibility v)))
        with (isAnimating (mm w)).
      destruct (filter is_animation q) as [|[d0 [| | | | |]] [|]];
        destruct (isOpen (mm w)), (isAnimating (mm w)); trivial;
        first [apply Op, C | apply shown_closed_enhance, C].
    + assert (Ff : face (page (fire k v)) = face (page w))
        by (rewrite face_fire by exact Ek; reflexivity).
      assert (Fe : filter is_enhance q = filter is_enhance (timers w)).
      { rewrite Hq. simpl.
        change (is_enhance (d, k)) with (is_enhance (0, k)).
        rewrite Ek. reflexivity. }
      assert (Os : opened w -> opened (fire k v)).
      { apply opened_same; [exact Ff|]. rewrite Ft. exact Fe. }
      assert (Fl := flags_fire k v).
      unfold coherent_with, animations in *. rewrite Ft. rewrite Hq in C.
      simpl in C.
      destruct k; simpl in C; try discriminate.
      * (* OpenDone *)
        replace (isAnimating (mm (fire OpenDone v))) with false
          by (symmetry; exact (f_equal snd Fl)).
        replace (isOpen (mm (fire OpenDone v))) with (isOpen (mm w))
          by (symmetry; exact (f_equal fst Fl)).
        destruct (filter is_animation q);
          destruct (isOpen (mm w)), (isAnimating (mm w)); try contradiction.
        apply Os, C.
      * (* CloseDone *)
        replace (isAnimating (mm (fire (CloseDone toggle) v))) with false
          by (symmetry; exact (f_equal snd Fl)).
        replace (isOpen (mm (fire (CloseDone toggle) v))) with false
          by (symmetry; exact (f_equal fst Fl)).
        destruct (filter is_animation q);
          destruct (isOpen (mm w)), (isAnimating (mm w)); try contradiction.
        apply (shown_closed_face _ _ Ff), C.
      * (* ToggleFocus *)
        replace (isOpen (mm (fire ToggleFocus v))) with (isOpen (mm w))
          by (symmetry; exact (f_equal fst Fl)).
        replace (isAnimating (mm (fire ToggleFocus v))) with (isAnimating (mm w))
          by (symmetry; exact (f_equal snd Fl)).
        destruct (filter is_animation q) as [|[d0 [| | | | |]] [|]];
          destruct (isOpen (mm w)), (isAnimating (mm w)); trivial;
          first [apply Os, C | apply (shown_closed_face _ _ Ff), C].
      * (* ScrollSample *)
        replace (isOpen (mm (fire ScrollSample v))) with (isOpen (mm w))
          by (symmetry; exact (f_equal fst Fl)).
        replace (isAnimating (mm (fire ScrollSample v))) with (isAnimating (mm w))
          by (symmetry; exact (f_equal snd Fl)).
        destruct (filter is_animation q) as [|[d0 [| | | | |]] [|]];
          destruct (isOpen (mm w)), (isAnimating (mm w)); trivial;
          first [apply Os, C | apply (shown_closed_face _ _ Ff), C].
      * (* AnchorScroll *)
        replace (isOpen (mm (fire (AnchorScroll href) v))) with (isOpen (mm w))
          by (symmetry; exact (f_equal fst Fl)).
        replace (isAnimating (mm (fire (AnchorScroll href) v)))
          with (isAnimating (mm w))
          by (symmetry; exact (f_equal snd Fl)).
        destruct (filter is_animation q) as [|[d0 [| | | | |]] [|]];
          destruct (isOpen (mm w)), (isAnimating (mm w)); trivial;
          first [apply Os, C | apply (shown_closed_face _ _ Ff), C].
  - (* the focus timeout is armed *)
    revert C. apply coherent_same; try reflexivity;
      unfold toggleFocusHandler, setTimeout; cbn;
      apply filter_enqueue_other; reflexivity.
  - (* the scroll of an anchor link is armed *)
    revert C. apply coherent_same; try reflexivity;
      unfold setTimeout; cbn; apply filter_enqueue_other; reflexivity.
  - (* scroll *)
    revert C. apply coherent_same; unfold scrollListener;
      destruct (scroll_pending _); try reflexivity;
      cbn; apply filter_enqueue_other; reflexivity.
  - (* initialisation *)
    destruct (initMobileMenu_frame w) as [I1 [_ [I3 [I4 [_ I6]]]]].
    revert C. apply coherent_same; try assumption; rewrite I1; reflexivity.
  - (* a drag repaints panel and overlay *)
    revert C. apply coherent_same; reflexivity.
  - (* environment *)
    unfold script in E. injection E as E1 _ E3 E4 _ E6 E7 E8 E9 _ _ _.
    revert C. apply coherent_same; try assumption.
    + rewrite E1. reflexivity.
    + rewrite E1. reflexivity.
    + unfold face. rewrite E6, E7, E8, E9. reflexivity.
Qed.

Lemma coherent_phase w :
  coherent_with opened w ->
  match phase w with
  | Opening | Open => opened w
  | Closing | Closed => shown_closed (page w)
  end.
Proof.
  unfold coherent_with, phase. intros C.
  destruct (animations (timers w)) as [|[d [| | | | |]] [|]];
    destruct (isOpen (mm w)), (isAnimating (mm w));
    try contradiction; exact C.
Qed.

End Appearance.

Lemma page_load_coherent opened e iw nw y :
  coherent_with opened (page_load e iw nw y).
Proof.
  unfold coherent_with, shown_closed. cbn.
  split; [reflexivity|]. split; [reflexivity|]. split; [reflexivity|].
  intros _. split; [reflexivity|discriminate].
Qed.

(** From page load: shown open, but for ARIA attributes that
    [enhanceAccessibility] has reset. *)
Lemma reachable_coherent e iw nw y evs w :
  run evs (page_load e iw nw y) = Ok w ->
  coherent_with opened_or_reset w.
Proof.
  intros E. apply run_moves in E.
  pose (side := fun u : World =>
                  (List.length (filter is_enhance (timers u)) <= 1)%nat).
  assert (H : side w /\ coherent_with opened_or_reset w).
  { refine (moves_invariant true true
              (fun u => side u /\ coherent_with opened_or_reset u)
              _ _ _ E _).
    - intros u u' M [Sd C]. split; [eapply one_enhance_move; eassumption|].
      refine (coherent_move opened_or_reset side _ _ _ _ _ _ _ M Sd C).
      + intros v v' F En [P [O|[A N]]].
        * split; [apply (pinned_open_face _ _ F), P|].
          left. apply (shown_open_face _ _ F), O.
        * split; [apply (pinned_open_face _ _ F), P|].
          right. split; [apply (aria_closed_face _ _ F), A|].
          unfold enhanced in *. rewrite En. exact N.
      + intros v Fo Fa.
        assert (O := shown_open_openMobileMenu v Fo Fa).
        split; [apply shown_open_pinned, O|left; exact O].
      + intros v d q t Hq Sv [P _].
        split; [apply pinned_open_enhance, P|].
        right. split; [apply aria_closed_enhance|].
        unfold enhanced. cbn. unfold side in Sv. rewrite Hq in Sv.
        simpl in Sv. destruct (filter is_enhance q); [reflexivity|].
        simpl in Sv. lia.
    - split; [unfold side; simpl; lia|apply page_load_coherent]. }
  apply H.
Qed.

(** Once [enhanceAccessibility] has run: shown open in full. *)
Lemma enhanced_coherent evs w w' :
  enhanced w -> coherent w -> run evs w = Ok w' -> coherent w'.
Proof.
  intros N C E. apply run_moves in E.
  assert (H : enhanced w' /\ coherent w').
  { refine (moves_invariant true true
              (fun u => enhanced u /\ coherent u) _ _ _ E (conj N C)).
    intros u u' M [Sd Cu]. split; [eapply enhanced_move; eassumption|].
    refine (coherent_move opened_full enhanced _ _ _ _ _ _ _ M Sd Cu).
    - intros v v' F _. apply shown_open_face, F.
    - intros v Fo Fa. apply shown_open_openMobileMenu; assumption.
    - intros v d q t Hq Sv _. unfold enhanced in Sv. rewrite Hq in Sv.
      discriminate. }
  apply H.
Qed.



(** A drawer opened before [enhanceAccessibility] runs is open with the
    ARIA attributes of a closed one from then until it is closed. *)
Example early_open_marked_closed :
  let w := after [Elapse 100; Init; Init; ToggleClick; Elapse 400]
                 (page_load full_markup 390 300 40) in
  phase w = Open /\
  toggle_aria_expanded (aria (page w)) = Some "false" /\
  nav_aria_hidden (aria (page w)) = Some "true".
Proof. vm_compute. repeat split. Qed.

(** *** The outside-click listener *)

Lemma outside_listeners_move w w' :
  Move false true w w' -> outside_listeners w' = outside_listeners w.
Proof.
  intros M. destruct M as [w|w|w d k q t Hq|w|w h|w y|w H|w pr H|w w' E].
  - unfold openMobileMenu. destruct (_ || _)%bool; reflexivity.
  - unfold closeMobileMenu. destruct (_ || _)%bool; reflexivity.
  - destruct k; cbn.
    + destruct (has_closeBtn _); reflexivity.
    + destruct toggle; reflexivity.
    + destruct (isOpen _); [destruct (has_closeBtn _)|]; reflexivity.
    + reflexivity.
    + reflexivity.
    + destruct (querySelector _ href); reflexivity.
  - reflexivity.
  - reflexivity.
  - unfold scrollListener. destruct (scroll_pending _); reflexivity.
  - discriminate.
  - reflexivity.
  - unfold script in E. injection E as _ _ _ _ _ _ _ _ _ _ E _. exact E.
Qed.

Lemma initMobileMenu_narrow w :
  innerWidth (page w) <= 768 ->
  outside_listeners (initMobileMenu w) = outside_listeners w.
Proof.
  intros H. unfold initMobileMenu.
  assert (W : innerWidth (page (set_page ensureOverlay w)) = innerWidth (page w))
    by (cbn; unfold ensureOverlay; destruct (has_overlay _); reflexivity).
  destruct (_ || _)%bool; [reflexivity|]. cbn.
  replace (768 <? innerWidth (ensureOverlay (page w))) with false;
    [reflexivity|].
  symmetry. apply Z.ltb_ge. cbn in W. rewrite W. exact H.
Qed.

Lemma initMobileMenu_width w :
  innerWidth (page (initMobileMenu w)) = innerWidth (page w).
Proof.
  assert (W : innerWidth (ensureOverlay (page w)) = innerWidth (page w))
    by (unfold ensureOverlay; destruct (has_overlay _); reflexivity).
  unfold initMobileMenu. destruct (_ || _)%bool; cbn; exact W.
Qed.

Lemma iter_init_narrow n w :
  innerWidth (page w) <= 768 ->
  outside_listeners (Nat.iter n initMobileMenu w) = outside_listeners w /\
  innerWidth (page (Nat.iter n initMobileMenu w)) = innerWidth (page w).
Proof.
  intros H. induction n as [|n [IH1 IH2]]; simpl; [split; reflexivity|].
  split.
  - rewrite initMobileMenu_narrow by (rewrite IH2; exact H). exact IH1.
  - rewrite initMobileMenu_width. exact IH2.
Qed.

(** X2.  The document listener that closes the drawer on an outside
    click is attached by [initMobileMenu] only when the window is wider
    than 768 px at that moment.  On a page initialised (any number of
    times) at 768 px or less, whatever happens afterwards, resizes to
    desktop widths included, an outside click changes nothing. *)
Theorem outside_click_needs_wide_init :
  forall e iw nw y n evs w,
    iw <= 768 ->
    no_init evs = true ->
    run evs (Nat.iter n initMobileMenu (page_load e iw nw y)) = Ok w ->
    dispatch OutsideClick w = Ok w.
Proof.
  intros e iw nw y n evs w Hw N E.
  assert (O : outside_listeners w = 0%nat).
  { apply run_moves_no_init in E; [|exact N].
    assert (O0 : outside_listeners (Nat.iter n initMobileMenu (page_load e iw nw y))
                 = 0%nat)
      by (apply (iter_init_narrow n (page_load e iw nw y)); exact Hw).
    revert E O0.
    apply (moves_invariant false true (fun u => outside_listeners u = 0%nat)).
    intros u u' M Hu. rewrite (outside_listeners_move u u' M). exact Hu. }
  simpl. rewrite O. reflexivity.
Qed.

Lemma outside_click_needs_wide_init_witness :
  let w := after [ToggleClick; Elapse 350; Resize 1280 300; Elapse 400;
                  ApiOpen; Elapse 350] (phone 0) in
  innerWidth (page w) = 1280 /\ phase w = Open /\
  dispatch OutsideClick w = Ok w.
Proof.
  intros w.
  assert (E : run [ToggleClick; Elapse 350; Resize 1280 300; Elapse 400;
                   ApiOpen; Elapse 350]
                  (Nat.iter 2 initMobileMenu (page_load full_markup 390 300 0))
              = Ok w) by (vm_compute; reflexivity).
  split; [vm_compute; reflexivity|]. split; [vm_compute; reflexivity|].
  exact (outside_click_needs_wide_init full_markup 390 300 0 2
           [ToggleClick; Elapse 350; Resize 1280 300; Elapse 400;
            ApiOpen; Elapse 350] w ltac:(lia) eq_refl E).
Defined.

(** *** The scroll throttle *)

Lemma sample_count_enqueue d k q :
  List.length (filter is_scroll_sample (enqueue d k q))
  = (List.length (filter is_scroll_sample q)
     + if is_scroll_sample (d, k) then 1 else 0)%nat.
Proof.
  induction q as [|[d' k'] q IH]; simpl.
  - destruct (is_scroll_sample (d, k)); reflexivity.
  - destruct (d' <=? d); simpl.
    + destruct (is_scroll_sample (d', k')); simpl; rewrite IH; reflexivity.
    + destruct (is_scroll_sample (d, k)); simpl;
        destruct (is_scroll_sample (d', k')); simpl; lia.
Qed.

Lemma throttled_move b c w w' : Move b c w w' -> throttled w -> throttled w'.
Proof.
  intros M T. destruct M as [w|w|w d k q t Hq|w|w h|w y|w H|w pr H|w w' E];
    unfold throttled in *.
  - unfold openMobileMenu. destruct (_ || _)%bool; [exact T|]. cbn.
    rewrite sample_count_enqueue. simpl. rewrite Nat.add_0_r. exact T.
  - unfold closeMobileMenu. destruct (_ || _)%bool; [exact T|]. cbn.
    rewrite sample_count_enqueue. simpl. rewrite Nat.add_0_r. exact T.
  - rewrite Hq in T. simpl in T. rewrite fire_timers. cbn [timers set_now set_timers].
    destruct k; simpl in T.
    + replace (scroll_pending (fire OpenDone (set_now t (set_timers q w))))
        with (scroll_pending w)
        by (cbn; destruct (has_closeBtn _); reflexivity).
      exact T.
    + replace (scroll_pending (fire (CloseDone toggle) (set_now t (set_timers q w))))
        with (scroll_pending w)
        by (cbn; destruct toggle; reflexivity).
      exact T.
    + replace (scroll_pending (fire ToggleFocus (set_now t (set_timers q w))))
        with (scroll_pending w)
        by (cbn; destruct (isOpen _); [destruct (has_closeBtn _)|]; reflexivity).
      exact T.
    + cbn. destruct (scroll_pending w); [|discriminate].
      injection T as T. exact T.
    + exact T.
    + replace (scroll_pending (fire (AnchorScroll href) (set_now t (set_timers q w))))
        with (scroll_pending w)
        by (cbn; destruct (querySelector _ href); reflexivity).
      exact T.
  - unfold toggleFocusHandler, setTimeout. cbn.
    rewrite sample_count_enqueue. simpl. rewrite Nat.add_0_r. exact T.
  - unfold setTimeout. cbn.
    rewrite sample_count_enqueue. simpl. rewrite Nat.add_0_r. exact T.
  - unfold scrollListener. cbn.
    destruct (scroll_pending w) eqn:P; cbn; [rewrite P; exact T|].
    rewrite sample_count_enqueue, T. reflexivity.
  - destruct (initMobileMenu_frame w) as [I1 [I2 _]]. rewrite I1, I2. exact T.
  - exact T.
  - unfold script in E. injection E as E1 E2 _ _ _ _ _ _ _ _ _ _.
    rewrite E1, E2. exact T.
Qed.

(** X3.  The scroll listener is throttled: after any sequence of events
    from page load at most one sampling timeout is pending, and
    [scrollTimeout] is set exactly while it is. *)
Theorem scroll_sampling_throttled :
  forall e iw nw y evs w,
    run evs (page_load e iw nw y) = Ok w ->
    throttled w /\
    (List.length (filter is_scroll_sample (timers w)) <= 1)%nat.
Proof.
  intros e iw nw y evs w E.
  assert (T : throttled w).
  { apply run_moves in E.
    assert (T0 : throttled (page_load e iw nw y)) by reflexivity.
    revert E T0. apply moves_invariant. intros u u'. apply throttled_move. }
  split; [exact T|]. unfold throttled in T. rewrite T.
  destruct (scroll_pending w); lia.
Qed.

Lemma scroll_sampling_throttled_witness :
  let w := after [Scroll 10; Scroll 20; Elapse 50; Scroll 35] (phone 0) in
  timers w = [(100, ScrollSample); (500, EnhanceAccessibility)] /\
  (List.length (filter is_scroll_sample (timers w)) <= 1)%nat.
Proof.
  intros w.
  assert (E : run [Init; Init; Scroll 10; Scroll 20; Elapse 50; Scroll 35]
                  (page_load full_markup 390 300 0) = Ok w)
    by (vm_compute; reflexivity).
  destruct (scroll_sampling_throttled _ _ _ _ _ _ E) as [_ L].
  split; [vm_compute; reflexivity|exact L].
Defined.

(** *** The swipe threshold and the release rule *)

Lemma swipeThreshold_move b c w w' :
  Move b c w w' -> swipeThreshold (mm w') = swipeThreshold (mm w).
Proof.
  intros M. destruct M as [w|w|w d k q t Hq|w|w h|w y|w H|w pr H|w w' E].
  - unfold openMobileMenu. destruct (_ || _)%bool; reflexivity.
  - unfold closeMobileMenu. destruct (_ || _)%bool; reflexivity.
  - destruct k; cbn.
    + destruct (has_closeBtn _); reflexivity.
    + destruct toggle; reflexivity.
    + destruct (isOpen _); [destruct (has_closeBtn _)|]; reflexivity.
    + reflexivity.
    + reflexivity.
    + destruct (querySelector _ href); reflexivity.
  - reflexivity.
  - reflexivity.
  - unfold scrollListener. destruct (scroll_pending _); reflexivity.
  - apply initMobileMenu_frame.
  - reflexivity.
  - unfold script in E. injection E as _ _ _ _ E _ _ _ _ _ _ _. exact E.
Qed.

Lemma reachable_threshold e iw nw y evs w :
  run evs (page_load e iw nw y) = Ok w -> swipeThreshold (mm w) = 50.
Proof.
  intros E. apply run_moves in E.
  refine (moves_invariant true true (fun u => swipeThreshold (mm u) = 50)
            _ _ _ E eq_refl).
  intros u u' M Hu. rewrite (swipeThreshold_move true true u u' M). exact Hu.
Qed.

Lemma navTouchEnd_decides e iw nw y evs w x :
  run evs (page_load e iw nw y) = Ok w ->
  phase w = Open ->
  has_nav (els (page w)) = true ->
  (0 < core_listeners w)%nat ->
  let dx := x - touchStartX (mm w) in
  let dt := option_map (fun t0 => now w - t0) (touchStartTime (mm w)) in
  let go := ((swipeThreshold (mm w) <? dx) || velocity_exceeds dx dt)%bool in
  exists w',
    dispatch (NavTouchEnd x) w = Ok w' /\
    nav_transform (page w') = None /\
    phase w' = if go then Closing else Open.
Proof.
  intros E Ph Hnav Hn dx dt go.
  assert (F := phase_open_flags w Ph).
  assert (S := reachable_serialised _ _ _ (page_load_serialised e iw nw y) E).
  assert (So := reachable_sorted _ _ _ (page_load_sorted e iw nw y) E).
  destruct (core_listeners w) as [|n] eqn:En; [inversion Hn|].
  exists (navTouchEnd x w). split.
  { cbv beta iota zeta delta [dispatch]. rewrite Hnav, En.
    apply each_lift_settles, navTouchEnd_twice, F. }
  rewrite (navTouchEnd_unfold x w F). cbv zeta. fold dx. fold dt. fold go.
  set (v := set_page (set_nav_transform None) w).
  destruct go.
  - destruct (closeMobileMenu_from_open v) as [P1 _];
      [exact S|exact So|exact F|].
    split; [|exact P1].
    assert (Fo : isOpen (mm w) = true) by exact (f_equal fst F).
    assert (Fa : isAnimating (mm w) = false) by exact (f_equal snd F).
    unfold closeMobileMenu. subst v. cbn. rewrite Fo, Fa. cbn.
    unfold ensureOverlay. destruct (has_overlay _); reflexivity.
  - split; [reflexivity|exact Ph].
Qed.

(** X4.  The release rule in full.  Nothing ever writes
    [MobileMenu.swipeThreshold], so it is 50 in every reachable state.
    On the open, wired drawer a touchend on the panel always resets the
    panel transform, and it starts the close exactly when the finger
    travelled more than 50 px to the right or faster than 0.3 px/ms;
    otherwise the drawer stays open. *)
Theorem swipe_release_rule :
  forall e iw nw y evs w x,
    run evs (page_load e iw nw y) = Ok w ->
    phase w = Open ->
    has_nav (els (page w)) = true ->
    (0 < core_listeners w)%nat ->
    let dx := x - touchStartX (mm w) in
    let dt := option_map (fun t0 => now w - t0) (touchStartTime (mm w)) in
    swipeThreshold (mm w) = 50 /\
    exists w',
      dispatch (NavTouchEnd x) w = Ok w' /\
      nav_transform (page w') = None /\
      (phase w' = Closing <-> 50 < dx \/ velocity_exceeds dx dt = true) /\
      (phase w' = Open <-> dx <= 50 /\ velocity_exceeds dx dt = false).
Proof.
  intros e iw nw y evs w x E Ph Hnav Hn dx dt.
  assert (T := reachable_threshold _ _ _ _ _ _ E).
  split; [exact T|].
  destruct (navTouchEnd_decides e iw nw y evs w x E Ph Hnav Hn)
    as [w' [D [Tr P]]].
  fold dx in P. fold dt in P. rewrite T in P.
  exists w'. split; [exact D|]. split; [exact Tr|].
  destruct ((50 <? dx) || velocity_exceeds dx dt)%bool eqn:G.
  - apply orb_true_iff in G. rewrite Z.ltb_lt in G.
    split; split; intros H; try exact P; try exact G.
    + rewrite P in H. discriminate.
    + exfalso. destruct H as [H1 H2]. destruct G as [G|G]; [lia|congruence].
  - apply orb_false_iff in G. rewrite Z.ltb_ge in G.
    split; split; intros H; try exact P; try exact G.
    + rewrite P in H. discriminate.
    + exfalso. destruct G as [G1 G2]. destruct H as [H|H]; [lia|congruence].
Qed.

Lemma swipe_release_rule_witness :
  let w := after [ToggleClick; Elapse 350; NavTouchStart 100 200; Elapse 100]
                 (phone 0) in
  exists w', dispatch (NavTouchEnd 140) w = Ok w' /\ phase w' = Closing.
Proof.
  intros w.
  assert (E : run [Init; Init; ToggleClick; Elapse 350;
                   NavTouchStart 100 200; Elapse 100]
                  (page_load full_markup 390 300 0) = Ok w)
    by (vm_compute; reflexivity).
  assert (Ph : phase w = Open) by (vm_compute; reflexivity).
  assert (Hn : has_nav (els (page w)) = true) by (vm_compute; reflexivity).
  assert (Hl : (0 < core_listeners w)%nat) by (vm_compute; lia).
  destruct (swipe_release_rule _ _ _ _ _ _ 140 E Ph Hn Hl)
    as [_ [w' [D [_ [C _]]]]].
  exists w'. split; [exact D|]. apply C. right. vm_compute. reflexivity.
Defined.

(** *** Swipe drag *)

Lemma navTouchMove_twice x y w :
  navTouchMove x y (navTouchMove x y w) = navTouchMove x y w.
Proof.
  unfold navTouchMove at 2.
  destruct (negb (isOpen (mm w)) || isAnimating (mm w))%bool eqn:G.
  - unfold navTouchMove. rewrite G. reflexivity.
  - destruct ((Z.abs (y - touchStartY (mm w)) <? Z.abs (x - touchStartX (mm w)))
              && (0 <? x - touchStartX (mm w)))%bool eqn:H.
    + unfold navTouchMove. cbn. rewrite G, H.
      destruct w as [m p n q sp cl ol]. destruct p. reflexivity.
    + unfold navTouchMove. rewrite G, H. reflexivity.
Qed.

Lemma swipeProgress_range dx width :
  0 < dx -> 0 <= width ->
  progress_in_range (swipeProgress dx width) /\
  (swipeProgress dx width = Full <-> width <= dx).
Proof.
  intros Hd Hw. unfold swipeProgress.
  replace (0 <=? width) with true by (symmetry; apply Z.leb_le, Hw).
  simpl. destruct (width <=? dx) eqn:E.
  - apply Z.leb_le in E. split; [exact I|]. split; trivial.
  - apply Z.leb_gt in E. split; [simpl; lia|].
    split; [discriminate|lia].
Qed.

Lemma fade_range dx width :
  0 < dx -> 0 <= width ->
  fade_in_range (fade (swipeProgress dx width)) /\
  (three_tenths (fade (swipeProgress dx width)) <-> width <= dx).
Proof.
  intros Hd Hw. unfold swipeProgress.
  replace (0 <=? width) with true by (symmetry; apply Z.leb_le, Hw).
  cbn [andb]. destruct (width <=? dx) eqn:E;
    unfold fade, fade_in_range, three_tenths.
  - apply Z.leb_le in E. split; [lia|]. split; [trivial|lia].
  - apply Z.leb_gt in E. split; [lia|]. split; lia.
Qed.



(** *** The overlay fade *)

Lemma overlay_opacity_move b w w' :
  Move b false w w' -> overlay_opacity (page w') = overlay_opacity (page w).
Proof.
  intros M. destruct M as [w|w|w d k q t Hq|w|w h|w y|w _|w pr H|w w' E].
  - unfold openMobileMenu. destruct (_ || _)%bool; [reflexivity|]. cbn.
    unfold ensureOverlay. destruct (has_overlay _); reflexivity.
  - unfold closeMobileMenu. destruct (_ || _)%bool; [reflexivity|]. cbn.
    unfold ensureOverlay. destruct (has_overlay _); reflexivity.
  - assert (L := layout_fire k (set_now t (set_timers q w))).
    unfold layout in L. injection L as _ _ _ _ L. exact L.
  - reflexivity.
  - reflexivity.
  - unfold scrollListener. destruct (scroll_pending _); reflexivity.
  - unfold initMobileMenu.
    assert (O : overlay_opacity (ensureOverlay (page w)) = overlay_opacity (page w))
      by (unfold ensureOverlay; destruct (has_overlay _); reflexivity).
    destruct (_ || _)%bool; cbn; exact O.
  - discriminate.
  - unfold script in E. injection E as _ _ _ _ _ _ _ _ _ _ _ E. exact E.
Qed.

(** X6.  Only a drag writes the inline opacity of the overlay: neither
    the release that ends the drag nor closing, reopening, resizing or
    initialising resets it.  Across any sequence of events without a
    touchmove on the panel the overlay keeps the opacity it had. *)
Theorem overlay_fade_persists :
  forall evs w w',
    no_drag evs = true ->
    run evs w = Ok w' ->
    overlay_opacity (page w') = overlay_opacity (page w).
Proof.
  intros evs w w' N E. apply run_moves_no_drag in E; [|exact N].
  refine (moves_invariant true false
            (fun u => overlay_opacity (page u) = overlay_opacity (page w))
            _ _ _ E eq_refl).
  intros u u' M Hu. rewrite (overlay_opacity_move true u u' M). exact Hu.
Qed.

Lemma overlay_fade_persists_witness :
  let w := after [ToggleClick; Elapse 350; NavTouchStart 100 200;
                  NavTouchMove 130 200] (phone 0) in
  let w' := after [Elapse 400; NavTouchEnd 130; KeyDown "Escape" false;
                   Elapse 350; ToggleClick; Elapse 350] w in
  phase w' = Open /\ nav_transform (page w') = None /\
  overlay_opacity (page w') = Some (Fraction 2790 3000).
Proof.
  intros w w'.
  assert (E : run [Elapse 400; NavTouchEnd 130; KeyDown "Escape" false;
                   Elapse 350; ToggleClick; Elapse 350] w = Ok w')
    by (vm_compute; reflexivity).
  split; [vm_compute; reflexivity|]. split; [vm_compute; reflexivity|].
  rewrite (overlay_fade_persists
             [Elapse 400; NavTouchEnd 130; KeyDown "Escape" false;
              Elapse 350; ToggleClick; Elapse 350] w w' eq_refl E).
  vm_compute. reflexivity.
Defined.

(** *** The focus trap *)

Lemma each_fixed n h w : h w = Ok w -> each n h w = Ok w.
Proof.
  intros H. induction n as [|n IH]; simpl; [reflexivity|].
  rewrite H. simpl. exact IH.
Qed.

Lemma each_settles n h w w1 :
  h w = Ok w1 -> h w1 = Ok w1 -> each (S n) h w = Ok w1.
Proof. intros H H1. simpl. rewrite H. simpl. apply each_fixed, H1. Qed.

Lemma each_throws n h w e : h w = TypeError e -> each (S n) h w = TypeError e.
Proof. intros H. simpl. rewrite H. reflexivity. Qed.

(** X7.  The focus trap on a drawer that has its close button and at
    least one link, however many times the listeners were attached: with
    the drawer open, Tab on the close button moves the focus to the first
    link and Shift+Tab on the first link moves it to the close button;
    every other Tab press is left alone (Tab on the last link is not
    wrapped by the script), and so is every Tab press while the drawer is
    closed.  No case throws. *)
Theorem focus_trap_wraps :
  forall w shift,
    has_closeBtn (els (page w)) = true ->
    (0 < links (els (page w)))%nat ->
    (0 < core_listeners w)%nat ->
    dispatch (KeyDown "Tab" shift) w
    = Ok (if negb (isOpen (mm w)) then w
          else if shift then
                 if focus_eqb (activeElement (page w)) (FLink 0)
                 then set_page (focus FCloseBtn) w else w
               else
                 if focus_eqb (activeElement (page w)) FCloseBtn
                 then set_page (focus (FLink 0)) w else w).
Proof.
  intros w shift Hc Hl Hn.
  destruct (core_listeners w) as [|n] eqn:En; [inversion Hn|].
  cbv beta iota zeta delta [dispatch]. rewrite En.
  assert (Hl' : (0 <? links (els (page w)))%nat = true)
    by (apply Nat.ltb_lt, Hl).
  apply each_settles.
  - unfold escapeKeyHandler, focusTrapHandler. simpl.
    rewrite Hc, Hl'. simpl.
    destruct (isOpen (mm w)); simpl; [|reflexivity].
    destruct shift; destruct (focus_eqb _ _); reflexivity.
  - unfold escapeKeyHandler, focusTrapHandler. simpl.
    destruct (isOpen (mm w)) eqn:Fo; simpl; [|rewrite Fo; reflexivity].
    destruct shift;
      destruct (focus_eqb (activeElement (page w)) _) eqn:Fe;
      cbn; rewrite Fo, ?Hc, ?Fe, ?andb_false_r; cbn;
      rewrite ?Fe, ?andb_false_r; reflexivity.
Qed.

Lemma focus_trap_wraps_witness :
  let w := after [ToggleClick; Elapse 350] (phone 0) in
  activeElement (page w) = FCloseBtn /\
  dispatch (KeyDown "Tab" false) w = Ok (set_page (focus (FLink 0)) w).
Proof.
  intros w. split; [vm_compute; reflexivity|].
  rewrite (focus_trap_wraps w false)
    by (vm_compute; first [reflexivity | lia]).
  vm_compute. reflexivity.
Defined.

(** *** Calls in a row *)

Lemma openMobileMenu_effect w :
  openMobileMenu w = w \/ isAnimating (mm (openMobileMenu w)) = true.
Proof.
  unfold openMobileMenu. destruct (_ || _)%bool; [left|right]; reflexivity.
Qed.

Lemma closeMobileMenu_effect w :
  closeMobileMenu w = w \/
  (isAnimating (mm (closeMobileMenu w)) = true /\
   isOpen (mm (closeMobileMenu w)) = true).
Proof.
  unfold closeMobileMenu.
  destruct (negb (isOpen (mm w)) || isAnimating (mm w))%bool eqn:G;
    [left; reflexivity|right].
  apply orb_false_elim in G. destruct G as [G _].
  apply negb_false_iff in G. cbn. rewrite G. split; reflexivity.
Qed.

Lemma apiToggle_animating w :
  isAnimating (mm w) = true -> apiToggle w = w.
Proof.
  intros H. unfold apiToggle.
  destruct (isOpen _);
    [apply closeMobileMenu_animating|apply openMobileMenu_animating]; exact H.
Qed.

(** X8.  A call that takes effect raises the animating flag, so whatever
    is called next is absorbed: [open()], [close()] and [toggle()] are each
    idempotent, and right after an [open()] or [close()] that changed the
    state, each of the three returns that state unchanged. *)
Theorem second_call_absorbed :
  forall w,
    openMobileMenu (openMobileMenu w) = openMobileMenu w /\
    closeMobileMenu (closeMobileMenu w) = closeMobileMenu w /\
    apiToggle (apiToggle w) = apiToggle w /\
    (openMobileMenu w <> w ->
     closeMobileMenu (openMobileMenu w) = openMobileMenu w /\
     apiToggle (openMobileMenu w) = openMobileMenu w) /\
    (closeMobileMenu w <> w ->
     openMobileMenu (closeMobileMenu w) = closeMobileMenu w /\
     apiToggle (closeMobileMenu w) = closeMobileMenu w).
Proof.
  intros w.
  assert (Oo : openMobileMenu (openMobileMenu w) = openMobileMenu w).
  { destruct (isOpen (mm w) || isAnimating (mm w))%bool eqn:G.
    - assert (H : openMobileMenu w = w)
        by (unfold openMobileMenu; rewrite G; reflexivity).
      rewrite H. exact H.
    - apply openMobileMenu_animating.
      unfold openMobileMenu. rewrite G. reflexivity. }
  split; [exact Oo|]. split; [apply closeMobileMenu_twice|].
  split.
  { destruct (isOpen (mm w)) eqn:Fo.
    - assert (Tw : apiToggle w = closeMobileMenu w)
        by (unfold apiToggle; rewrite Fo; reflexivity).
      rewrite Tw. destruct (closeMobileMenu_effect w) as [H|[H _]].
      + rewrite H, Tw. exact H.
      + apply apiToggle_animating, H.
    - assert (Tw : apiToggle w = openMobileMenu w)
        by (unfold apiToggle; rewrite Fo; reflexivity).
      rewrite Tw. destruct (openMobileMenu_effect w) as [H|H].
      + rewrite H, Tw. exact H.
      + apply apiToggle_animating, H. }
  split.
  - intros N. destruct (openMobileMenu_effect w) as [H|H]; [contradiction|].
    split; [apply closeMobileMenu_animating|apply apiToggle_animating]; exact H.
  - intros N. destruct (closeMobileMenu_effect w) as [H|[H _]]; [contradiction|].
    split; [apply openMobileMenu_animating|apply apiToggle_animating]; exact H.
Qed.

Lemma second_call_absorbed_witness :
  let w := phone 0 in
  closeMobileMenu (openMobileMenu w) = openMobileMenu w /\
  apiToggle (openMobileMenu w) = openMobileMenu w.
Proof.
  intros w.
  destruct (second_call_absorbed w) as [_ [_ [_ [H _]]]].
  apply H. intros E.
  assert (F : isOpen (mm (openMobileMenu w)) = isOpen (mm w))
    by (rewrite E; reflexivity).
  vm_compute in F. discriminate.
Defined.

(** *** Listeners attached more than once *)

Lemma guarded_close_twice (c : World -> bool) w :
  let h := fun v => if c v then closeMobileMenu v else v in
  h (h w) = h w.
Proof.
  cbv beta zeta. destruct (c w) eqn:E.
  - destruct (c (closeMobileMenu w)); [apply closeMobileMenu_twice|reflexivity].
  - rewrite E. reflexivity.
Qed.

Lemma navTouchEnd_twice_any x w :
  navTouchEnd x (navTouchEnd x w) = navTouchEnd x w.
Proof.
  destruct (isOpen (mm w)) eqn:Fo; destruct (isAnimating (mm w)) eqn:Fa;
    try (assert (H : navTouchEnd x w = w)
           by (unfold navTouchEnd; rewrite Fo, Fa; reflexivity);
         rewrite H; exact H).
  apply navTouchEnd_twice. unfold flags. rewrite Fo, Fa. reflexivity.
Qed.

Lemma focusTrapHandler_other_key key shift w :
  String.eqb key "Tab" = false -> focusTrapHandler key shift w = Ok w.
Proof.
  intros K. unfold focusTrapHandler. rewrite K. simpl.
  destruct (negb _); reflexivity.
Qed.

Lemma keyHandler_settles key shift w w1 :
  focusTrapHandler key shift (escapeKeyHandler key w) = Ok w1 ->
  focusTrapHandler key shift (escapeKeyHandler key w1) = Ok w1.
Proof.
  destruct (String.eqb key "Tab") eqn:K.
  - apply String.eqb_eq in K. subst key.
    change (escapeKeyHandler "Tab" w) with w.
    change (escapeKeyHandler "Tab" w1) with w1.
    unfold focusTrapHandler. simpl.
    destruct (isOpen (mm w)) eqn:Fo; simpl;
      [|intros H; inversion H; subst; rewrite Fo; reflexivity].
    destruct shift.
    + destruct ((0 <? links (els (page w)))%nat
                && focus_eqb (activeElement (page w)) (FLink 0))%bool eqn:C.
      * destruct (has_closeBtn (els (page w))); [|discriminate].
        intros H. inversion H; subst. cbn. rewrite Fo, andb_false_r.
        reflexivity.
      * intros H. inversion H; subst. rewrite Fo, C. reflexivity.
    + destruct (has_closeBtn (els (page w))
                && focus_eqb (activeElement (page w)) FCloseBtn)%bool eqn:C.
      * destruct (0 <? links (els (page w)))%nat; [|discriminate].
        intros H. inversion H; subst. cbn. rewrite Fo, andb_false_r.
        reflexivity.
      * intros H. inversion H; subst. rewrite Fo, C. reflexivity.
  - rewrite !focusTrapHandler_other_key by exact K.
    intros H. inversion H; subst. f_equal.
    apply (guarded_close_twice
             (fun v => (String.eqb key "Escape" && isOpen (mm v))%bool)).
Qed.

Lemma toggleClickHandler_effect w :
  isAnimating (mm (toggleClickHandler w)) = true.
Proof.
  unfold toggleClickHandler.
  destruct (isAnimating (mm w)) eqn:Fa; [exact Fa|].
  destruct (isOpen (mm w)) eqn:Fo.
  - unfold closeMobileMenu. rewrite Fo, Fa. reflexivity.
  - unfold openMobileMenu. rewrite Fo, Fa. reflexivity.
Qed.

Lemma toggle_pairs_animating n :
  forall w, isAnimating (mm w) = true ->
  exists w', each n (fun v => Ok (toggleFocusHandler (toggleClickHandler v))) w
             = Ok w' /\
             mm w' = mm w /\ page w' = page w /\
             animations (timers w') = animations (timers w).
Proof.
  induction n as [|n IH]; intros w Fa; simpl.
  - exists w. repeat split.
  - assert (Hs : toggleClickHandler w = w)
      by (unfold toggleClickHandler; rewrite Fa; reflexivity).
    rewrite Hs.
    destruct (IH (toggleFocusHandler w) Fa) as [w' [E [M [P A]]]].
    exists w'. split; [exact E|]. split; [exact M|]. split; [exact P|].
    rewrite A. unfold toggleFocusHandler, setTimeout. cbn.
    apply animations_enqueue_other. reflexivity.
Qed.

Lemma count_enqueue (f : Z * Timer -> bool) d k q :
  List.length (filter f (enqueue d k q))
  = (List.length (filter f q) + if f (d, k) then 1 else 0)%nat.
Proof.
  induction q as [|[d' k'] q IH]; simpl.
  - destruct (f (d, k)); reflexivity.
  - destruct (d' <=? d); simpl.
    + destruct (f (d', k')); simpl; rewrite IH; reflexivity.
    + destruct (f (d, k)); simpl; destruct (f (d', k')); simpl; lia.
Qed.

(** Link listeners that meet the guard of [closeMobileMenu] each arm one
    delayed scroll and change nothing else. *)
Lemma link_pairs_guarded h n :
  starts_with_hash h = true ->
  forall w,
    (negb (isOpen (mm w)) || isAnimating (mm w))%bool = true ->
    exists w', each n (lift (linkClickHandler (Some h))) w = Ok w' /\
               mm w' = mm w /\ page w' = page w /\
               animations (timers w') = animations (timers w) /\
               anchor_scrolls w' = (anchor_scrolls w + n)%nat.
Proof.
  intros Hh. induction n as [|n IH]; intros w G.
  - exists w. unfold anchor_scrolls. simpl. repeat split. lia.
  - change (each (S n) (lift (linkClickHandler (Some h))) w)
      with (each n (lift (linkClickHandler (Some h)))
                 (linkClickHandler (Some h) w)).
    assert (Hs : linkClickHandler (Some h) w = setTimeout (AnchorScroll h) 400 w).
    { unfold linkClickHandler, handleAnchorLinkClick. rewrite Hh.
      unfold closeMobileMenu. rewrite G. reflexivity. }
    rewrite Hs.
    destruct (IH (setTimeout (AnchorScroll h) 400 w) G) as [w' [E [M [P [A C]]]]].
    exists w'. split; [exact E|]. split; [exact M|]. split; [exact P|].
    split.
    + rewrite A. unfold setTimeout. cbn.
      apply animations_enqueue_other. reflexivity.
    + rewrite C. unfold anchor_scrolls, setTimeout. cbn.
      rewrite count_enqueue. simpl. lia.
Qed.

Lemma closeMobileMenu_guarded w :
  (negb (isOpen (mm (closeMobileMenu w)))
   || isAnimating (mm (closeMobileMenu w)))%bool = true.
Proof.
  destruct (negb (isOpen (mm w)) || isAnimating (mm w))%bool eqn:G.
  - unfold closeMobileMenu. rewrite G. exact G.
  - unfold closeMobileMenu. rewrite G. cbn. apply orb_true_r.
Qed.

Lemma anchor_scrolls_close w :
  anchor_scrolls (closeMobileMenu w) = anchor_scrolls w.
Proof.
  unfold closeMobileMenu, anchor_scrolls.
  destruct (_ || _)%bool; [reflexivity|]. cbn.
  rewrite count_enqueue. simpl. lia.
Qed.

(** X9.  [initMobileMenu] is scheduled twice, so every listener it
    creates is attached twice.  The guards make that harmless but for
    two of them: a listener attached [n + 1] times leaves the state that
    one run of it leaves, for the overlay, close button, outside click,
    touch and key listeners and for the listener of a link that is no
    in-page anchor; [n + 1] toggle listeners open or close the drawer
    once, the extra runs only arming further focus timeouts; and
    [n + 1] listeners of an in-page anchor link close the drawer once
    and arm [n + 1] delayed scrolls. *)
Theorem repeated_listeners_absorbed :
  forall n w x y key shift href,
    each (S n) (lift overlayClickHandler) w = Ok (overlayClickHandler w) /\
    each (S n) (lift closeBtnClickHandler) w = Ok (closeBtnClickHandler w) /\
    (in_page href = false ->
     each (S n) (lift (linkClickHandler href)) w = Ok (linkClickHandler href w)) /\
    each (S n) (lift handleOutsideClick) w = Ok (handleOutsideClick w) /\
    each (S n) (lift (navTouchStart x y)) w = Ok (navTouchStart x y w) /\
    each (S n) (lift (navTouchMove x y)) w = Ok (navTouchMove x y w) /\
    each (S n) (lift (navTouchEnd x)) w = Ok (navTouchEnd x w) /\
    each (S n) (lift (overlayTouchStart x y)) w = Ok (overlayTouchStart x y w) /\
    each (S n) (lift (overlayTouchEnd x)) w = Ok (overlayTouchEnd x w) /\
    each (S n) (fun v => focusTrapHandler key shift (escapeKeyHandler key v)) w
    = focusTrapHandler key shift (escapeKeyHandler key w) /\
    (exists w',
      each (S n) (fun v => Ok (toggleFocusHandler (toggleClickHandler v))) w
      = Ok w' /\
      mm w' = mm (toggleClickHandler w) /\
      page w' = page (toggleClickHandler w) /\
      animations (timers w') = animations (timers (toggleClickHandler w))) /\
    (in_page href = true ->
     exists w',
       each (S n) (lift (linkClickHandler href)) w = Ok w' /\
       mm w' = mm (closeMobileMenu w) /\
       page w' = page (closeMobileMenu w) /\
       animations (timers w') = animations (timers (closeMobileMenu w)) /\
       anchor_scrolls w' = (anchor_scrolls w + S n)%nat).
Proof.
  intros n w x y key shift href.
  split; [apply each_lift_settles;
          apply (guarded_close_twice (fun v => isOpen (mm v)))|].
  split; [apply each_lift_settles, closeMobileMenu_twice|].
  split.
  { intros Hp. apply each_lift_settles.
    assert (E : forall v, linkClickHandler href v = closeMobileMenu v).
    { intros v. unfold linkClickHandler. destruct href as [h|]; [|reflexivity].
      simpl in Hp. rewrite Hp. reflexivity. }
    rewrite !E. apply closeMobileMenu_twice. }
  split; [apply each_lift_settles;
          apply (guarded_close_twice
                   (fun v => (isOpen (mm v) && has_nav (els (page v))
                              && has_toggle (els (page v)))%bool))|].
  split; [apply each_lift_settles;
          destruct w as [m p t q sp cl ol]; destruct m; reflexivity|].
  split; [apply each_lift_settles, navTouchMove_twice|].
  split; [apply each_lift_settles, navTouchEnd_twice_any|].
  split; [apply each_lift_settles;
          destruct w as [m p t q sp cl ol]; destruct m; reflexivity|].
  split; [apply each_lift_settles;
          apply (guarded_close_twice
                   (fun v => swipeThreshold (mm v) <? x - touchStartX (mm v)))|].
  split.
  { destruct (focusTrapHandler key shift (escapeKeyHandler key w))
      as [w1|e] eqn:E.
    + apply each_settles; [exact E|]. eapply keyHandler_settles, E.
    + apply each_throws, E. }
  split.
  - simpl.
    assert (Fa := toggleClickHandler_effect w).
    destruct (toggle_pairs_animating n
                (toggleFocusHandler (toggleClickHandler w)) Fa)
      as [w' [E [M [P A]]]].
    exists w'. split; [exact E|]. split; [exact M|]. split; [exact P|].
    rewrite A. unfold toggleFocusHandler, setTimeout. cbn.
    apply animations_enqueue_other. reflexivity.
  - intros Hp. destruct href as [h|]; [|discriminate]. simpl in Hp.
    change (each (S n) (lift (linkClickHandler (Some h))) w)
      with (each n (lift (linkClickHandler (Some h)))
                 (linkClickHandler (Some h) w)).
    assert (Hs : linkClickHandler (Some h) w
                 = setTimeout (AnchorScroll h) 400 (closeMobileMenu w)).
    { unfold linkClickHandler, handleAnchorLinkClick. rewrite Hp. reflexivity. }
    rewrite Hs.
    destruct (link_pairs_guarded h n Hp
                (setTimeout (AnchorScroll h) 400 (closeMobileMenu w))
                (closeMobileMenu_guarded w))
      as [w' [E [M [P [A C]]]]].
    exists w'. split; [exact E|]. split; [exact M|]. split; [exact P|].
    split.
    + rewrite A. unfold setTimeout. cbn.
      apply animations_enqueue_other. reflexivity.
    + rewrite C. unfold anchor_scrolls at 1. unfold setTimeout. cbn.
      rewrite count_enqueue. simpl.
      fold (anchor_scrolls (closeMobileMenu w)).
      rewrite anchor_scrolls_close. lia.
Qed.

Lemma repeated_listeners_absorbed_witness :
  let w := after [ToggleClick; Elapse 350] (phone 0) in
  exists w',
    each 2 (lift (linkClickHandler (Some "#fleet"))) w = Ok w' /\
    anchor_scrolls w' = 2%nat /\
    each 2 (lift (linkClickHandler (Some "/contacts"))) w
    = Ok (linkClickHandler (Some "/contacts") w).
Proof.
  intros w.
  destruct (repeated_listeners_absorbed 1 w 0 0 "Enter" false (Some "#fleet"))
    as [_ [_ [_ [_ [_ [_ [_ [_ [_ [_ [_ H]]]]]]]]]]].
  destruct (H eq_refl) as [w' [E [_ [_ [_ C]]]]].
  destruct (repeated_listeners_absorbed 1 w 0 0 "Enter" false (Some "/contacts"))
    as [_ [_ [L _]]].
  exists w'. split; [exact E|]. split; [rewrite C; vm_compute; reflexivity|].
  apply L. reflexivity.
Defined.

(** Both scrolls run: the state is pushed to the history twice. *)
Example anchor_link_scrolls_twice :
  let w := after [ToggleClick; Elapse 350; LinkClick (Some "#fleet"); Elapse 400]
                 (phone 0) in
  history (page w) = ["#fleet"; "#fleet"] /\ scrollY (page w) = 1146.
Proof. vm_compute. split; reflexivity. Qed.

End DrawerSteps.

(* ================================================================== *)
(** * Properties of the viewport detection *)

Section DetectorProperties.
Import Detector.

Lemma Breakpoint_eqb_eq a b : Breakpoint_eqb a b = true <-> a = b.
Proof. destruct a, b; simpl; split; intros H; congruence. Qed.

Lemma settled_detect env st0 :
  settled (innerWidth env)
          (detectDeviceCapabilities env st0 no_classes).
Proof.
  unfold settled, detectDeviceCapabilities. cbn.
  repeat split;
    match goal with
    | |- (if ?c then true else false) = _ => destruct c; reflexivity
    end.
Qed.

Lemma settled_handleResize w0 w st body :
  settled w0 (st, body) ->
  settled w (fst (handleResize w st body)).
Proof.
  unfold settled. intros [H1 [H2 [H3 [H4 [H5 [H6 [H7 H8]]]]]]].
  unfold handleResize. cbn. rewrite H4, H8. cbn.
  destruct (Breakpoint_eqb (breakpointOf w0) (breakpointOf w)) eqn:E; cbn.
  - apply Breakpoint_eqb_eq in E. rewrite E. repeat split.
  - repeat split.
Qed.

Lemma last_cons (w : Z) ws : forall w0, last (w :: ws) w0 = last ws w.
Proof.
  revert w. induction ws as [|z ws IH]; intros w w0; [reflexivity|].
  change (last (w :: z :: ws) w0) with (last (z :: ws) w0).
  rewrite (IH z w0), (IH z w). reflexivity.
Qed.

Lemma resizes_settled widths :
  forall w0 s, settled w0 s -> settled (last widths w0) (resizes widths s).
Proof.
  induction widths as [|w ws IH]; intros w0 s H; [exact H|].
  change (resizes (w :: ws) s)
    with (resizes ws (fst (handleResize w (fst s) (snd s)))).
  rewrite last_cons.
  apply IH. destruct s as [st body]. apply (settled_handleResize w0), H.
Qed.

Lemma resizes_isMenuOpen widths :
  forall s, isMenuOpen (fst (resizes widths s)) = isMenuOpen (fst s).
Proof.
  induction widths as [|w ws IH]; intros s; [reflexivity|].
  change (resizes (w :: ws) s)
    with (resizes ws (fst (handleResize w (fst s) (snd s)))).
  rewrite IH. reflexivity.
Qed.

(** X10.  After the detection at load and any run of resizes, the flags
    of [AppState], its breakpoint and the body classes are exactly those
    of a page freshly loaded at the last width: one device class that
    mirrors the flags and a single [breakpoint-*] class, the one of that
    width.  Neither function writes [AppState.isMenuOpen]; a resize calls
    [window.mobileMenu.close()] only when that flag was set beforehand,
    the new width exceeds 768 and the breakpoint changes. *)
Theorem resizes_agree_with_detection :
  forall env st0 widths,
    let s := resizes widths
               (detectDeviceCapabilities env st0 no_classes) in
    settled (last widths (innerWidth env)) s /\
    isMenuOpen (fst s) = isMenuOpen st0 /\
    forall w, snd (handleResize w (fst s) (snd s)) = true ->
              isMenuOpen st0 = true /\ 768 < w /\
              breakpointOf w <> breakpointOf (last widths (innerWidth env)).
Proof.
  intros env st0 widths s.
  assert (Hs : settled (last widths (innerWidth env)) s)
    by apply resizes_settled, settled_detect.
  assert (Hm : isMenuOpen (fst s) = isMenuOpen st0)
    by (subst s; rewrite resizes_isMenuOpen; reflexivity).
  split; [exact Hs|]. split; [exact Hm|].
  intros w. unfold handleResize. cbn. rewrite Hm.
  destruct s as [st body]. destruct Hs as [_ [_ [_ [H4 _]]]].
  cbn. rewrite H4. cbn. intros H.
  apply andb_prop in H. destruct H as [H Ho].
  apply andb_prop in H. destruct H as [Hc Hw].
  split; [exact Ho|]. split; [apply Z.ltb_lt, Hw|].
  intros E. rewrite E in Hc.
  rewrite (proj2 (Breakpoint_eqb_eq _ _) eq_refl) in Hc. discriminate.
Qed.

Lemma resizes_agree_with_detection_witness :
  let env := {| innerWidth := 500; reducedMotion := false; touch := true |} in
  let st0 := {| isMobile := false; isTablet := false; isDesktop := false;
                prefersReducedMotion := false; isTouchDevice := false;
                currentBreakpoint := None; isMenuOpen := true |} in
  let s := resizes [600; 700] (detectDeviceCapabilities env st0 no_classes) in
  snd (handleResize 1200 (fst s) (snd s)) = true /\
  768 < 1200 /\ breakpointOf 1200 <> breakpointOf 700.
Proof.
  cbv zeta.
  assert (H : snd (handleResize 1200
                     (fst (resizes [600; 700]
                             (detectDeviceCapabilities
                                {| innerWidth := 500; reducedMotion := false;
                                   touch := true |}
                                {| isMobile := false; isTablet := false;
                                   isDesktop := false;
                                   prefersReducedMotion := false;
                                   isTouchDevice := false;
                                   currentBreakpoint := None;
                                   isMenuOpen := true |} no_classes)))
                     (snd (resizes [600; 700]
                             (detectDeviceCapabilities
                                {| innerWidth := 500; reducedMotion := false;
                                   touch := true |}
                                {| isMobile := false; isTablet := false;
                                   isDesktop := false;
                                   prefersReducedMotion := false;
                                   isTouchDevice := false;
                                   currentBreakpoint := None;
                                   isMenuOpen := true |} no_classes)))) = true)
    by (vm_compute; reflexivity).
  destruct (resizes_agree_with_detection
              {| innerWidth := 500; reducedMotion := false; touch := true |}
              {| isMobile := false; isTablet := false; isDesktop := false;
                 prefersReducedMotion := false; isTouchDevice := false;
                 currentBreakpoint := None; isMenuOpen := true |}
              [600; 700]) as [_ [_ K]].
  destruct (K 1200 H) as [_ [A B]].
  split; [exact H|]. split; [exact A|exact B].
Defined.

Lemma breakpointOf_cases width :
  (width < 768 /\ In (breakpointOf width) [xs; sm; md]) \/
  (768 <= width < 1024 /\ breakpointOf width = lg) \/
  (1024 <= width /\ In (breakpointOf width) [xl; xxl]).
Proof.
  unfold breakpointOf.
  destruct (width <? 375) eqn:E1; [left; apply Z.ltb_lt in E1; simpl; split; [lia|auto]|].
  destruct (width <? 568) eqn:E2; [left; apply Z.ltb_lt in E2; simpl; split; [lia|auto]|].
  destruct (width <? 768) eqn:E3; [left; apply Z.ltb_lt in E3; simpl; split; [lia|auto]|].
  apply Z.ltb_ge in E3.
  destruct (width <? 1024) eqn:E4;
    [right; left; apply Z.ltb_lt in E4; split; [lia|reflexivity]|].
  apply Z.ltb_ge in E4. right. right.
  destruct (width <? 1440); simpl; split; auto.
Qed.

(** X11.  In every such state exactly one of [isMobile], [isTablet],
    [isDesktop] holds.  The device class and the breakpoint are cut at
    different sides of 768 and 1024: a mobile page has breakpoint xs, sm
    or md except at width 768, where it has lg; a tablet page has lg
    except at width 1024, where it has xl; a desktop page has xl or 2xl. *)
Theorem tier_and_breakpoint :
  forall width s,
    settled width s ->
    let st := fst s in
    count_true [isMobile st; isTablet st; isDesktop st] = 1%nat /\
    (isMobile st = true ->
     (width < 768 /\ In (breakpointOf width) [xs; sm; md]) \/
     (width = 768 /\ breakpointOf width = lg)) /\
    (isTablet st = true ->
     (width < 1024 /\ breakpointOf width = lg) \/
     (width = 1024 /\ breakpointOf width = xl)) /\
    (isDesktop st = true -> In (breakpointOf width) [xl; xxl]) /\
    currentBreakpoint st = Some (breakpointOf width).
Proof.
  intros width [st body] [H1 [H2 [H3 [H4 _]]]] st'. subst st'.
  cbn [fst]. rewrite H1, H2, H3. unfold count_true.
  assert (Bp := breakpointOf_cases width).
  destruct (width <=? 768) eqn:A; destruct (768 <? width) eqn:B;
    destruct (width <=? 1024) eqn:C; destruct (1024 <? width) eqn:D;
    rewrite ?Z.leb_le, ?Z.leb_gt, ?Z.ltb_lt, ?Z.ltb_ge in *;
    try lia; cbn;
    (split; [reflexivity|]);
    (split; [intros ?|split; [intros ?|split; [intros ?|exact H4]]]);
    try discriminate.
  - (* mobile *)
    destruct Bp as [[L I]|[[L E]|[L I]]]; [left; split; assumption| |lia].
    right. split; [lia|exact E].
  - (* tablet *)
    destruct Bp as [[L I]|[[L E]|[L I]]]; [lia|left; split; [lia|exact E]|].
    right. assert (W : width = 1024) by lia. subst width. split; reflexivity.
  - (* desktop *)
    destruct Bp as [[L I]|[[L E]|[L I]]]; [lia|lia|exact I].
Qed.

Lemma tier_and_breakpoint_witness :
  let s := detectDeviceCapabilities
             {| innerWidth := 768; reducedMotion := false; touch := true |}
             initialAppState no_classes in
  isMobile (fst s) = true /\ currentBreakpoint (fst s) = Some lg.
Proof.
  intros s.
  destruct (tier_and_breakpoint 768 s (settled_detect _ _)) as [_ [_ [_ [_ H]]]].
  split; [reflexivity|exact H].
Defined.

End DetectorProperties.

(* ================================================================== *)
(** * Properties of the request URLs *)

Section UrlProperties.
Import Url.

Lemma lookup_drop_key k k' q :
  String.eqb k' k = false -> lookup k' (drop_key k q) = lookup k' q.
Proof.
  intros H. induction q as [|[a v] q IH]; simpl; [reflexivity|].
  destruct (String.eqb a k) eqn:E; simpl.
  - apply String.eqb_eq in E. subst a.
    rewrite String.eqb_sym, H. exact IH.
  - rewrite IH. reflexivity.
Qed.

Lemma lookup_set k v k' q :
  lookup k' (set k v q)
  = if String.eqb k' k then Some v else lookup k' q.
Proof.
  induction q as [|[a x] q IH]; simpl.
  - rewrite (String.eqb_sym k k'). destruct (String.eqb k' k); reflexivity.
  - destruct (String.eqb a k) eqn:E; simpl.
    + apply String.eqb_eq in E. subst a.
      rewrite (String.eqb_sym k k').
      destruct (String.eqb k' k) eqn:E'; [reflexivity|].
      apply lookup_drop_key, E'.
    + rewrite IH. destruct (String.eqb a k') eqn:E'; [|reflexivity].
      apply String.eqb_eq in E'. subst a. rewrite E. reflexivity.
Qed.

Lemma In_drop_key x k q : In x (drop_key k q) -> In x q /\ fst x <> k.
Proof.
  unfold drop_key. intros H. apply filter_In in H. destruct H as [H1 H2].
  split; [exact H1|]. apply negb_true_iff, String.eqb_neq in H2. exact H2.
Qed.

Lemma In_set x k v q : In x (set k v q) -> x = (k, v) \/ In x q.
Proof.
  induction q as [|[a y] q IH]; simpl.
  - intros [H|[]]. left. symmetry. exact H.
  - destruct (String.eqb a k); simpl.
    + intros [H|H]; [left; symmetry; exact H|].
      right. right. apply In_drop_key in H. apply H.
    + intros [H|H]; [right; left; exact H|].
      destruct (IH H); auto.
Qed.

Lemma NoDup_drop_key k q :
  NoDup (map fst q) -> NoDup (map fst (drop_key k q)).
Proof.
  induction q as [|[a y] q IH]; simpl; intros H; [constructor|].
  inversion H as [|? ? Hn Hd]; subst.
  destruct (negb (String.eqb a k)); simpl; [|apply IH, Hd].
  constructor; [|apply IH, Hd].
  intros Hin. apply Hn. apply in_map_iff in Hin.
  destruct Hin as [x [Hx Hi]]. apply In_drop_key in Hi.
  apply in_map_iff. exists x. split; [exact Hx|apply Hi].
Qed.

Lemma NoDup_set k v q :
  NoDup (map fst q) -> NoDup (map fst (set k v q)).
Proof.
  induction q as [|[a y] q IH]; simpl; intros H.
  - constructor; [intros []|constructor].
  - inversion H as [|? ? Hn Hd]; subst.
    destruct (String.eqb a k) eqn:E; simpl.
    + constructor; [|apply NoDup_drop_key, Hd].
      intros Hin. apply in_map_iff in Hin. destruct Hin as [x [Hx Hi]].
      apply In_drop_key in Hi. destruct Hi as [_ Hi]. contradiction.
    + constructor; [|apply IH, Hd].
      intros Hin. apply in_map_iff in Hin. destruct Hin as [x [Hx Hi]].
      apply In_set in Hi. destruct Hi as [->|Hi].
      * simpl in Hx. subst a. rewrite String.eqb_refl in E. discriminate.
      * apply Hn. apply in_map_iff. exists x. split; assumption.
Qed.

Lemma show_Z_nonempty z : JS.show_Z z <> "".
Proof.
  assert (H : forall p, JS.show_N (N.pos p) <> "").
  { intros p. unfold JS.show_N.
    assert (N : N.to_uint (N.pos p) <> Decimal.Nil)
      by apply Unsigned.to_uint_nonnil.
    destruct (N.to_uint (N.pos p)); [contradiction| ..]; discriminate. }
  destruct z as [|p|p]; simpl; [discriminate|apply H|discriminate].
Qed.

Lemma to_string_nonempty v :
  skipped v = false -> is_array v = false -> to_string v <> "".
Proof.
  destruct v; simpl; try discriminate.
  - intros H _. apply String.eqb_neq, H.
  - intros _ _. apply show_Z_nonempty.
  - intros _ _. destruct b; discriminate.
Qed.

Lemma query_ok_fold params l :
  forall q,
    (forall kv, In kv l -> In kv params) ->
    query_ok params q ->
    query_ok params
      (fold_left
         (fun q kv => if skipped (snd kv) then q
                      else set (fst kv) (to_string (snd kv)) q)
         l q).
Proof.
  induction l as [|[k v] l IH]; intros q Hin Hq; simpl; [exact Hq|].
  apply IH; [intros kv Hkv; apply Hin; right; exact Hkv|].
  destruct (skipped v) eqn:S; [exact Hq|].
  destruct Hq as [H1 [H2 H3]].
  split; [apply NoDup_set, H1|]. split.
  - rewrite lookup_set. destruct (String.eqb "_t" k); [discriminate|exact H2].
  - intros a b Hab. apply In_set in Hab. destruct Hab as [E|Hab].
    + injection E as -> ->. intros Hv. exists v.
      split; [apply Hin; left; reflexivity|]. split; [|exact Hv].
      destruct (is_array v) eqn:A; [reflexivity|].
      exfalso. exact (to_string_nonempty v S A Hv).
    + apply H3, Hab.
Qed.



Lemma buildUrl_lookup_gen k params :
  forall q acc,
    lookup k q = acc ->
    lookup k (fold_left
                (fun q kv => if skipped (snd kv) then q
                             else set (fst kv) (to_string (snd kv)) q)
                params q)
    = fold_left
        (fun acc kv => if (String.eqb k (fst kv) && negb (skipped (snd kv)))%bool
                       then Some (to_string (snd kv)) else acc)
        params acc.
Proof.
  induction params as [|[a v] params IH]; intros q acc H; simpl; [exact H|].
  apply IH. destruct (skipped v); simpl.
  - rewrite andb_false_r. exact H.
  - rewrite andb_true_r, lookup_set. destruct (String.eqb k a); [reflexivity|exact H].
Qed.

Lemma given_from k params :
  forall acc,
    fold_left
      (fun acc kv => if (String.eqb k (fst kv) && negb (skipped (snd kv)))%bool
                     then Some (to_string (snd kv)) else acc)
      params acc
    = match given k params with Some v => Some v | None => acc end.
Proof.
  unfold given. induction params as [|[a v] params IH]; intros acc; simpl;
    [reflexivity|].
  destruct (String.eqb k a && negb (skipped v))%bool.
  - rewrite (IH (Some (to_string v))).
    destruct (fold_left _ params None); reflexivity.
  - apply IH.
Qed.

(** X13.  Reading the query back: a name looks up to the value of the
    last parameter of that name that is neither [undefined], [null] nor
    empty; [_t] falls back to the time stamp and any other name to
    nothing.  So the request for every car carries no [category_id] and
    the request for category [n] carries [category_id=n]. *)
Theorem buildUrl_lookup :
  forall now params k,
    lookup k (buildUrl now params)
    = match given k params with
      | Some v => Some v
      | None => if String.eqb k "_t" then Some (JS.show_Z now) else None
      end /\
    lookup "category_id" (getCars_query now Fleet.All) = None /\
    forall n, lookup "category_id" (getCars_query now (Fleet.Cat n))
              = Some (JS.show_Z n).
Proof.
  intros now params k. split; [|split; [reflexivity|intros n; reflexivity]].
  unfold buildUrl.
  rewrite (buildUrl_lookup_gen k params _
             (if String.eqb k "_t" then Some (JS.show_Z now) else None)).
  - apply given_from.
  - rewrite lookup_set. destruct (String.eqb k "_t"); reflexivity.
Qed.

End UrlProperties.

(* ================================================================== *)
(** * Properties of the filter bar and of the stub *)

Section FleetBarProperties.
Import Api Fleet FleetSpec FleetUI.

Lemma CategoryId_eqb_eq a b : CategoryId_eqb a b = true <-> a = b.
Proof.
  destruct a, b; simpl; split; intros H; try congruence; try discriminate.
  - apply Z.eqb_eq in H. congruence.
  - injection H as ->. apply Z.eqb_refl.
Qed.

Lemma actives_deactivate l : actives (map deactivate l) = [].
Proof. induction l as [|b l IH]; simpl; [reflexivity|exact IH]. Qed.

(** Highlighting the first button of a category that is in the bar. *)
Lemma activate_first_spec id l :
  (exists x, In x l /\ data_category_id x = id) ->
  actives l = [] ->
  exists pre b post,
    activate_first id l = (pre ++ b :: post)%list /\
    active b = true /\ data_category_id b = id /\
    actives pre = [] /\ actives post = [] /\
    forall x, In x pre -> CategoryId_eqb (data_category_id x) id = false.
Proof.
  induction l as [|a l IH]; intros [x [Hin Hx]] Ha; [destruct Hin|].
  simpl. unfold actives in Ha. simpl in Ha.
  destruct (active a) eqn:Aa; [discriminate|].
  destruct (CategoryId_eqb (data_category_id a) id) eqn:E.
  - exists [], {| data_category_id := data_category_id a; active := true |}, l.
    split; [reflexivity|]. split; [reflexivity|].
    split; [apply CategoryId_eqb_eq, E|].
    split; [reflexivity|]. split; [exact Ha|]. intros y [].
  - destruct Hin as [->|Hin].
    + apply CategoryId_eqb_eq in Hx. congruence.
    + destruct (IH (ex_intro _ x (conj Hin Hx)) Ha)
        as [pre [b [post [H1 [H2 [H3 [H4 [H5 H6]]]]]]]].
      exists (a :: pre), b, post. rewrite H1.
      split; [reflexivity|]. split; [exact H2|]. split; [exact H3|].
      split; [unfold actives; simpl; rewrite Aa; exact H4|].
      split; [exact H5|].
      intros y [<-|Hy]; [exact E|apply H6, Hy].
Qed.

Lemma fetchCars_resume_current r s f :
  currentCategoryId (fetchCars_resume r s f) = currentCategoryId f /\
  (forall p, In p (inflight (fetchCars_resume r s f)) -> In p (inflight f)) /\
  categories (fetchCars_resume r s f) = categories f.
Proof.
  unfold fetchCars_resume.
  destruct (find_pending r (inflight f)) as [p|] eqn:Hf; [|repeat split; auto].
  assert (Hd : forall q, In q (drop_pending r (inflight f)) -> In q (inflight f))
    by (intros q Hq; apply filter_In in Hq; apply Hq).
  destruct (remote p); [destruct s as [[cs|]|]|]; cbn;
    unfold renderCars; cbn;
    repeat match goal with
           | |- context [match ?l with [] => _ | _ :: _ => _ end] => destruct l
           end; cbn; repeat split; exact Hd.
Qed.

Lemma bar_ok_step ev fp : bar_ok fp -> bar_ok (step ev fp).
Proof.
  intros [[Hh Hw] Ho]. destruct ev as [i|r o]; simpl.
  - (* a click on the i-th button *)
    destruct (nth_error (bar fp) i) as [b0|] eqn:Hn; [|split; [split|]; assumption].
    unfold onFilterClick.
    destruct (isLoading (manager fp)) eqn:L; [split; [split|]; assumption|].
    assert (Hi : inflight (manager fp) = []).
    { destruct Ho as [[H _]|[p [_ [_ H]]]]; [exact H|congruence]. }
    assert (Hc : currentCategoryId (Fleet.onFilterClick (data_category_id b0) (manager fp))
                 = data_category_id b0)
      by (unfold Fleet.onFilterClick; rewrite L; reflexivity).
    assert (Hf : inflight (Fleet.onFilterClick (data_category_id b0) (manager fp))
                 = [ {| req := issued (manager fp);
                        wanted := data_category_id b0;
                        remote := has_getCars (manager fp) |} ]).
    { unfold Fleet.onFilterClick. rewrite L. unfold fetchCars_begin. cbn.
      rewrite Hi. reflexivity. }
    split; [split|].
    + destruct Hh as [pre [b [post [Hb _]]]].
      unfold bar in *. destruct (filtersContainer fp) as [l|] eqn:Fc;
        [|destruct pre; discriminate].
      cbn. rewrite Hc.
      apply activate_first_spec; [|apply actives_deactivate].
      exists (deactivate b0). split; [|reflexivity].
      apply in_map. eapply nth_error_In, Hn.
    + cbn. rewrite Hc, Hf. intros p [<-|[]]. reflexivity.
    + cbn. right. eexists. split; [exact Hf|].
      unfold Fleet.onFilterClick. rewrite L. split; reflexivity.
  - (* a response *)
    destruct (fetchCars_resume_current r (getJson o) (manager fp)) as [C [I _]].
    split; [split|].
    + cbn. unfold bar in *. cbn. rewrite C. exact Hh.
    + cbn. rewrite C. intros p Hp. apply Hw, I, Hp.
    + cbn. apply (one_in_flight_step (Fleet.Respond r o)); [reflexivity|exact Ho].
Qed.

Lemma bar_ok_run evs fp : bar_ok fp -> bar_ok (FleetUI.run evs fp).
Proof.
  revert fp. induction evs as [|ev evs IH]; intros fp H; [exact H|].
  apply IH, bar_ok_step, H.
Qed.

Lemma bar_ok_init o gc gk grid markup :
  bar_ok (FleetUI.init o (loaded gc gk grid markup)).
Proof.
  assert (Hm : forall cs : list Category,
             actives (map (fun c => createFilterButton (Cat (cat_id c)) false) cs) = []).
  { induction cs as [|c cs IH]; [reflexivity|exact IH]. }
  unfold bar_ok, highlight_ok, FleetUI.init, loaded, createCategoryFilters, bar.
  cbn - [loadCategories actives].
  assert (Hc : forall f, currentCategoryId (loadAllCars f) = currentCategoryId f)
    by reflexivity.
  assert (Hl : forall f, currentCategoryId (loadCategories o f) = currentCategoryId f).
  { intros f. unfold loadCategories.
    destruct (has_getCategories f); [destruct (getJson o)|]; reflexivity. }
  assert (Hi : forall f, inflight (loadCategories o f) = inflight f).
  { intros f. unfold loadCategories.
    destruct (has_getCategories f); [destruct (getJson o)|]; reflexivity. }
  assert (Hn : forall f, issued (loadCategories o f) = issued f).
  { intros f. unfold loadCategories.
    destruct (has_getCategories f); [destruct (getJson o)|]; reflexivity. }
  split; [split|].
  - exists [], (createFilterButton All true),
      (map (fun c => createFilterButton (Cat (cat_id c)) false)
           (categories (loadCategories o (constructor gc gk grid)))).
    split; [reflexivity|]. split; [reflexivity|].
    split; [rewrite ?Hc, ?Hl; reflexivity|].
    split; [reflexivity|]. split; [apply Hm|]. intros x [].
  - rewrite ?Hc, ?Hl. unfold loadAllCars, fetchCars_begin. cbn - [loadCategories].
    rewrite ?Hi. intros p [<-|[]]. reflexivity.
  - right. unfold loadAllCars, fetchCars_begin. cbn - [loadCategories].
    rewrite ?Hi, ?Hn. eexists. split; [reflexivity|]. split; reflexivity.
Qed.

(** X14.  The filter bar follows the chosen category.  On a page that has
    [.fleet-filters], once the categories request has settled (with a list
    or with a failure), whatever buttons the markup had, whatever the cars
    requests answer and whichever buttons are clicked: exactly one button
    of the bar is highlighted, it is the first one of the current
    category, and a call that is still suspended asks for that same
    category. *)
Theorem filter_highlight_follows_current :
  forall (o : FetchOutcome (list Category)) (gc gk : bool) (grid : Markup)
         (markup : list FilterButton) (evs : list FleetUI.Event),
    highlight_ok (FleetUI.run evs (FleetUI.init o (loaded gc gk grid markup))).
Proof.
  intros. apply (bar_ok_run evs), bar_ok_init.
Qed.

(** ** Without [carAPI.getCars] *)

Lemma local_cars_empty c : local_cars c = [].
Proof. destruct c; reflexivity. Qed.

Lemma stub_step ev f :
  has_getCars f = false ->
  (forall p, In p (inflight f) -> remote p = false) ->
  cars f = [] -> errors f = [] ->
  placeholder_or_none (carsGrid f) = true ->
  let f' := Fleet.step ev f in
  has_getCars f' = false /\
  (forall p, In p (inflight f') -> remote p = false) /\
  cars f' = [] /\ errors f' = [] /\
  placeholder_or_none (carsGrid f') = true.
Proof.
  intros Hg Hp Hc He Hs. destruct ev as [id|r o|id]; cbv zeta.
  - cbn. unfold Fleet.onFilterClick.
    destruct (isLoading f); [repeat split; assumption|].
    cbn. repeat split; try assumption.
    intros p [<-|Hin]; [exact Hg|apply Hp, Hin].
  - cbn. unfold fetchCars_resume.
    destruct (find_pending r (inflight f)) as [p|] eqn:Hf;
      [|repeat split; assumption].
    apply find_some in Hf. destruct Hf as [Hin _].
    rewrite (Hp p Hin), local_cars_empty. cbn.
    repeat split; try assumption.
    intros q Hq. apply filter_In in Hq. apply Hp, Hq.
  - cbn. repeat split; try assumption.
    intros p [<-|Hin]; [exact Hg|apply Hp, Hin].
Qed.

Lemma stub_run evs : forall f,
  has_getCars f = false ->
  (forall p, In p (inflight f) -> remote p = false) ->
  cars f = [] -> errors f = [] ->
  placeholder_or_none (carsGrid f) = true ->
  cars (Fleet.run evs f) = [] /\ errors (Fleet.run evs f) = [] /\
  placeholder_or_none (carsGrid (Fleet.run evs f)) = true.
Proof.
  induction evs as [|ev evs IH]; intros f Hg Hp Hc He Hs.
  - repeat split; assumption.
  - destruct (stub_step ev f Hg Hp Hc He Hs) as [A [B [C [D E]]]].
    exact (IH _ A B C D E).
Qed.

(** X15.  Without [carAPI.getCars] the page can only show the placeholder
    or the "none found" message: once the categories request has settled
    (with a list or with a failure), whatever is clicked, called or
    answered, the car list stays empty, no error is logged and the grid
    never shows a card or the error message. *)
Theorem stub_shows_none_found :
  forall (o : FetchOutcome (list Category)) (gk : bool) (grid : Markup)
         (evs : list Fleet.Event),
    let f := Fleet.run evs (Fleet.init o (constructor false gk grid)) in
    cars f = [] /\ errors f = [] /\ placeholder_or_none (carsGrid f) = true.
Proof.
  intros o gk grid evs. cbv zeta. apply stub_run.
  - unfold Fleet.init, loadCategories.
    destruct gk; [destruct (getJson o)|]; reflexivity.
  - unfold Fleet.init, loadCategories.
    destruct gk; [destruct (getJson o)|]; cbn; intros p [<-|[]]; reflexivity.
  - unfold Fleet.init, loadCategories.
    destruct gk; [destruct (getJson o)|]; reflexivity.
  - unfold Fleet.init, loadCategories.
    destruct gk; [destruct (getJson o)|]; reflexivity.
  - unfold Fleet.init, loadCategories.
    destruct gk; [destruct (getJson o)|]; vm_compute; reflexivity.
Qed.

(** ** The busy flag *)

(** X16.  The busy flag does not count calls.  When a suspended call
    settles, the flag drops whatever else is still suspended: every other
    call stays suspended, and the next click on a filter is accepted and
    starts one more. *)
Theorem busy_flag_drops_on_first_settle :
  forall (f : FleetManager) (r : nat) (p : Pending) (o : FetchOutcome Payload)
         (id : CategoryId),
    find_pending r (inflight f) = Some p ->
    let f' := Fleet.step (Fleet.Respond r o) f in
    isLoading f' = false /\
    (forall q, In q (inflight f) -> req q <> r -> In q (inflight f')) /\
    currentCategoryId (Fleet.step (Fleet.Click id) f') = id /\
    List.length (inflight (Fleet.step (Fleet.Click id) f'))
    = S (List.length (inflight f')).
Proof.
  intros f r p o id Hf. cbv zeta.
  assert (L : isLoading (Fleet.step (Fleet.Respond r o) f) = false).
  { cbn. unfold fetchCars_resume. rewrite Hf.
    destruct (remote p); [destruct (getJson o) as [[cs|]|]|]; cbn;
      unfold renderCars; cbn;
      repeat match goal with
             | |- context [match ?l with [] => _ | _ :: _ => _ end] => destruct l
             end; reflexivity. }
  split; [exact L|]. split.
  - intros q Hq Hr. cbn. unfold fetchCars_resume. rewrite Hf.
    assert (Hd : In q (drop_pending r (inflight f))).
    { apply filter_In. split; [exact Hq|].
      apply Bool.negb_true_iff, Nat.eqb_neq, Hr. }
    destruct (remote p); [destruct (getJson o) as [[cs|]|]|]; cbn;
      unfold renderCars; cbn;
      repeat match goal with
             | |- context [match ?l with [] => _ | _ :: _ => _ end] => destruct l
             end; exact Hd.
  - change (Fleet.step (Fleet.Click id) ?x) with (Fleet.onFilterClick id x).
    unfold Fleet.onFilterClick. rewrite L. split; reflexivity.
Qed.

Lemma busy_flag_drops_on_first_settle_witness :
  let f := Fleet.run [Fleet.CallFetchCars All; Fleet.CallFetchCars (Cat 5)] fresh in
  find_pending 0 (inflight f) = Some {| req := 0; wanted := All; remote := true |} /\
  isLoading (Fleet.step (Fleet.Respond 0 NetworkError) f) = false /\
  List.length (inflight (Fleet.step (Fleet.Click (Cat 2))
                                    (Fleet.step (Fleet.Respond 0 NetworkError) f)))
  = 2%nat.
Proof.
  cbv zeta.
  assert (E : find_pending 0
                (inflight (Fleet.run [Fleet.CallFetchCars All;
                                      Fleet.CallFetchCars (Cat 5)] fresh))
              = Some {| req := 0; wanted := All; remote := true |})
    by (vm_compute; reflexivity).
  destruct (busy_flag_drops_on_first_settle _ 0 _ NetworkError (Cat 2) E)
    as [A [_ [_ D]]].
  split; [exact E|]. split; [exact A|]. rewrite D. vm_compute. reflexivity.
Defined.

End FleetBarProperties.

(* ================================================================== *)
(** * Properties of the language switcher *)

Section LangSwitchProperties.
Import Api Lang LangSpec LangAsync.

(** *** The lookup *)

Section Paths.
Variable inherited : JValue -> string -> Completion JValue.

Lemma split_dots_app p q : forall cur,
  split_dots (p ++ String "." q) cur = (split_dots p cur ++ split_dots q "")%list.
Proof.
  induction p as [|c p IH]; intros cur; [reflexivity|].
  cbn [String.append split_dots].
  destruct (Ascii.eqb c "."); rewrite IH; reflexivity.
Qed.

Lemma get_step_undefined l :
  fold_left (get_step inherited) l (Returns JUndefined) = Returns JUndefined.
Proof. induction l as [|k l IH]; [reflexivity|exact IH]. Qed.

Lemma get_step_throws l :
  fold_left (get_step inherited) l Throws = Throws.
Proof. induction l as [|k l IH]; [reflexivity|exact IH]. Qed.

Lemma split_dots_cons p : forall cur, exists k l, split_dots p cur = k :: l.
Proof.
  induction p as [|c p IH]; intros cur; [eexists _, _; reflexivity|].
  cbn [split_dots]. destruct (Ascii.eqb c "."); [eexists _, _; reflexivity|apply IH].
Qed.

Lemma get_falsy v q :
  truthy v = false -> get inherited v q = Returns JUndefined.
Proof.
  intros H. unfold get. destruct (split_dots_cons q "") as [k [l ->]].
  cbn [fold_left]. unfold get_step at 2. rewrite H. apply get_step_undefined.
Qed.

End Paths.

(** X17.  A dotted path is looked up piece by piece: looking up
    [p.q] is looking up [q] in what [p] gave, and throws if looking up
    [p] throws, whatever the prototype chains hold. *)
Theorem get_composes :
  forall (inherited : JValue -> string -> Completion JValue) (obj : JValue)
         (p q : string),
    get inherited obj (p ++ "." ++ q)
    = match get inherited obj p with
      | Returns v => get inherited v q
      | Throws => Throws
      end.
Proof.
  intros inherited obj p q. unfold get.
  change ("." ++ q)%string with (String "." q).
  rewrite split_dots_app, fold_left_app.
  destruct (fold_left (get_step inherited) (split_dots p "") (Returns obj));
    [reflexivity|apply get_step_throws].
Qed.

(** X18.  A falsy value on the way ends the lookup: below [0], [false],
    [null], the empty string or a missing key every path gives
    [undefined], the [length] of the empty string included, and nothing
    is thrown. *)
Theorem get_stops_at_falsy :
  forall (inherited : JValue -> string -> Completion JValue)
         (obj v : JValue) (p q : string),
    get inherited obj p = Returns v ->
    truthy v = false ->
    get inherited obj (p ++ "." ++ q) = Returns JUndefined.
Proof.
  intros inherited obj v p q G H. unfold get in *.
  change ("." ++ q)%string with (String "." q).
  rewrite split_dots_app, fold_left_app, G. apply (get_falsy inherited _ q H).
Qed.

Lemma get_stops_at_falsy_witness :
  get standard_members (JObj [("title", JStr "")]) "title" = Returns (JStr "") /\
  get standard_members (JObj [("title", JStr "")]) ("title" ++ "." ++ "length")
  = Returns JUndefined.
Proof.
  split; [reflexivity|].
  apply (get_stops_at_falsy standard_members (JObj [("title", JStr "")])
           (JStr "") "title" "length"); reflexivity.
Defined.

(** *** The two halves of [setLanguage] *)

Lemma setLanguage_cut inherited lang o st :
  setLanguage inherited lang o st
  = setLanguage_resume inherited (loadDictionary o) (setLanguage_begin lang st).
Proof.
  unfold setLanguage, setLanguage_resume. destruct (loadDictionary o); reflexivity.
Qed.

(** *** What holds of every node after the passes *)

Local Abbreviation on_attrs Q :=
  (fun m => match attrs m with Some a => Q a | None => True end).

Lemma Forall_flat_nodes (P : Node -> Prop) (g : Node -> Node) cs :
  Forall (fun c => Forall P (nodes (g c))) cs ->
  Forall P (flat_map nodes (map g cs)).
Proof.
  induction 1 as [|c cs Hc _ IH]; simpl; [constructor|].
  apply Forall_app. split; assumption.
Qed.

Lemma Forall_flat_split (P : Node -> Prop) cs :
  Forall P (flat_map nodes cs) <-> Forall (fun c => Forall P (nodes c)) cs.
Proof.
  induction cs as [|c cs IH]; simpl.
  - split; constructor.
  - rewrite Forall_app, IH. split.
    + intros [A B]. constructor; assumption.
    + intros H. inversion H; subst. split; assumption.
Qed.

Lemma text_children_nodes (P : Node -> Prop) val :
  (forall s, P (Text s)) -> Forall P (flat_map nodes (text_children val)).
Proof.
  intros H. unfold text_children. destruct (String.eqb val ""); simpl;
    repeat constructor. apply H.
Qed.

Lemma replace_first_text val val0 :
  replace_first (set_title val) (text_children val0) = None.
Proof. unfold text_children. destruct (String.eqb val0 ""); reflexivity. Qed.

Lemma title_key_in n key :
  title_key n = Some key ->
  exists a s, In (Title a s) (nodes n) /\ data_i18n a = Some key.
Proof.
  induction n as [s|a cs IH|a s] using Node_induction; simpl;
    [discriminate| |].
  - intros H. induction IH as [|c cs Hc _ IHcs]; [discriminate|].
    simpl in H. destruct (title_key c) as [k|] eqn:Kc.
    + injection H as ->. destruct (Hc eq_refl) as [b [s [Hin Hk]]].
      exists b, s. split; [|exact Hk]. right. simpl. apply in_or_app.
      left. exact Hin.
    + destruct (IHcs H) as [b [s [[Hin|Hin] Hk]]]; [discriminate|].
      exists b, s. split; [|exact Hk]. right. simpl. apply in_or_app.
      right. exact Hin.
  - intros H. exists a, s. split; [left; reflexivity|exact H].
Qed.

Section Passes.
Variable inherited : JValue -> string -> Completion JValue.
Variable dict : JValue.

Local Abbreviation tt := (translate_text inherited dict).
Local Abbreviation tp := (translate_placeholders inherited dict).
Local Abbreviation ph := (translate_placeholder inherited dict).

(** Attributes *)

Section Attributes.
Variable Q : Attrs -> Prop.
Hypothesis Q_placeholder : forall val a, Q a -> Q (set_placeholder val a).

Lemma tt_on_attrs n :
  Forall (on_attrs Q) (nodes n) ->
  forall t, Forall (on_attrs Q) (nodes (fst (tt t n))).
Proof.
  induction n as [s|a cs IH|a s] using Node_induction; intros H t.
  - destruct t; exact H.
  - destruct (tt_elem inherited dict t a cs) as [cs' [E [Hm [Hs _]]]].
    rewrite E. simpl in H |- *. inversion H as [|x l Ha Hc]; subst.
    constructor; [exact Ha|].
    assert (Hw : Forall (on_attrs Q) (flat_map nodes (fst (thread tt false cs)))).
    { apply thread_nodes. apply Forall_flat_split in Hc.
      rewrite Forall_forall in *. intros c Hin. apply IH; [exact Hin|].
      apply Hc, Hin. }
    destruct (hit inherited dict a) eqn:Hh.
    + destruct (hit_found inherited dict a Hh) as [val F].
      destruct (Hs val F) as [->| ->]; [exact Hc|].
      apply text_children_nodes. intros s. exact I.
    + destruct (Hm eq_refl) as [->| ->]; [exact Hc|exact Hw].
  - destruct (tt_title inherited dict t a s) as [s' [E _]]. rewrite E.
    simpl in H |- *. inversion H; subst. constructor; [assumption|constructor].
Qed.

Lemma tp_on_attrs n :
  Forall (on_attrs Q) (nodes n) ->
  forall t, Forall (on_attrs Q) (nodes (fst (tp t n))).
Proof.
  assert (Hph : forall t a, Q a -> Q (fst (ph t a))).
  { intros t a Ha.
    destruct (ph_cases inherited dict t a) as [->|[val [_ [_ ->]]]];
      [exact Ha|apply Q_placeholder, Ha]. }
  induction n as [s|a cs IH|a s] using Node_induction; intros H t.
  - exact H.
  - rewrite tp_Elem. simpl in H |- *. inversion H as [|x l Ha Hc]; subst.
    constructor; [apply Hph, Ha|].
    apply thread_nodes. apply Forall_flat_split in Hc.
    rewrite Forall_forall in *. intros c Hin. apply IH; [exact Hin|].
    apply Hc, Hin.
  - rewrite tp_Title. simpl in H |- *. inversion H; subst.
    constructor; [apply Hph; assumption|constructor].
Qed.

Lemma set_title_on_attrs val :
  forall n n', set_title val n = Some n' ->
               Forall (on_attrs Q) (nodes n) -> Forall (on_attrs Q) (nodes n').
Proof.
  induction n as [s|a cs IH|a s] using Node_induction; intros n' E H.
  - discriminate.
  - simpl in E.
    destruct (replace_first (set_title val) cs) as [cs'|] eqn:RF;
      [|discriminate].
    injection E as <-. simpl in H |- *. inversion H as [|x l Ha Hc]; subst.
    constructor; [exact Ha|]. clear H Ha.
    revert cs' RF Hc. induction IH as [|c cs Hc0 _ IHcs]; intros cs' RF Hc;
      [discriminate|].
    simpl in RF, Hc. apply Forall_app in Hc. destruct Hc as [H1 H2].
    destruct (set_title val c) as [c'|] eqn:Ec.
    + injection RF as <-. simpl. apply Forall_app.
      split; [apply (Hc0 c' eq_refl H1)|exact H2].
    + destruct (replace_first (set_title val) cs) as [r|] eqn:Er;
        [|discriminate].
      injection RF as <-. simpl. apply Forall_app.
      split; [exact H1|apply (IHcs r eq_refl H2)].
  - simpl in E. injection E as <-. simpl in H |- *.
    inversion H; subst. constructor; [assumption|constructor].
Qed.

Lemma translate_title_on_attrs t n :
  Forall (on_attrs Q) (nodes n) ->
  Forall (on_attrs Q) (nodes (fst (translate_title inherited dict t n))).
Proof.
  intros H. unfold translate_title. destruct t; [exact H|].
  destruct (title_key n) as [key|]; [|exact H].
  destruct (get inherited dict key) as [[]|]; try exact H.
  unfold set_document_title. simpl. destruct (set_title s n) as [n'|] eqn:E;
    [|exact H].
  apply (set_title_on_attrs s n n' E H).
Qed.

(** The three passes, from any point on. *)
Lemma passes_on_attrs r :
  Forall (on_attrs Q) (nodes r) ->
  let x1 := tt false r in
  let x2 := tp (snd x1) (fst x1) in
  Forall (on_attrs Q)
         (nodes (fst (translate_title inherited dict (snd x2) (fst x2)))).
Proof.
  intros H x1 x2. apply translate_title_on_attrs, tp_on_attrs, tt_on_attrs, H.
Qed.

End Attributes.

Lemma map_attrs_on_attrs (Q Q' : Attrs -> Prop) f n :
  (forall a, Q a -> Q' (f a)) ->
  Forall (on_attrs Q) (nodes n) ->
  Forall (on_attrs Q') (nodes (map_attrs f n)).
Proof.
  intros Hf H. rewrite nodes_map_attrs. apply Forall_map.
  apply (Forall_impl _ (P := on_attrs Q)); [|exact H].
  intros m. destruct m as [s|a cs|a s]; simpl; trivial; apply Hf.
Qed.

Lemma on_attrs_trivial n : Forall (on_attrs (fun _ => True)) (nodes n).
Proof.
  apply Forall_forall. intros m _. destruct (attrs m); exact I.
Qed.

(** Lookups that do not throw *)

Lemma calm_Forall n :
  calm inherited dict n = true <->
  Forall (on_attrs (fun a => calm_attrs inherited dict a = true)) (nodes n).
Proof.
  unfold calm. rewrite forallb_forall, Forall_forall.
  split; intros H m Hm; specialize (H m Hm); destruct (attrs m); auto.
Qed.

Lemma calm_Elem a cs :
  calm inherited dict (Elem a cs) = true ->
  calm_attrs inherited dict a = true /\
  Forall (fun c => calm inherited dict c = true) cs.
Proof.
  intros H. apply calm_Forall in H. simpl in H.
  inversion H as [|x l Ha Hc]; subst. split; [exact Ha|].
  apply Forall_flat_split in Hc. rewrite Forall_forall in *.
  intros c Hin. apply calm_Forall, Hc, Hin.
Qed.

Lemma key_calm_get key :
  key_calm inherited dict (Some key) = true ->
  get inherited dict key <> Throws.
Proof.
  unfold key_calm. destruct (get inherited dict key); [discriminate|].
  discriminate.
Qed.

Lemma tt_calm n : calm inherited dict n = true -> snd (tt false n) = false.
Proof.
  induction n as [s|a cs IH|a s] using Node_induction; [reflexivity| |].
  - intros H. apply calm_Elem in H. destruct H as [Ha Hc].
    apply andb_prop in Ha. destruct Ha as [Ha _].
    assert (Hw : snd (thread tt false cs) = false).
    { apply thread_calm. rewrite Forall_forall in *. intros c Hin.
      apply IH; [exact Hin|apply Hc, Hin]. }
    rewrite tt_Elem. destruct (data_i18n a) as [key|]; [|exact Hw].
    apply key_calm_get in Ha.
    destruct (get inherited dict key) as [[]|]; try exact Hw.
    contradiction Ha. reflexivity.
  - intros H. apply calm_Forall in H. simpl in H. inversion H as [|x l Ha _].
    apply andb_prop in Ha. destruct Ha as [Ha _].
    rewrite tt_Title. destruct (data_i18n a) as [key|]; [|reflexivity].
    apply key_calm_get in Ha.
    destruct (get inherited dict key) as [[]|]; try reflexivity.
    contradiction Ha. reflexivity.
Qed.

Lemma ph_calm a :
  calm_attrs inherited dict a = true -> snd (ph false a) = false.
Proof.
  intros Ha. apply andb_prop in Ha. destruct Ha as [_ Ha].
  unfold translate_placeholder.
  destruct (data_i18n_placeholder a) as [key|]; [|reflexivity].
  apply key_calm_get in Ha.
  destruct (get inherited dict key) as [[]|]; try reflexivity.
  contradiction Ha. reflexivity.
Qed.

Lemma tp_calm n : calm inherited dict n = true -> snd (tp false n) = false.
Proof.
  induction n as [s|a cs IH|a s] using Node_induction; [reflexivity| |].
  - intros H. apply calm_Elem in H. destruct H as [Ha Hc].
    rewrite tp_Elem, (ph_calm a Ha). simpl.
    apply thread_calm. rewrite Forall_forall in *. intros c Hin.
    apply IH; [exact Hin|apply Hc, Hin].
  - intros H. apply calm_Forall in H. simpl in H. inversion H as [|x l Ha _].
    rewrite tp_Title. simpl. apply ph_calm, Ha.
Qed.

Lemma title_calm n :
  calm inherited dict n = true ->
  snd (translate_title inherited dict false n) = false.
Proof.
  intros H. unfold translate_title.
  destruct (title_key n) as [key|] eqn:K; [|reflexivity].
  destruct (title_key_in n key K) as [a [s [Hin Hk]]].
  apply calm_Forall in H. rewrite Forall_forall in H.
  specialize (H _ Hin). simpl in H. apply andb_prop in H.
  destruct H as [H _]. rewrite Hk in H. apply key_calm_get in H.
  destruct (get inherited dict key) as [[]|]; try reflexivity.
  contradiction H. reflexivity.
Qed.

(** The passes when nothing is thrown *)

Lemma tt_complete n :
  snd (tt false n) = false -> fst (tt false n) = text_pass inherited dict n.
Proof.
  induction n as [s|a cs IH|a s] using Node_induction; [reflexivity| |].
  - rewrite tt_Elem. simpl. unfold found, string_of.
    assert (Hw : snd (thread tt false cs) = false ->
                 fst (thread tt false cs) = map (text_pass inherited dict) cs).
    { apply thread_complete; [apply tt_stays_thrown|exact IH]. }
    destruct (data_i18n a) as [key|].
    + destruct (get inherited dict key) as [[]|]; simpl; intros E;
        try discriminate; try reflexivity; rewrite (Hw E); reflexivity.
    + simpl. intros E. rewrite (Hw E). reflexivity.
  - rewrite tt_Title. simpl. unfold found, string_of.
    destruct (data_i18n a) as [key|]; [|reflexivity].
    destruct (get inherited dict key) as [[]|]; simpl; intros E;
      try discriminate; reflexivity.
Qed.

Lemma ph_complete a :
  snd (ph false a) = false ->
  fst (ph false a) = placeholder_pass inherited dict a.
Proof.
  unfold translate_placeholder, placeholder_pass, found, string_of.
  destruct (data_i18n_placeholder a) as [key|]; [|reflexivity].
  destruct (get inherited dict key) as [[]|]; simpl; intros E;
    try discriminate; reflexivity.
Qed.

Lemma tp_complete n :
  snd (tp false n) = false ->
  fst (tp false n) = map_attrs (placeholder_pass inherited dict) n.
Proof.
  induction n as [s|a cs IH|a s] using Node_induction; [reflexivity| |].
  - rewrite tp_Elem. cbn [fst snd]. destruct (snd (ph false a)) eqn:Ea.
    + rewrite (thread_stays_thrown tp cs (tp_stays_thrown inherited dict)).
      discriminate.
    + intros E. rewrite (ph_complete a Ea).
      rewrite (thread_complete tp (map_attrs (placeholder_pass inherited dict))
                 cs (tp_stays_thrown inherited dict) IH E).
      reflexivity.
  - rewrite tp_Title. cbn [fst snd]. intros E. rewrite (ph_complete a E).
    reflexivity.
Qed.

Lemma title_complete n :
  snd (translate_title inherited dict false n) = false ->
  fst (translate_title inherited dict false n) = title_pass inherited dict n.
Proof.
  unfold translate_title, title_pass, found, string_of.
  destruct (title_key n) as [key|]; [|reflexivity].
  destruct (get inherited dict key) as [[]|]; simpl; intros E;
    try discriminate; reflexivity.
Qed.

(** Texts *)

Lemma text_pass_rewritten n :
  Forall (rewritten inherited dict) (nodes (text_pass inherited dict n)).
Proof.
  induction n as [s|a cs IH|a s] using Node_induction.
  - repeat constructor.
  - simpl. destruct (found inherited dict (data_i18n a)) as [val|] eqn:F; simpl.
    + constructor.
      * intros v Fv. congruence.
      * apply text_children_nodes. intros s. exact I.
    + constructor; [intros v Fv; congruence|].
      apply Forall_flat_nodes. exact IH.
  - simpl. destruct (found inherited dict (data_i18n a)) as [val|] eqn:F; simpl;
      (constructor; [intros v Fv; congruence|constructor]).
Qed.

Lemma map_attrs_rewritten f n :
  (forall a, data_i18n (f a) = data_i18n a) ->
  Forall (rewritten inherited dict) (nodes n) ->
  Forall (rewritten inherited dict) (nodes (map_attrs f n)).
Proof.
  intros Hf H. rewrite nodes_map_attrs. apply Forall_map.
  apply (Forall_impl _ (P := rewritten inherited dict)); [|exact H].
  intros m. destruct m as [s|a cs|a s]; simpl; trivial.
  - intros R val F. rewrite Hf in F. rewrite (R val F).
    apply map_attrs_text_children.
  - intros R val F. rewrite Hf in F. apply (R val F).
Qed.

Lemma set_title_rewritten key val :
  found inherited dict (Some key) = Some val ->
  forall n n',
    set_title val n = Some n' ->
    (forall k, title_key n = Some k -> k = key) ->
    Forall (rewritten inherited dict) (nodes n) ->
    Forall (rewritten inherited dict) (nodes n').
Proof.
  intros G.
  induction n as [s|a cs IH|a s] using Node_induction; intros n' E Hk H.
  - discriminate.
  - simpl in E.
    destruct (replace_first (set_title val) cs) as [cs'|] eqn:RF;
      [|discriminate].
    injection E as <-. simpl in H |- *. inversion H as [|x l Ha Hc]; subst.
    constructor.
    + intros val0 F0. exfalso. simpl in Ha.
      rewrite (Ha val0 F0), replace_first_text in RF. discriminate.
    + clear H Ha. simpl in Hk.
      revert cs' RF Hc Hk.
      induction IH as [|c cs Hc0 _ IHcs]; intros cs' RF Hc Hk;
        [discriminate|].
      simpl in RF, Hc, Hk. apply Forall_app in Hc. destruct Hc as [H1 H2].
      destruct (set_title val c) as [c'|] eqn:Ec.
      * injection RF as <-. simpl. apply Forall_app.
        split; [|exact H2]. apply (Hc0 c' eq_refl); [|exact H1].
        intros k Hkc. apply Hk. rewrite Hkc. reflexivity.
      * destruct (replace_first (set_title val) cs) as [r|] eqn:Er;
          [|discriminate].
        injection RF as <-. simpl. apply Forall_app.
        split; [exact H1|]. apply (IHcs r eq_refl H2).
        rewrite (set_title_none val c Ec) in Hk. exact Hk.
  - simpl in E. injection E as <-. simpl in Hk |- *.
    constructor; [|constructor].
    intros val0 F0. destruct (data_i18n a) as [k|] eqn:Dk; [|discriminate].
    rewrite (Hk k eq_refl) in F0. congruence.
Qed.

Lemma title_pass_rewritten n :
  Forall (rewritten inherited dict) (nodes n) ->
  Forall (rewritten inherited dict) (nodes (title_pass inherited dict n)).
Proof.
  intros H. unfold title_pass.
  destruct (title_key n) as [key|] eqn:K; [|exact H].
  destruct (found inherited dict (Some key)) as [val|] eqn:F; [|exact H].
  unfold set_document_title. destruct (set_title val n) as [n'|] eqn:E;
    [|exact H].
  apply (set_title_rewritten key val F n n' E); [|exact H].
  intros k Hk. congruence.
Qed.

Lemma title_pass_on_attrs (Q : Attrs -> Prop) n :
  Forall (on_attrs Q) (nodes n) ->
  Forall (on_attrs Q) (nodes (title_pass inherited dict n)).
Proof.
  intros H. unfold title_pass.
  destruct (found inherited dict (title_key n)) as [val|]; [|exact H].
  unfold set_document_title. destruct (set_title val n) as [n'|] eqn:E;
    [|exact H].
  apply (set_title_on_attrs Q val n n' E H).
Qed.

Lemma rewritten_translated n :
  rewritten inherited dict n ->
  on_attrs (fun a => forall val,
                found inherited dict (data_i18n_placeholder a) = Some val ->
                placeholder a = Some val) n ->
  translated inherited dict n.
Proof.
  unfold translated. destruct n as [s|a cs|a s]; simpl; trivial.
  - intros R P. split.
    + intros key val K G. apply found_string in G. rewrite <- K in G.
      rewrite (R val G). apply (textContent_text_children a).
    + intros key val K G. apply found_string in G. rewrite <- K in G.
      apply (P val G).
  - intros R P. split.
    + intros key val K G. apply found_string in G. rewrite <- K in G.
      apply (R val G).
    + intros key val K G. apply found_string in G. rewrite <- K in G.
      apply (P val G).
Qed.

Lemma falsy_translated n : truthy dict = false -> translated inherited dict n.
Proof.
  intros T. unfold translated. destruct (attrs n) as [a|]; [|exact I].
  split; intros key val _ G; rewrite (get_falsy inherited dict key T) in G;
    discriminate.
Qed.

(** Every node left by the three passes, when nothing is thrown, shows
    what the dictionary has. *)
Lemma passes_translated r :
  Forall (translated inherited dict)
         (nodes (title_pass inherited dict
                   (map_attrs (placeholder_pass inherited dict)
                      (text_pass inherited dict r)))).
Proof.
  assert (Hk : forall a, data_i18n (placeholder_pass inherited dict a)
                         = data_i18n a /\
                         data_i18n_placeholder (placeholder_pass inherited dict a)
                         = data_i18n_placeholder a).
  { intros a. unfold placeholder_pass.
    destruct (found inherited dict (data_i18n_placeholder a)); split;
      reflexivity. }
  pose proof (text_pass_rewritten r) as R1.
  apply (map_attrs_rewritten (placeholder_pass inherited dict)) in R1;
    [|intros a; apply Hk].
  apply title_pass_rewritten in R1.
  pose proof (on_attrs_trivial (text_pass inherited dict r)) as P1.
  apply (map_attrs_on_attrs _
           (fun a => forall val,
                found inherited dict (data_i18n_placeholder a) = Some val ->
                placeholder a = Some val)
           (placeholder_pass inherited dict)) in P1.
  2:{ intros a _ val F. destruct (Hk a) as [_ K]. rewrite K in F.
      unfold placeholder_pass. rewrite F. reflexivity. }
  apply title_pass_on_attrs in P1.
  rewrite Forall_forall in *. intros m Hm.
  apply rewritten_translated; [apply R1, Hm|apply (P1 m Hm)].
Qed.

End Passes.

Lemma setActiveButton_buttons lang r :
  Forall (shows_language lang) (nodes (map_attrs (mark_button lang) r)).
Proof.
  apply (map_attrs_on_attrs (fun _ => True)); [|apply on_attrs_trivial].
  intros a _. unfold mark_button. destruct (lang_btn a) eqn:L; simpl.
  - intros _. reflexivity.
  - rewrite L. discriminate.
Qed.

Lemma setActiveButton_calm inherited dict lang r :
  calm inherited dict r = true ->
  calm inherited dict (map_attrs (mark_button lang) r) = true.
Proof.
  intros H. apply calm_Forall. apply calm_Forall in H.
  apply (map_attrs_on_attrs
           (fun a => calm_attrs inherited dict a = true)); [|exact H].
  intros a Ha. destruct (mark_button_keys lang a) as [K1 [K2 _]].
  unfold calm_attrs in *. rewrite K1, K2. exact Ha.
Qed.

Lemma without_active_mark lang r :
  without_active (map_attrs (mark_button lang) r) = without_active r.
Proof.
  unfold without_active. rewrite map_attrs_compose. apply map_attrs_ext.
  intros a. unfold mark_button. destruct (lang_btn a) eqn:L; simpl;
    rewrite ?L; reflexivity.
Qed.

Lemma textContent_nodes_map_attrs f r :
  map textContent (nodes (map_attrs f r)) = map textContent (nodes r).
Proof.
  rewrite nodes_map_attrs, map_map. apply map_agree, Forall_forall.
  intros m _. apply textContent_map_attrs.
Qed.

(** With no throwing getter on any prototype chain, no lookup throws. *)
Lemma get_returns inherited obj path :
  (forall v k, inherited v k <> Throws) ->
  get inherited obj path <> Throws.
Proof.
  intros H. unfold get.
  assert (G : forall l acc, acc <> Throws ->
                fold_left (get_step inherited) l acc <> Throws).
  { induction l as [|k l IH]; intros acc Ha; [exact Ha|].
    simpl. apply IH. destruct acc as [a|]; [|contradiction Ha; reflexivity].
    unfold get_step. destruct (truthy a); [|discriminate].
    assert (P : prop inherited a k <> Throws).
    { unfold prop. destruct (own a k); [discriminate|apply H]. }
    destruct (prop inherited a k) as [x|] eqn:E; [|exact P].
    destruct (negb (is_undefined x)); discriminate. }
  apply G. discriminate.
Qed.

Lemma total_calm inherited dict n :
  (forall v k, inherited v k <> Throws) -> calm inherited dict n = true.
Proof.
  intros H. unfold calm. apply forallb_forall. intros m _.
  destruct (attrs m) as [a|]; [|reflexivity].
  assert (K : forall key, key_calm inherited dict key = true).
  { intros [key|]; [|reflexivity]. unfold key_calm.
    pose proof (get_returns inherited dict key H) as G.
    destruct (get inherited dict key); [reflexivity|].
    contradiction G. reflexivity. }
  unfold calm_attrs. rewrite !K. reflexivity.
Qed.

Lemma cons_neq (x : string) l : x :: l <> l.
Proof.
  intros H. apply (f_equal (@List.length string)) in H. simpl in H. lia.
Qed.

(** *** [applyTranslations], field by field *)

Section Applying.
Variable inherited : JValue -> string -> Completion JValue.

Lemma applyTranslations_unfold st dict :
  dictionary st = Some dict ->
  truthy dict = true ->
  let x1 := translate_text inherited dict false (root (doc st)) in
  let x2 := translate_placeholders inherited dict (snd x1) (fst x1) in
  let x3 := translate_title inherited dict (snd x2) (fst x2) in
  applyTranslations inherited st
  = ({| dictionary := dictionary st; currentLang := currentLang st;
        stored := stored st;
        doc := {| root := fst x3;
                  html_lang := if snd x3 then html_lang (doc st)
                               else Some (currentLang st) |};
        log_errors := log_errors st |}, snd x3).
Proof.
  intros Hd T x1 x2 x3. unfold applyTranslations. rewrite Hd, T.
  cbn [negb]. fold x1. destruct x1 as [n1 t1] eqn:E1.
  cbn [fst snd] in x2. fold x2. destruct x2 as [n2 t2] eqn:E2.
  cbn [fst snd] in x3. fold x3. destruct x3 as [n3 t3] eqn:E3.
  reflexivity.
Qed.

Lemma applyTranslations_falsy st dict :
  dictionary st = Some dict -> truthy dict = false ->
  applyTranslations inherited st = (st, false).
Proof.
  intros Hd T. unfold applyTranslations. rewrite Hd, T. reflexivity.
Qed.

Lemma applyTranslations_frame st :
  currentLang (fst (applyTranslations inherited st)) = currentLang st /\
  stored (fst (applyTranslations inherited st)) = stored st /\
  dictionary (fst (applyTranslations inherited st)) = dictionary st /\
  log_errors (fst (applyTranslations inherited st)) = log_errors st.
Proof.
  destruct (dictionary st) as [dict|] eqn:Hd.
  - destruct (truthy dict) eqn:T.
    + rewrite (applyTranslations_unfold st dict Hd T). cbn.
      rewrite Hd. repeat split.
    + rewrite (applyTranslations_falsy st dict Hd T). cbn.
      rewrite Hd. repeat split.
  - unfold applyTranslations. rewrite Hd. cbn. rewrite Hd. repeat split.
Qed.

(** A property of the attributes that setting a placeholder keeps holds
    of every element afterwards, thrown or not. *)
Lemma applyTranslations_on_attrs (Q : Attrs -> Prop) st :
  (forall val a, Q a -> Q (set_placeholder val a)) ->
  Forall (on_attrs Q) (nodes (root (doc st))) ->
  Forall (on_attrs Q) (nodes (root (doc (fst (applyTranslations inherited st))))).
Proof.
  intros HQ H. destruct (dictionary st) as [dict|] eqn:Hd.
  - destruct (truthy dict) eqn:T.
    + rewrite (applyTranslations_unfold st dict Hd T). cbn.
      apply (passes_on_attrs inherited dict Q HQ), H.
    + rewrite (applyTranslations_falsy st dict Hd T). exact H.
  - unfold applyTranslations. rewrite Hd. exact H.
Qed.

Lemma applyTranslations_thrown st :
  snd (applyTranslations inherited st) = true ->
  html_lang (doc (fst (applyTranslations inherited st))) = html_lang (doc st).
Proof.
  destruct (dictionary st) as [dict|] eqn:Hd.
  - destruct (truthy dict) eqn:T.
    + rewrite (applyTranslations_unfold st dict Hd T). cbn.
      intros ->. reflexivity.
    + rewrite (applyTranslations_falsy st dict Hd T). discriminate.
  - unfold applyTranslations. rewrite Hd. discriminate.
Qed.

Lemma applyTranslations_complete st dict :
  dictionary st = Some dict ->
  snd (applyTranslations inherited st) = false ->
  html_lang (doc (fst (applyTranslations inherited st)))
  = (if truthy dict then Some (currentLang st) else html_lang (doc st)) /\
  Forall (translated inherited dict)
         (nodes (root (doc (fst (applyTranslations inherited st))))).
Proof.
  intros Hd. destruct (truthy dict) eqn:T.
  - rewrite (applyTranslations_unfold st dict Hd T). cbn.
    set (x1 := translate_text inherited dict false (root (doc st))).
    set (x2 := translate_placeholders inherited dict (snd x1) (fst x1)).
    intros E3. rewrite E3. split; [reflexivity|].
    assert (E2 : snd x2 = false).
    { destruct (snd x2); [discriminate E3|reflexivity]. }
    assert (E1 : snd x1 = false).
    { destruct (snd x1) eqn:E; [|reflexivity].
      unfold x2 in E2. rewrite ?E in E2. rewrite tp_stays_thrown in E2.
      discriminate. }
    rewrite E2 in E3 |- *. rewrite (title_complete inherited dict _ E3).
    unfold x2 in E2 |- *. rewrite E1 in E2 |- *.
    rewrite (tp_complete inherited dict _ E2).
    unfold x1 in E1 |- *. rewrite (tt_complete inherited dict _ E1).
    apply passes_translated.
  - rewrite (applyTranslations_falsy st dict Hd T). intros _.
    split; [reflexivity|]. apply Forall_forall. intros n _.
    apply falsy_translated, T.
Qed.

Lemma applyTranslations_calm st dict :
  dictionary st = Some dict ->
  calm inherited dict (root (doc st)) = true ->
  snd (applyTranslations inherited st) = false.
Proof.
  intros Hd C. destruct (truthy dict) eqn:T.
  - rewrite (applyTranslations_unfold st dict Hd T). cbn.
    assert (Hq : forall val a, calm_attrs inherited dict a = true ->
                   calm_attrs inherited dict (set_placeholder val a) = true)
      by (intros val a Ha; exact Ha).
    assert (E1 := tt_calm inherited dict _ C).
    assert (C1 : calm inherited dict
                   (fst (translate_text inherited dict false (root (doc st))))
                 = true).
    { apply calm_Forall. apply tt_on_attrs. apply calm_Forall, C. }
    rewrite E1.
    assert (E2 := tp_calm inherited dict _ C1).
    assert (C2 : calm inherited dict
                   (fst (translate_placeholders inherited dict false
                           (fst (translate_text inherited dict false
                                   (root (doc st))))))
                 = true).
    { apply calm_Forall. apply (tp_on_attrs inherited dict _ Hq).
      apply calm_Forall, C1. }
    rewrite E2. apply (title_calm inherited dict _ C2).
  - rewrite (applyTranslations_falsy st dict Hd T). reflexivity.
Qed.

(** [setLanguage] from the arrival of a dictionary on. *)
Lemma resume_resolved d s :
  let u := {| dictionary := Some d; currentLang := currentLang s;
              stored := stored s; doc := doc s;
              log_errors := log_errors s |} in
  let s' := setLanguage_resume inherited (Resolved d) s in
  currentLang s' = currentLang s /\
  stored s' = stored s /\
  dictionary s' = Some d /\
  doc s' = doc (fst (applyTranslations inherited u)) /\
  log_errors s' = (if snd (applyTranslations inherited u)
                   then "i18n error" :: log_errors s else log_errors s).
Proof.
  intros u s'. subst s'. unfold setLanguage_resume. fold u.
  destruct (applyTranslations_frame u) as [A [B [C D]]].
  destruct (applyTranslations inherited u) as [v t]. cbn [fst snd] in *.
  destruct t; cbn; rewrite ?A, ?B, ?C, ?D; repeat split.
Qed.

Lemma resume_facts d s :
  let s' := setLanguage_resume inherited (Resolved d) s in
  currentLang s' = currentLang s /\
  stored s' = stored s /\
  dictionary s' = Some d /\
  (forall lang, Forall (shows_language lang) (nodes (root (doc s))) ->
                Forall (shows_language lang) (nodes (root (doc s')))) /\
  (forall d', calm inherited d' (root (doc s)) = true ->
              calm inherited d' (root (doc s')) = true) /\
  (calm inherited d (root (doc s)) = true -> log_errors s' = log_errors s) /\
  (log_errors s' = log_errors s ->
   html_lang (doc s')
   = (if truthy d then Some (currentLang s) else html_lang (doc s)) /\
   Forall (translated inherited d) (nodes (root (doc s')))) /\
  (log_errors s' <> log_errors s ->
   log_errors s' = "i18n error" :: log_errors s /\
   html_lang (doc s') = html_lang (doc s)).
Proof.
  intros s'. destruct (resume_resolved d s) as [A [B [C [D E]]]].
  fold s' in A, B, C, D, E.
  set (u := {| dictionary := Some d; currentLang := currentLang s;
               stored := stored s; doc := doc s;
               log_errors := log_errors s |}) in *.
  split; [exact A|]. split; [exact B|]. split; [exact C|].
  split.
  { intros lang H. rewrite D.
    apply (applyTranslations_on_attrs
             (fun a => lang_btn a = true ->
                       active a = opt_eqb (data_lang a) lang) u);
      [intros val a Ha; exact Ha|exact H]. }
  split.
  { intros d' H. rewrite D. apply calm_Forall.
    apply (applyTranslations_on_attrs
             (fun a => calm_attrs inherited d' a = true) u);
      [intros val a Ha; exact Ha|apply calm_Forall, H]. }
  split.
  { intros H. rewrite E, (applyTranslations_calm u d eq_refl H). reflexivity. }
  split.
  { intros H. rewrite D.
    apply (applyTranslations_complete u d eq_refl).
    destruct (snd (applyTranslations inherited u)); [|reflexivity].
    rewrite E in H. apply cons_neq in H. contradiction. }
  intros H. destruct (snd (applyTranslations inherited u)) eqn:T.
  - split; [exact E|]. rewrite D. apply (applyTranslations_thrown u T).
  - contradiction.
Qed.

End Applying.

(** X19.  A loaded dictionary is applied in full unless a lookup throws.
    After [setLanguage] with a locale file that loads, the file is the
    dictionary, the language is recorded and stored, and the language
    buttons that the document then has are on the language asked for.
    When no key of the document leads to an exception, no error is
    logged; when no error is logged, every node that the document then
    has shows the dictionary's string wherever its text key or its
    placeholder key looks up to one (an element inside one that received
    a text is no longer a node of the document), and the document is
    marked with the language unless the file holds a falsy value.
    Otherwise one error is logged and the document keeps its language
    mark. *)
Theorem loaded_dictionary_applied :
  forall (inherited : JValue -> string -> Completion JValue) (st : State)
         (lang : string) (o : FetchOutcome JValue) (dict : JValue),
    loadDictionary o = Resolved dict ->
    let st' := setLanguage inherited lang o st in
    dictionary st' = Some dict /\
    currentLang st' = lang /\
    stored st' = Some lang /\
    (forall n, In n (nodes (root (doc st'))) -> shows_language lang n) /\
    (calm inherited dict (root (doc st)) = true ->
     log_errors st' = log_errors st) /\
    (log_errors st' = log_errors st ->
     html_lang (doc st')
     = (if truthy dict then Some lang else html_lang (doc st)) /\
     forall n, In n (nodes (root (doc st'))) -> translated inherited dict n) /\
    (log_errors st' <> log_errors st ->
     log_errors st' = "i18n error" :: log_errors st /\
     html_lang (doc st') = html_lang (doc st)).
Proof.
  intros inherited st lang o dict Ho. cbv zeta.
  rewrite setLanguage_cut, Ho.
  destruct (resume_facts inherited dict (setLanguage_begin lang st))
    as [A [B [C [D [_ [F [G H]]]]]]].
  split; [exact C|]. split; [exact A|]. split; [exact B|].
  split.
  { intros n Hn. specialize (D lang (setActiveButton_buttons lang _)).
    rewrite Forall_forall in D. apply D, Hn. }
  split.
  { intros Hc. apply F. apply setActiveButton_calm, Hc. }
  split.
  { intros E. destruct (G E) as [L T]. split; [exact L|].
    intros n Hn. rewrite Forall_forall in T. apply T, Hn. }
  exact H.
Qed.

Lemma loaded_dictionary_applied_witness :
  let st' := setLanguage standard_members "en" (Http true (Some en_dict))
                         (page_of [nested_link; search_box]) in
  html_lang (doc st') = Some "en" /\
  translated standard_members en_dict
             (Elem (keyed "nav.about") [Text "About"]).
Proof.
  intros st'.
  assert (Ho : loadDictionary (Http true (Some en_dict)) = Resolved en_dict)
    by reflexivity.
  destruct (loaded_dictionary_applied standard_members
              (page_of [nested_link; search_box]) "en" _ en_dict Ho)
    as [_ [_ [_ [_ [C [T _]]]]]].
  assert (Hc : calm standard_members en_dict
                 (root (doc (page_of [nested_link; search_box]))) = true)
    by (vm_compute; reflexivity).
  destruct (T (C Hc)) as [L N].
  split; [exact L|].
  apply N. vm_compute. do 6 right. left. reflexivity.
Defined.

(** X20.  A switch whose locale file fails to load is left half done:
    the language is recorded and stored and the buttons show it, while
    nothing else of the document changes, neither the texts nor the
    document's language mark, the dictionary stays as it was, and one
    error is logged. *)
Theorem failed_switch_half_done :
  forall (inherited : JValue -> string -> Completion JValue) (st : State)
         (lang : string) (o : FetchOutcome JValue),
    failed o = true ->
    let st' := setLanguage inherited lang o st in
    currentLang st' = lang /\
    stored st' = Some lang /\
    doc st' = setActiveButton lang (doc st) /\
    (forall n, In n (nodes (root (doc st'))) -> shows_language lang n) /\
    without_active (root (doc st')) = without_active (root (doc st)) /\
    map textContent (nodes (root (doc st')))
    = map textContent (nodes (root (doc st))) /\
    html_lang (doc st') = html_lang (doc st) /\
    dictionary st' = dictionary st /\
    log_errors st' = "i18n error" :: log_errors st.
Proof.
  intros inherited st lang o H. apply failed_rejected in H.
  cbv zeta. unfold setLanguage, loadDictionary. rewrite H. cbn.
  split; [reflexivity|]. split; [reflexivity|]. split; [reflexivity|].
  split.
  { intros n Hn.
    pose proof (setActiveButton_buttons lang (root (doc st))) as Hb.
    rewrite Forall_forall in Hb. apply Hb, Hn. }
  split; [apply without_active_mark|].
  split; [apply textContent_nodes_map_attrs|].
  repeat split.
Qed.

Lemma failed_switch_half_done_witness :
  failed (Http false (Some en_dict)) = true /\
  currentLang (setLanguage standard_members "en" (Http false (Some en_dict))
                           russian_page) = "en" /\
  html_lang (doc (setLanguage standard_members "en"
                              (Http false (Some en_dict)) russian_page))
  = Some "ru".
Proof.
  assert (H : failed (Http false (Some en_dict)) = true) by reflexivity.
  destruct (failed_switch_half_done standard_members russian_page "en" _ H)
    as [A [_ [_ [_ [_ [_ [E _]]]]]]].
  split; [exact H|]. split; [exact A|exact E].
Defined.

(** X21.  Two switches whose answers arrive in the other order.  With
    [first] asked before [second] and the dictionary of [second] arriving
    before the one of [first]: the recorded and stored language and the
    buttons are those of [second], while the dictionary kept is the one
    of [first]; and when no key of the document leads to an exception in
    the dictionary of [first], the document's language mark is [second]
    while the texts shown are those of [first].  No error is logged when
    no key leads to an exception in either dictionary. *)
Theorem switches_out_of_order :
  forall (inherited : JValue -> string -> Completion JValue) (st : State)
         (first second : string) (d1 d2 : JValue),
    truthy d1 = true ->
    let st' :=
      setLanguage_resume inherited (Resolved d1)
        (setLanguage_resume inherited (Resolved d2)
           (setLanguage_begin second (setLanguage_begin first st))) in
    currentLang st' = second /\
    stored st' = Some second /\
    dictionary st' = Some d1 /\
    (forall n, In n (nodes (root (doc st'))) -> shows_language second n) /\
    (calm inherited d1 (root (doc st)) = true ->
     html_lang (doc st') = Some second /\
     forall n, In n (nodes (root (doc st'))) -> translated inherited d1 n) /\
    (calm inherited d1 (root (doc st)) = true ->
     calm inherited d2 (root (doc st)) = true ->
     log_errors st' = log_errors st).
Proof.
  intros inherited st first second d1 d2 Ht. cbv zeta.
  set (s2 := setLanguage_begin second (setLanguage_begin first st)).
  set (s3 := setLanguage_resume inherited (Resolved d2) s2).
  destruct (resume_facts inherited d2 s2) as [A2 [B2 [_ [D2 [K2 [F2 _]]]]]].
  fold s3 in A2, B2, D2, K2, F2.
  destruct (resume_facts inherited d1 s3) as [A1 [B1 [C1 [D1 [_ [F1 [G1 _]]]]]]].
  assert (Hb : Forall (shows_language second) (nodes (root (doc s2))))
    by apply setActiveButton_buttons.
  assert (Hk : forall d, calm inherited d (root (doc st)) = true ->
                         calm inherited d (root (doc s2)) = true).
  { intros d H. unfold s2. cbn. do 2 apply setActiveButton_calm. exact H. }
  split; [rewrite A1, A2; reflexivity|].
  split; [rewrite B1, B2; reflexivity|].
  split; [exact C1|].
  split.
  { intros n Hn. specialize (D1 second (D2 second Hb)).
    rewrite Forall_forall in D1. apply D1, Hn. }
  split.
  { intros Hc. destruct (G1 (F1 (K2 d1 (Hk d1 Hc)))) as [L T].
    rewrite Ht, A2 in L. split; [exact L|].
    intros n Hn. rewrite Forall_forall in T. apply T, Hn. }
  intros Hc1 Hc2.
  rewrite (F1 (K2 d1 (Hk d1 Hc1))), (F2 (Hk d2 Hc2)). reflexivity.
Qed.

Lemma switches_out_of_order_witness :
  let st' :=
    setLanguage_resume standard_members (Resolved ru_dict)
      (setLanguage_resume standard_members (Resolved en_dict)
         (setLanguage_begin "en" (setLanguage_begin "ru" russian_page))) in
  html_lang (doc st') = Some "en" /\ dictionary st' = Some ru_dict.
Proof.
  cbv zeta.
  assert (Ht : truthy ru_dict = true) by reflexivity.
  assert (Hc : calm standard_members ru_dict (root (doc russian_page)) = true)
    by (vm_compute; reflexivity).
  destruct (switches_out_of_order standard_members russian_page "ru" "en"
              ru_dict en_dict Ht) as [_ [_ [D [_ [H _]]]]].
  destruct (H Hc) as [L _].
  split; [exact L|exact D].
Defined.

(** The buttons say English and the menu is in Russian. *)
Example late_answer_wins :
  let st' :=
    setLanguage_resume standard_members (Resolved ru_dict)
      (setLanguage_resume standard_members (Resolved en_dict)
         (setLanguage_begin "en" (setLanguage_begin "ru" russian_page))) in
  map (fun i => option_map textContent (at_path [1; i]%nat (root (doc st'))))
      [0; 1]%nat
  = [Some "Главная"; Some "О нас"] /\
  map (fun i => option_map attrs (at_path [1; i]%nat (root (doc st'))))
      [3; 4]%nat
  = map (fun n => Some (attrs n)) [button "ru" false; button "en" true].
Proof. split; reflexivity. Qed.

End LangSwitchProperties.
